(** * The xv6 buffer cache with hashed buckets (kernel/bio.c)

    A shallow embedding of [kernel/bio.c] and the proofs of the properties
    its specification states.

    The cache is a fixed array [bcache.buf] of [NBUF] buffers and an array
    [bcache.head] of [NBUCKET] list heads; every bucket is a singly linked
    list threaded through the [out] field of the buffers.  Pointers to
    buffers are modelled as indices into [bcache.buf] (the null pointer is
    [None]), unsigned integers as [Z] with the wrap-around at [2^32]
    written out.

    The model is sequential: one caller runs at a time and each section of
    code that the source brackets with a bucket spin lock is one atomic
    step, so the spin locks themselves are not represented.  The sleep lock
    of a buffer is represented by its holder. *)

From Stdlib Require Import ZArith String Lia.
From stdpp Require Import base tactics option list list_numbers.

Local Open Scope Z_scope.
Local Open Scope nat_scope.

(** ** Data *)

(** [uint] arithmetic. *)
Definition wrap (x : Z) : Z := (x mod 2 ^ 32)%Z.

(** Modelled from the spec: [struct buf] is declared in [buf.h], which is
    not among the sources.  The fields are those of section 3 of the
    specification, under the names that [bio.c] uses: [dev], [blockno] and
    [refcnt] are [uint] (as in the signature of [bget]), [valid] is an [int]
    used as a flag, [data] is the content and [out] the link of the bucket
    list.  [lock] is the sleep lock: [None] when free, [Some pid] when
    process [pid] holds it. *)
Record buf : Type := Buf {
  valid : Z;
  dev : Z;
  blockno : Z;
  lock : option Z;
  refcnt : Z;
  out : option nat;
  data : list Z
}.

(** One call of the disk driver: the direction and the block. *)
Record io_event : Type := Io { io_write : bool; io_dev : Z; io_blockno : Z }.

(** The global [bcache] together with the disk behind it.  [bc_head k] is
    [bcache.head[k].out]; [io_log] records the calls of [virtio_disk_rw]. *)
Record state : Type := State {
  bc_buf : list buf;
  bc_head : list (option nat);
  disk : Z -> Z -> list Z;
  io_log : list io_event
}.

Definition set_valid (v : Z) (b : buf) : buf :=
  Buf v (dev b) (blockno b) (lock b) (refcnt b) (out b) (data b).
Definition set_lock (l : option Z) (b : buf) : buf :=
  Buf (valid b) (dev b) (blockno b) l (refcnt b) (out b) (data b).
Definition set_refcnt (r : Z) (b : buf) : buf :=
  Buf (valid b) (dev b) (blockno b) (lock b) r (out b) (data b).
Definition set_out (o : option nat) (b : buf) : buf :=
  Buf (valid b) (dev b) (blockno b) (lock b) (refcnt b) o (data b).
Definition set_data (d : list Z) (b : buf) : buf :=
  Buf (valid b) (dev b) (blockno b) (lock b) (refcnt b) (out b) d.

(** [b->refcnt++] and [b->refcnt--] on a [uint]. *)
Definition incr (b : buf) : buf := set_refcnt (wrap (refcnt b + 1)) b.
Definition decr (b : buf) : buf := set_refcnt (wrap (refcnt b - 1)) b.

(** The four assignments of [bget] that bind a free buffer to a block:
    [b->dev = dev; b->blockno = blockno; b->valid = 0; b->refcnt = 1]. *)
Definition rebind (d n : Z) (b : buf) : buf :=
  Buf 0 d n (lock b) 1 (out b) (data b).

(** Update of buffer [i] and of list head [k]. *)
Definition upd (i : nat) (f : buf -> buf) (s : state) : state :=
  State (alter f i (bc_buf s)) (bc_head s) (disk s) (io_log s).
Definition set_head (k : nat) (p : option nat) (s : state) : state :=
  State (bc_buf s) (<[k := p]> (bc_head s)) (disk s) (io_log s).

(** ** Results of running a piece of code

    [Done a s]: returned [a] in state [s].  [Sleep b s]: the caller went to
    sleep in [acquiresleep] on buffer [b], the state being [s] at that
    moment.  [Panic msg]: the kernel stopped in [panic(msg)].  [Fault]: a
    pointer outside [bcache.buf] or an index outside an array was used.
    [Diverge]: a list traversal does not end (the list is cyclic). *)
Inductive outcome (A : Type) : Type :=
| Done (a : A) (s : state)
| Sleep (b : nat) (s : state)
| Panic (msg : string)
| Fault
| Diverge.
Arguments Done {A} a s.
Arguments Sleep {A} b s.
Arguments Panic {A} msg.
Arguments Fault {A}.
Arguments Diverge {A}.

Definition bind {A B : Type} (m : outcome A) (f : A -> state -> outcome B)
  : outcome B :=
  match m with
  | Done a s => f a s
  | Sleep b s => Sleep b s
  | Panic msg => Panic msg
  | Fault => Fault
  | Diverge => Diverge
  end.

Notation "'call' x s <- m ; k" := (bind m (fun x s => k))
  (at level 10, x name, s name, m at level 100, k at level 200,
   format "'[v' 'call'  x  s  <-  m ; '/' k ']'").

(** ** List traversals

    Both search loops of [bget] have the shape
    [for(b = head->out; b != 0; b = b->out) if (P b) { ...; return b; }].
    [scan P fuel bs p] walks from [p] and gives the first buffer that
    satisfies [P].  A buffer array of [n] entries has no acyclic list of
    more than [n] nodes, so with [fuel = n] the answer [Loop] is given
    exactly when the C loop would not end. *)
Inductive found : Type := Hit (b : nat) | Miss | Wild | Loop.

Fixpoint scan (P : buf -> bool) (fuel : nat) (bs : list buf)
  (p : option nat) : found :=
  match p with
  | None => Miss
  | Some i =>
    match fuel with
    | O => Loop
    | S fuel' =>
      match bs !! i with
      | None => Wild
      | Some b => if P b then Hit i else scan P fuel' bs (out b)
      end
    end
  end.

(** [b->dev == dev && b->blockno == blockno] *)
Definition cached (d n : Z) (b : buf) : bool :=
  (dev b =? d)%Z && (blockno b =? n)%Z.
(** the negation of [b->refcnt != 0] *)
Definition unused (b : buf) : bool := (refcnt b =? 0)%Z.

(** The nodes of the list that starts at [p], when it ends within [fuel]
    steps. *)
Fixpoint walk (fuel : nat) (bs : list buf) (p : option nat)
  : option (list nat) :=
  match p with
  | None => Some []
  | Some i =>
    match fuel with
    | O => None
    | S fuel' =>
      match bs !! i with
      | None => None
      | Some b => (i ::.) <$> walk fuel' bs (out b)
      end
    end
  end.

Definition fuel (s : state) : nat := length (bc_buf s).

(** The members of bucket [k], head first. *)
Definition bucket (s : state) (k : nat) : option (list nat) :=
  match bc_head s !! k with
  | None => None
  | Some h => walk (fuel s) (bc_buf s) h
  end.

(** ** Lists in the heap

    [seg bs p l q]: following [out] from pointer [p] visits exactly the
    buffers [l], in this order, and arrives at pointer [q]. *)
Inductive seg (bs : list buf) : option nat -> list nat -> option nat -> Prop :=
| seg_nil p : seg bs p [] p
| seg_cons i b l q :
    bs !! i = Some b -> seg bs (out b) l q -> seg bs (Some i) (i :: l) q.

(** A list that ends in the null pointer. *)
Definition chain (bs : list buf) (p : option nat) (l : list nat) : Prop :=
  seg bs p l None.

(** Bucket [k] is a well-formed list with the members [l]. *)
Definition in_bucket (s : state) (k : nat) (l : list nat) : Prop :=
  exists h, bc_head s !! k = Some h /\ chain (bc_buf s) h l.

(** [P] holds of buffer [i]. *)
Definition holds (P : buf -> bool) (bs : list buf) (i : nat) : bool :=
  from_option P false (bs !! i).

(** The first buffer of the list [l] that satisfies [P]. *)
Fixpoint pick (P : buf -> bool) (bs : list buf) (l : list nat) : option nat :=
  match l with
  | [] => None
  | i :: l' => if holds P bs i then Some i else pick P bs l'
  end.

Definition found_of (o : option nat) : found :=
  match o with Some i => Hit i | None => Miss end.

(** What the lookups of [bget] see of a buffer. *)
Definition shape (b : buf) : Z * Z * option nat := (dev b, blockno b, out b).

(** Two buffer arrays that differ at most in the [out] fields. *)
Definition same_but_out (bs bs' : list buf) : Prop :=
  forall i, set_out None <$> bs' !! i = set_out None <$> bs !! i.

(** The state after unlinking buffer [z], whose successor is [nxt], from
    bucket [k], where the nodes [l1] precede it: the predecessor, or the
    list head when there is none, is linked to [nxt]. *)
Definition detach (k z : nat) (nxt : option nat) (l1 : list nat) (s : state)
  : state :=
  upd z (set_out None)
    (match last l1 with
     | None => set_head k nxt s
     | Some q => upd q (set_out nxt) s
     end).

(** The panic messages. *)
Definition msg_no_buffer : string :=
  String.append "no buffer" (String (Ascii.ascii_of_nat 10) EmptyString).
Definition msg_no_buffers : string := "bget: no buffers".

(** What [debug_bucket] writes to the console: one line for a buffer, with
    its block number and its reference count, and the closing line with the
    number of buffers.  [printf] is declared in [defs.h]; the console is
    represented by the list of the lines written, each by its arguments. *)
Inductive printed : Type :=
| Line (blk cnt : Z)
| Total (cnt : Z).

(** The value of a 32-bit word read as an [int], which is what the
    conversion [%d] shows, and the wrap-around of [int] arithmetic. *)
Definition to_int (x : Z) : Z := ((x + 2 ^ 31) mod 2 ^ 32 - 2 ^ 31)%Z.

Definition line_of (b : buf) : printed :=
  Line (to_int (blockno b)) (to_int (refcnt b)).

Section Bio.

(** [NBUCKET], [NBUF] and the macro [hash] are declared in headers that
    are not among the sources; they are parameters here. *)
Variable NBUCKET NBUF : nat.
Variable hash : Z -> nat.

(** ** [put] and [remove] *)

(** [put(key, val)]: push [val] at the head of bucket [hash(key)]. *)
Definition put (key : Z) (val : nat) (s : state) : outcome unit :=
  match bc_head s !! hash key with
  | None => Fault
  | Some h =>
    match bc_buf s !! val with
    | None => Fault
    | Some _ => Done tt (set_head (hash key) (Some val) (upd val (set_out h) s))
    end
  end.

(** The loop of [remove]: [e] runs over the list of bucket [k], [pre]
    follows it. *)
Fixpoint remove_loop (fuel : nat) (b k : nat) (e pre : option nat)
  (s : state) : outcome unit :=
  match e with
  | None => Done tt s
  | Some ei =>
    match fuel with
    | O => Diverge
    | S fuel' =>
      match bc_buf s !! ei with
      | None => Fault
      | Some eb =>
        if decide (ei = b) then
          if decide (pre = e) then
            Done tt (upd ei (set_out None) (set_head k (out eb) s))
          else
            match pre with
            | None => Fault
            | Some pi =>
              match bc_buf s !! pi with
              | None => Fault
              | Some _ =>
                Done tt (upd ei (set_out None) (upd pi (set_out (out eb)) s))
              end
            end
        else if decide (pre = e) then
          remove_loop fuel' b k (out eb) pre s
        else
          match pre with
          | None => Fault
          | Some pi =>
            match bc_buf s !! pi with
            | None => Fault
            | Some pb => remove_loop fuel' b k (out eb) (out pb) s
            end
          end
      end
    end
  end.

(** [remove(b)]: unlink [b] from the bucket of [b->blockno]. *)
Definition remove (b : nat) (s : state) : outcome unit :=
  match bc_buf s !! b with
  | None => Fault
  | Some bb =>
    match bc_head s !! hash (blockno bb) with
    | None => Fault
    | Some h => remove_loop (fuel s) b (hash (blockno bb)) h h s
    end
  end.

(** ** The sleep lock and the disk *)

(** Modelled from the spec: [holdingsleep] is defined in [sleeplock.c],
    which is not among the sources; section 6 has it as the test whether
    the caller holds the lock. *)
Definition holdingsleep (pid : Z) (b : buf) : bool :=
  bool_decide (lock b = Some pid).

(** Modelled from the spec: [acquiresleep] is defined in [sleeplock.c];
    by section 6 it takes the lock when it is free and blocks for as long
    as another holder has it. *)
Definition acquiresleep (pid : Z) (b : nat) (s : state) : outcome unit :=
  match bc_buf s !! b with
  | None => Fault
  | Some bb =>
    match lock bb with
    | None => Done tt (upd b (set_lock (Some pid)) s)
    | Some _ => Sleep b s
    end
  end.

(** Modelled from the spec: [releasesleep] is defined in [sleeplock.c];
    it frees the lock. *)
Definition releasesleep (b : nat) (s : state) : state :=
  upd b (set_lock None) s.

(** Modelled from the spec: [virtio_disk_rw] is defined in
    [virtio_disk.c]; by section 6 it fills the content of the buffer from
    the disk, or persists it, and returns when the transfer is complete.
    Every call is recorded in [io_log]. *)
Definition virtio_disk_rw (b : nat) (write : bool) (s : state)
  : outcome unit :=
  match bc_buf s !! b with
  | None => Fault
  | Some bb =>
    let ev := Io write (dev bb) (blockno bb) in
    if write then
      Done tt (State (bc_buf s) (bc_head s)
                 (fun d n => if decide (d = dev bb /\ n = blockno bb)
                             then data bb else disk s d n)
                 (io_log s ++ [ev]))
    else
      Done tt (State (alter (set_data (disk s (dev bb) (blockno bb))) b
                        (bc_buf s))
                 (bc_head s) (disk s) (io_log s ++ [ev]))
  end.

(** ** [bget] *)

(** The third loop of [bget], [for(int i = 1; i < NBUCKET; ++i)]: [n]
    iterations are left, the next one has loop index [i].  An iteration
    panics when [hash(blockno + i)] is the bucket of the block itself;
    otherwise it looks for an unused buffer in bucket [hash(blockno + i)],
    and moves the first one to the bucket of the block: [remove], the four
    assignments, [put], [acquiresleep].  After the last iteration [bget]
    panics. *)
Fixpoint steal (n : nat) (i : Z) (pid d blk : Z) (s : state)
  : outcome nat :=
  match n with
  | O => Panic msg_no_buffers
  | S n' =>
    if decide (hash blk = hash (wrap (blk + i))) then Panic msg_no_buffer
    else
      match bc_head s !! hash (wrap (blk + i)) with
      | None => Fault
      | Some h =>
        match scan unused (fuel s) (bc_buf s) h with
        | Hit b =>
          call _ s1 <- remove b s;
          call _ s2 <- put blk b (upd b (rebind d blk) s1);
          call _ s3 <- acquiresleep pid b s2;
          Done b s3
        | Miss => steal n' (i + 1)%Z pid d blk s
        | Wild => Fault
        | Loop => Diverge
        end
      end
  end.

(** [bget(dev, blockno)], called by process [pid].  First loop: a buffer
    of the bucket that holds the block gets [refcnt++].  Second loop: the
    first unused buffer of the bucket is bound to the block.  Then the
    third loop.  Every path ends with [acquiresleep] on the buffer. *)
Definition bget (pid d blk : Z) (s : state) : outcome nat :=
  match bc_head s !! hash blk with
  | None => Fault
  | Some h =>
    match scan (cached d blk) (fuel s) (bc_buf s) h with
    | Hit b =>
      call _ s1 <- acquiresleep pid b (upd b incr s);
      Done b s1
    | Wild => Fault
    | Loop => Diverge
    | Miss =>
      match scan unused (fuel s) (bc_buf s) h with
      | Hit b =>
        call _ s1 <- acquiresleep pid b (upd b (rebind d blk) s);
        Done b s1
      | Wild => Fault
      | Loop => Diverge
      | Miss => steal (NBUCKET - 1) 1%Z pid d blk s
      end
    end
  end.

(** ** The public operations *)

(** The part of [bread] that follows [bget]. *)
Definition bread_fill (b : nat) (s : state) : outcome nat :=
  match bc_buf s !! b with
  | None => Fault
  | Some bb =>
    if (valid bb =? 0)%Z then
      call _ s1 <- virtio_disk_rw b false s;
      Done b (upd b (set_valid 1) s1)
    else Done b s
  end.

(** [bread(dev, blockno)] *)
Definition bread (pid d blk : Z) (s : state) : outcome nat :=
  call b s1 <- bget pid d blk s;
  bread_fill b s1.

(** [bwrite(b)] *)
Definition bwrite (pid : Z) (b : nat) (s : state) : outcome unit :=
  match bc_buf s !! b with
  | None => Fault
  | Some bb =>
    if holdingsleep pid bb then virtio_disk_rw b true s
    else Panic "bwrite"
  end.

(** [brelse(b)]: the test of the lock, [releasesleep], [b->refcnt--].
    The body of [if (b->refcnt == 0)] is empty in the source. *)
Definition brelse (pid : Z) (b : nat) (s : state) : outcome unit :=
  match bc_buf s !! b with
  | None => Fault
  | Some bb =>
    if holdingsleep pid bb then
      Done tt (upd b decr (releasesleep b s))
    else Panic "brelse"
  end.

(** [bpin(b)] and [bunpin(b)] *)
Definition bpin (b : nat) (s : state) : outcome unit :=
  match bc_buf s !! b with
  | None => Fault
  | Some _ => Done tt (upd b incr s)
  end.

Definition bunpin (b : nat) (s : state) : outcome unit :=
  match bc_buf s !! b with
  | None => Fault
  | Some _ => Done tt (upd b decr s)
  end.

(** ** [debug_bucket] *)

(** The loop of [debug_bucket]: [e] runs over the list, [cnt] counts, [acc]
    is what has been written so far. *)
Fixpoint debug_loop (fuel : nat) (e : option nat) (cnt : Z)
  (acc : list printed) (s : state) : outcome (list printed) :=
  match e with
  | None => Done (acc ++ [Total cnt]) s
  | Some i =>
    match fuel with
    | O => Diverge
    | S fuel' =>
      match bc_buf s !! i with
      | None => Fault
      | Some b => debug_loop fuel' (out b) (to_int (cnt + 1))
                    (acc ++ [line_of b]) s
      end
    end
  end.

(** [debug_bucket(blockno)]; the result is what it has written. *)
Definition debug_bucket (blk : Z) (s : state) : outcome (list printed) :=
  match bc_head s !! hash blk with
  | None => Fault
  | Some h => debug_loop (fuel s) h 0%Z [] s
  end.

(** ** [binit] *)

(** The second loop of [binit], over the buffers [bs]: [initsleeplock],
    [b->out = 0], [put(0, b)]. *)
Fixpoint binit_bufs (bs : list nat) (s : state) : outcome unit :=
  match bs with
  | [] => Done tt s
  | b :: bs' =>
    call _ s1 <- put 0%Z b (upd b (set_out None) (upd b (set_lock None) s));
    binit_bufs bs' s1
  end.

(** [binit()]: the first loop empties the list heads, the second pushes
    every buffer on the list of bucket [hash(0)]. *)
Definition binit (s : state) : outcome unit :=
  binit_bufs (seq 0 NBUF)
    (fold_left (fun s' i => set_head i None s') (seq 0 NBUCKET) s).

(** [bcache] as the loader leaves it: every byte is zero. *)
Definition zero_buf : buf := Buf 0 0 0 None 0 None [].
Definition boot (dsk : Z -> Z -> list Z) : state :=
  State (replicate NBUF zero_buf) (replicate NBUCKET None) dsk [].

(** ** Invariants *)

(** Every bucket is a well-formed list, and every buffer is on the list of
    the bucket that its block number hashes to, and on no other. *)
Record inv (s : state) : Prop := Inv {
  inv_nbuf : length (bc_buf s) = NBUF;
  inv_nbucket : length (bc_head s) = NBUCKET;
  inv_chain : forall k, k < NBUCKET -> exists l, in_bucket s k l;
  inv_member : forall i b, bc_buf s !! i = Some b ->
    exists l, in_bucket s (hash (blockno b)) l /\ i ∈ l;
  inv_hash : forall k l i b, in_bucket s k l -> i ∈ l ->
    bc_buf s !! i = Some b -> hash (blockno b) = k
}.

(** A buffer in use is the one that the first loop of [bget] finds for its
    block: it is the first buffer with its device and block number on the
    list of its bucket. *)
Definition live_found (s : state) : Prop :=
  forall j b l, bc_buf s !! j = Some b -> refcnt b <> 0%Z ->
    in_bucket s (hash (blockno b)) l ->
    pick (cached (dev b) (blockno b)) (bc_buf s) l = Some j.

(** The first loop of [bget] for block [(d, n)] finds buffer [b]. *)
Definition finds (d n : Z) (b : nat) (s : state) : Prop :=
  forall l, in_bucket s (hash n) l ->
    pick (cached d n) (bc_buf s) l = Some b.

(** What [bget] does to the buffer that it returns: one more reference to
    a buffer that holds the block already, a new binding otherwise. *)
Definition claim (d n : Z) (b : buf) : buf :=
  if cached d n b then incr b else rebind d n b.

(** What holds of the state that a piece of code leaves behind. *)
Definition post {A : Type} (Q : state -> Prop) (o : outcome A) : Prop :=
  match o with
  | Done _ s => Q s
  | Sleep _ s => Q s
  | _ => True
  end.

(** The end of every path of [bget]: take the sleep lock, return [b]. *)
Definition lock_return (pid : Z) (b : nat) (s : state) : outcome nat :=
  call _ s1 <- acquiresleep pid b s;
  Done b s1.

(** The state after the third loop of [bget] has moved the free buffer [z]
    to the bucket of block [blk]. *)
Definition stolen (d blk : Z) (z : nat) (s : state) : outcome unit :=
  call _ s1 <- remove z s;
  put blk z (upd z (rebind d blk) s1).

(** ** Runs of the public operations *)

Inductive op : Type :=
| Bread (pid d blk : Z)
| Wake (pid : Z) (b : nat)
| Bwrite (pid : Z) (b : nat)
| Brelse (pid : Z) (b : nat)
| Bpin (b : nat)
| Bunpin (b : nat).

(** The state an operation leaves behind; a caller that went to sleep
    leaves the state in which it fell asleep. *)
Definition settle {A : Type} (o : outcome A) : option state :=
  match o with
  | Done _ s => Some s
  | Sleep _ s => Some s
  | _ => None
  end.

(** [Wake pid b] is a sleeper of [bget] that gets the lock of [b] and
    finishes its [bread]. *)
Definition exec (c : op) (s : state) : option state :=
  match c with
  | Bread pid d blk => settle (bread pid d blk s)
  | Wake pid b => settle (call _ s1 <- acquiresleep pid b s; bread_fill b s1)
  | Bwrite pid b => settle (bwrite pid b s)
  | Brelse pid b => settle (brelse pid b s)
  | Bpin b => settle (bpin b s)
  | Bunpin b => settle (bunpin b s)
  end.

(** The use the callers are entitled to: a reference is given back, or
    duplicated, only by one who has it. *)
Definition legal (c : op) (s : state) : bool :=
  match c with
  | Brelse _ b | Bpin b | Bunpin b =>
      holds (fun x => negb (refcnt x =? 0)%Z) (bc_buf s) b
  | _ => true
  end.

Fixpoint run (cs : list op) (s : state) : option state :=
  match cs with
  | [] => Some s
  | c :: cs' =>
    match exec c s with
    | Some s' => run cs' s'
    | None => None
    end
  end.

Fixpoint run_legal (cs : list op) (s : state) : option state :=
  match cs with
  | [] => Some s
  | c :: cs' =>
    if legal c s then
      match exec c s with
      | Some s' => run_legal cs' s'
      | None => None
      end
    else None
  end.

(** The states of the cache after [binit] and any number of operations,
    and those in which the callers kept to the rules. *)
Definition reachable (s : state) : Prop :=
  exists dsk s0 cs, binit (boot dsk) = Done tt s0 /\ run cs s0 = Some s.

Definition reachable_legal (s : state) : Prop :=
  exists dsk s0 cs, binit (boot dsk) = Done tt s0 /\ run_legal cs s0 = Some s.

(** Buffer [i] is on the list of exactly one bucket, once. *)
Definition one_bucket (s : state) (i : nat) : Prop :=
  exists k l, bucket s k = Some l /\ i ∈ l /\ NoDup l /\
    forall k' l', bucket s k' = Some l' -> i ∈ l' -> k' = k.

(** The lists of all the buckets, bucket 0 first. *)
Definition lists (s : state) : list (list nat) :=
  (fun k => default [] (bucket s k)) <$> seq 0 NBUCKET.

(** The counter of [debug_bucket] after [k] more buffers. *)
Definition count_up (k : nat) (cnt : Z) : Z :=
  Nat.iter k (fun c => to_int (c + 1)) cnt.

(** [bget] for each of the blocks [ps] in turn, none being released. *)
Fixpoint bget_all (pid : Z) (ps : list (Z * Z)) (s : state)
  : outcome (list nat) :=
  match ps with
  | [] => Done [] s
  | p :: ps' =>
    call b s1 <- bget pid p.1 p.2 s;
    call bs s2 <- bget_all pid ps' s1;
    Done (b :: bs) s2
  end.

(** After the calls of [bget_all]: buffer [bs !! k] is bound to block
    [ps !! k] and held once, by [pid]; the other buffers are as [binit]
    left them, unused and with block number 0. *)
Definition all_held (pid : Z) (bs : list nat) (ps : list (Z * Z))
  (s : state) : Prop :=
  inv s /\ NoDup bs /\ length bs = length ps /\
  (forall k b p, bs !! k = Some b -> ps !! k = Some p ->
     exists bb, bc_buf s !! b = Some bb /\ dev bb = p.1 /\
       blockno bb = p.2 /\ refcnt bb = 1%Z /\ lock bb = Some pid) /\
  (forall i bb, bc_buf s !! i = Some bb -> i ∉ bs ->
     refcnt bb = 0%Z /\ lock bb = None /\ blockno bb = 0%Z).

(** The probe sequence of block [blk] visits the buckets after its own in
    cyclic order. *)
Definition probe_ok (blk : Z) : Prop :=
  forall i : nat, 1 <= i < NBUCKET ->
    hash (wrap (blk + Z.of_nat i)) = (hash blk + i) mod NBUCKET.

(** [bget] for block [blk] gets to bucket [k]: it is the bucket of the
    block, or iteration [j] of the third loop probes it and no iteration up
    to [j] comes back to the bucket of the block. *)
Definition reaches (blk : Z) (k : nat) : Prop :=
  hash blk = k \/
  exists j : nat, 1 <= j < NBUCKET /\
    hash (wrap (blk + Z.of_nat j)) = k /\
    forall i : nat, 1 <= i <= j -> hash (wrap (blk + Z.of_nat i)) <> hash blk.

(** The unused buffers of the cache. *)
Definition unused_bufs (s : state) : list nat :=
  filter (fun i => holds unused (bc_buf s) i = true)
    (seq 0 (length (bc_buf s))).

(** After the calls of [bget_all] for the blocks [ps], some of the blocks
    [qs], on a cache whose unused buffers were [U]: buffer [bs !! k] is one
    of [U], bound to block [ps !! k] and held once, by [pid]; the other
    buffers of [U] are still unused and not locked, each in a bucket that
    [bget] gets to for every block of [qs]; a buffer outside [U] is in use,
    for a block that is not among [qs]. *)
Definition held_of (pid : Z) (U : list nat) (qs : list (Z * Z))
  (bs : list nat) (ps : list (Z * Z)) (s : state) : Prop :=
  inv s /\ NoDup bs /\ length bs = length ps /\
  (forall b, b ∈ bs -> b ∈ U) /\
  (forall k b p, bs !! k = Some b -> ps !! k = Some p ->
     exists bb, bc_buf s !! b = Some bb /\ dev bb = p.1 /\
       blockno bb = p.2 /\ refcnt bb = 1%Z /\ lock bb = Some pid) /\
  (forall i, i ∈ U -> i ∉ bs ->
     exists bb, bc_buf s !! i = Some bb /\ refcnt bb = 0%Z /\
       lock bb = None /\
       forall q, q ∈ qs -> reaches q.2 (hash (blockno bb))) /\
  (forall i bb, bc_buf s !! i = Some bb -> i ∉ U ->
     refcnt bb <> 0%Z /\ (dev bb, blockno bb) ∉ qs).

End Bio.

(** The customary definition of the macro, [x % NBUCKET].  The theorems
    hold for every [hash] with values below [NBUCKET]; this one serves to run
    the model and to show that their hypotheses can be met. *)
Definition hash_mod (M : nat) (x : Z) : nat := Z.to_nat (x mod Z.of_nat M).

(** ** A small configuration to run the model on: four buffers, two
    buckets, [hash(x) = x % 2]. *)
Module Small.
Definition hash : Z -> nat := hash_mod 2.
Definition dsk (d n : Z) : list Z := [d; n].

(** The cache after [binit]. *)
Definition s0 : state :=
  match binit 2 4 hash (boot 2 4 dsk) with
  | Done _ s => s
  | _ => boot 2 4 dsk
  end.

(** Process 7 reads block (1, 11). *)
Definition after_bread : state :=
  match bread 2 hash 7 1 11 s0 with
  | Done _ s => s
  | _ => s0
  end.

(** The buffer that this [bread] returns, as [after_bread] has it. *)
Definition buf3 : buf := Buf 1 1 11 (Some 7%Z) 1 None [1%Z; 11%Z].

(** Buffer 2 after [binit]. *)
Definition buf2 : buf := Buf 0 0 0 None 0 (Some 1) [].

(** Three processes work on two blocks. *)
Definition trace : list op :=
  [Bread 7 1 11; Bread 7 1 10; Brelse 7 3; Bread 8 1 11; Bpin 3;
   Bwrite 8 3; Bread 9 1 11; Brelse 8 3; Wake 9 3; Bunpin 3].
Definition s1 : state := default s0 (run 2 hash trace s0).

(** Buffer 3 taken off its list by hand. *)
Definition s_off : state :=
  match remove hash 3 s0 with
  | Done _ s => s
  | _ => s0
  end.

(** As many blocks as there are buffers. *)
Definition blocks : list (Z * Z) :=
  [(1, 10); (1, 11); (1, 12); (1, 13)]%Z.

(** Three more blocks, for the three buffers that [after_bread] leaves
    unused. *)
Definition more_blocks : list (Z * Z) := [(1, 10); (1, 12); (1, 13)]%Z.

(** The cache after the [bget] of that first [bread]. *)
Definition got : state := default s0 (settle (bget 2 hash 7 1 11 s0)).

(** Process 7 has released block (1, 11) again. *)
Definition after_brelse : state :=
  match brelse 7 3 after_bread with
  | Done _ s => s
  | _ => after_bread
  end.

(** Buffer 3 as [after_brelse] has it. *)
Definition buf3_free : buf := Buf 1 1 11 None 0 None [1%Z; 11%Z].

(** Process 8 asks for block (1, 12) while process 7 holds block (1, 11). *)
Definition after_bget : state :=
  default after_bread (settle (bget 2 hash 8 1 12 after_bread)).

(** All four buffers in use. *)
Definition full_trace : list op :=
  [Bread 7 1 10; Bread 7 1 11; Bread 7 1 12; Bread 7 1 13].
Definition s_full : state := default s0 (run 2 hash full_trace s0).

(** Three buckets and two buffers, [hash(x) = x % 3]: buffer 0 is in use
    in bucket 0, buffer 1 is unused in bucket 1. *)
Definition hash3 : Z -> nat := hash_mod 3.
Definition t0 : state :=
  match binit 3 2 hash3 (boot 3 2 dsk) with
  | Done _ s => s
  | _ => boot 3 2 dsk
  end.
Definition trace3 : list op := [Bread 7 1 1; Bread 7 1 3; Brelse 7 1].
Definition t1 : state := default t0 (run 3 hash3 trace3 t0).
End Small.

(** * Proofs *)

(** ** Lists in the heap *)

Section Heap.
Implicit Types (bs : list buf) (p q : option nat) (l : list nat).

Lemma seg_app bs p l1 l2 q :
  seg bs p (l1 ++ l2) q <-> exists r, seg bs p l1 r /\ seg bs r l2 q.
Proof.
  revert p. induction l1 as [|i l1 IH]; intros p; simpl.
  - split.
    + intros H. exists p. split; [constructor | done].
    + intros (r & H1 & H2). by inversion H1; subst.
  - split.
    + intros H. inversion H as [|? b ? ? Hb Hs]; subst.
      apply IH in Hs as (r & H1 & H2).
      exists r. split; [by econstructor | done].
    + intros (r & H1 & H2). inversion H1 as [|? b ? ? Hb Hs]; subst.
      econstructor; [done|]. apply IH. eauto.
Qed.

(** A segment depends only on the [out] fields of its own nodes. *)
Lemma seg_frame bs bs' p l q :
  seg bs p l q ->
  (forall i, i ∈ l -> out <$> bs' !! i = out <$> bs !! i) ->
  seg bs' p l q.
Proof.
  induction 1 as [|i b l q Hb _ IH]; intros Hsame; [constructor|].
  assert (Hi : out <$> bs' !! i = Some (out b)).
  { rewrite Hsame; [by rewrite Hb | by left]. }
  destruct (bs' !! i) as [b'|] eqn:Hb'; simplify_eq/=.
  econstructor; [done|].
  rewrite Hi. apply IH. intros j Hj. apply Hsame. by right.
Qed.

Lemma seg_lookup bs p l q i :
  seg bs p l q -> i ∈ l -> is_Some (bs !! i).
Proof.
  induction 1 as [|j b l q Hb _ IH]; intros Hi.
  - by apply elem_of_nil in Hi.
  - apply elem_of_cons in Hi as [->|Hi]; eauto.
Qed.

Lemma chain_det bs p l l' : chain bs p l -> chain bs p l' -> l = l'.
Proof.
  unfold chain. intros H. revert l'.
  remember None as q eqn:Hq.
  induction H as [|i b l q Hb _ IH]; intros l' H'.
  - subst. by inversion H'.
  - inversion H' as [|? b' l'' ? Hb' Hs']; simplify_eq.
    f_equal. by apply IH.
Qed.

(** The tail of a list after one of its nodes is the list of that node. *)
Lemma chain_split bs p l1 i l2 :
  chain bs p (l1 ++ i :: l2) ->
  seg bs p l1 (Some i) /\ chain bs (Some i) (i :: l2).
Proof.
  unfold chain. intros (r & H1 & H2)%seg_app.
  inversion H2; subst. split; [done|]. by econstructor.
Qed.

(** A list that reaches the null pointer visits no buffer twice. *)
Lemma chain_NoDup bs p l : chain bs p l -> NoDup l.
Proof.
  revert p. induction l as [|i l IH]; intros p H; [constructor|].
  inversion H as [|? b ? ? Hb Hs]; subst.
  apply NoDup_cons. split; [|by eapply IH].
  intros Hi. apply list_elem_of_split in Hi as (l1 & l2 & ->).
  apply chain_split in Hs as [_ Hs].
  pose proof (chain_det _ _ _ _ H Hs) as Heq.
  apply (f_equal length) in Heq. simpl in Heq.
  rewrite length_app in Heq. simpl in Heq. lia.
Qed.

Lemma chain_length bs p l : chain bs p l -> length l <= length bs.
Proof.
  intros H.
  trans (length (seq 0 (length bs))); [|by rewrite length_seq].
  apply submseteq_length, NoDup_submseteq; [by eapply chain_NoDup|].
  intros i Hi. apply elem_of_seq.
  eapply seg_lookup, lookup_lt_is_Some in Hi; [|done]. lia.
Qed.

Lemma walk_chain f bs p l : walk f bs p = Some l -> chain bs p l.
Proof.
  revert p l. induction f as [|f IH]; intros [i|] l H; simplify_eq/=;
    try constructor.
  destruct (bs !! i) as [b|] eqn:Hb; [|done].
  destruct (walk f bs (out b)) as [l'|] eqn:Hw; simplify_eq/=.
  econstructor; [done|]. by apply IH.
Qed.

Lemma chain_walk f bs p l :
  chain bs p l -> length l <= f -> walk f bs p = Some l.
Proof.
  unfold chain. remember None as q eqn:Hq. intros H. revert f.
  induction H as [|i b l q Hb _ IH]; intros f Hf; subst.
  - by destruct f.
  - destruct f as [|f]; simpl in *; [lia|].
    rewrite Hb, IH; [done..|lia].
Qed.

(** The loop [scan] returns the first node of the list with [P]. *)
Lemma scan_chain P f bs p l :
  chain bs p l -> length l <= f -> scan P f bs p = found_of (pick P bs l).
Proof.
  unfold chain. remember None as q eqn:Hq. intros H. revert f.
  induction H as [|i b l q Hb _ IH]; intros f Hf; subst.
  - by destruct f.
  - destruct f as [|f]; simpl in *; [lia|].
    unfold holds. rewrite Hb. simpl.
    destruct (P b); [done|]. apply IH; [done|lia].
Qed.

(** The fuel [length bs] is enough for every list that ends: [scan] answers
    [Loop] or [Wild] only where the C loop does not end or leaves the
    array. *)
Lemma scan_total P bs p l :
  chain bs p l ->
  scan P (length bs) bs p <> Loop /\ scan P (length bs) bs p <> Wild.
Proof.
  intros Hc. rewrite (scan_chain P _ bs p l Hc) by (by eapply chain_length).
  by destruct (pick P bs l).
Qed.

Lemma pick_ext P bs bs' l :
  (forall i, i ∈ l -> holds P bs' i = holds P bs i) ->
  pick P bs' l = pick P bs l.
Proof.
  induction l as [|i l IH]; intros H; [done|]. simpl.
  rewrite H by left. rewrite IH; [done|].
  intros j Hj. apply H. by right.
Qed.

Lemma pick_Some P bs l j :
  pick P bs l = Some j <->
  exists l1 l2, l = l1 ++ j :: l2 /\ holds P bs j = true /\
                forall i, i ∈ l1 -> holds P bs i = false.
Proof.
  induction l as [|i l IH]; simpl.
  - split; [done|]. intros (l1 & l2 & H & _). by destruct l1.
  - destruct (holds P bs i) eqn:Hi.
    + split.
      * intros [= ->]. exists [], l. split_and!; [done..|].
        intros i Hi'. by apply elem_of_nil in Hi'.
      * intros (l1 & l2 & H & Hj & Hl1). destruct l1 as [|x l1].
        -- by simplify_eq/=.
        -- simplify_eq/=. rewrite Hl1 in Hi by left. done.
    + rewrite IH. split.
      * intros (l1 & l2 & -> & Hj & Hl1). exists (i :: l1), l2.
        split_and!; [done..|].
        intros x [->|Hx]%elem_of_cons; eauto.
      * intros (l1 & l2 & H & Hj & Hl1). destruct l1 as [|x l1].
        -- simplify_eq/=. congruence.
        -- simplify_eq/=. exists l1, l2. split_and!; [done..|].
           intros y Hy. apply Hl1. by right.
Qed.

Lemma pick_None P bs l :
  pick P bs l = None <-> forall i, i ∈ l -> holds P bs i = false.
Proof.
  induction l as [|i l IH]; simpl.
  - split; [|done]. intros _ i Hi. by apply elem_of_nil in Hi.
  - destruct (holds P bs i) eqn:Hi.
    + split; [done|]. intros H. rewrite H in Hi by left. done.
    + rewrite IH. split.
      * intros H x [->|Hx]%elem_of_cons; eauto.
      * intros H x Hx. apply H. by right.
Qed.

Lemma pick_elem P bs l j : pick P bs l = Some j -> j ∈ l /\ holds P bs j = true.
Proof.
  intros (l1 & l2 & -> & Hj & _)%pick_Some. split; [|done].
  apply elem_of_app. right. by left.
Qed.

Lemma filter_ne_absent (z : nat) l : z ∉ l -> filter (fun x => x <> z) l = l.
Proof.
  induction l as [|x l IH]; intros Hz; [done|].
  apply not_elem_of_cons in Hz as [Hne Hz].
  rewrite filter_cons_True by done. by rewrite IH.
Qed.

Lemma filter_ne_split (z : nat) l1 l2 :
  NoDup (l1 ++ z :: l2) ->
  filter (fun x => x <> z) (l1 ++ z :: l2) = l1 ++ l2.
Proof.
  intros (_ & H1 & [H2 _]%NoDup_cons)%NoDup_app.
  rewrite filter_app, filter_cons_False by naive_solver.
  rewrite !filter_ne_absent; [done..|].
  intros Hz. apply (H1 z Hz). by left.
Qed.

End Heap.

(** ** [put] and [remove] on well-formed lists *)

Section Proofs.
Variables (NBUCKET NBUF : nat) (hash : Z -> nat).

Local Abbreviation put := (put hash).
Local Abbreviation remove := (remove hash).
Local Abbreviation steal := (steal hash).
Local Abbreviation bget := (bget NBUCKET hash).
Local Abbreviation bread := (bread NBUCKET hash).
Local Abbreviation binit := (binit NBUCKET NBUF hash).
Local Abbreviation boot := (boot NBUCKET NBUF).
Local Abbreviation inv := (inv NBUCKET NBUF hash).
Local Abbreviation live_found := (live_found hash).
Local Abbreviation exec := (exec NBUCKET hash).
Local Abbreviation run := (run NBUCKET hash).
Local Abbreviation run_legal := (run_legal NBUCKET hash).
Local Abbreviation bget_all := (bget_all NBUCKET hash).
Local Abbreviation probe_ok := (probe_ok NBUCKET hash).
Local Abbreviation reaches := (reaches NBUCKET hash).

Implicit Types (s : state) (l : list nat).

Lemma lookup_alter_out (f : buf -> buf) (bs : list buf) i j :
  (i = j -> forall b, out (f b) = out b) ->
  out <$> alter f j bs !! i = out <$> bs !! i.
Proof.
  intros Hf. destruct (decide (i = j)) as [->|Hne].
  - rewrite list_lookup_alter_eq. destruct (bs !! j); simpl; [|done].
    by rewrite Hf.
  - by rewrite list_lookup_alter_ne.
Qed.

Lemma in_bucket_det s k l l' : in_bucket s k l -> in_bucket s k l' -> l = l'.
Proof.
  intros (h & Hh & Hc) (h' & Hh' & Hc'). simplify_eq. by eapply chain_det.
Qed.

Lemma in_bucket_bucket s k l : in_bucket s k l <-> bucket s k = Some l.
Proof.
  unfold in_bucket, bucket. split.
  - intros (h & -> & Hc). apply chain_walk; [done|].
    by eapply chain_length.
  - destruct (bc_head s !! k) as [h|]; [|done].
    intros Hw%walk_chain. eauto.
Qed.

(** The loop of [remove] once [pre] is the node before [e]. *)
Lemma remove_loop_found z bz k s : forall m f e q bq l2,
  bc_buf s !! z = Some bz ->
  bc_buf s !! q = Some bq -> out bq = e ->
  chain (bc_buf s) e (m ++ z :: l2) ->
  q ∉ m ++ [z] ->
  length (m ++ z :: l2) <= f ->
  remove_loop f z k e (Some q) s
  = Done tt (upd z (set_out None)
               (upd (default q (last m)) (set_out (out bz)) s)).
Proof.
  induction m as [|x m IH]; intros f e q bq l2 Hz Hq Hout Hc Hnot Hf.
  - simpl in *. inversion Hc as [|? b ? ? Hb Hs]; subst.
    destruct f as [|f]; simpl in *; [lia|].
    rewrite Hb. simplify_eq.
    rewrite decide_True by done.
    rewrite decide_False by (intros [= ->]; apply Hnot; by left).
    by rewrite Hq.
  - pose proof (chain_NoDup _ _ _ Hc) as Hnd.
    simpl in *. inversion Hc as [|? bx ? ? Hb Hs]; subst.
    apply NoDup_cons in Hnd as [Hx Hnd].
    destruct f as [|f]; simpl in *; [lia|].
    rewrite Hb.
    rewrite decide_False.
    2:{ intros ->. apply Hx, elem_of_app. right. by left. }
    rewrite decide_False by (intros [= ->]; apply Hnot; by left).
    rewrite Hq, <- H. 
    erewrite (IH f (out bx) x bx l2); [|done..| |lia].
    + f_equal. f_equal. f_equal. rewrite last_cons. by destruct (last m).
    + intros [Hm|Hm%list_elem_of_singleton]%elem_of_app.
      * apply Hx, elem_of_app. by left.
      * subst. apply Hx, elem_of_app. right. by left.
Qed.

Lemma remove_loop_absent z k s : forall l f e q bq,
  bc_buf s !! q = Some bq -> out bq = e ->
  chain (bc_buf s) e l ->
  z ∉ l -> q ∉ l ->
  length l <= f ->
  remove_loop f z k e (Some q) s = Done tt s.
Proof.
  induction l as [|x l IH]; intros f e q bq Hq Hout Hc Hz Hnot Hf.
  - inversion Hc; subst. by destruct f.
  - pose proof (chain_NoDup _ _ _ Hc) as Hnd.
    inversion Hc as [|? bx ? ? Hb Hs]; subst.
    apply NoDup_cons in Hnd as [Hx Hnd].
    apply not_elem_of_cons in Hz as [Hzx Hz].
    apply not_elem_of_cons in Hnot as [Hqx Hnot].
    destruct f as [|f]; simpl in *; [lia|].
    rewrite Hb.
    rewrite decide_False by done.
    rewrite decide_False by congruence.
    rewrite Hq, <- H.
    apply (IH f (out bx) x bx); [done..|lia].
Qed.

(** [remove] on a buffer that is on the list of its bucket. *)
Lemma remove_member s z bz h l1 l2 :
  bc_buf s !! z = Some bz ->
  bc_head s !! hash (blockno bz) = Some h ->
  chain (bc_buf s) h (l1 ++ z :: l2) ->
  remove z s = Done tt (detach (hash (blockno bz)) z (out bz) l1 s).
Proof.
  intros Hz Hh Hc. unfold remove, detach. rewrite Hz, Hh.
  pose proof (chain_length _ _ _ Hc) as Hlen. fold (fuel s) in Hlen.
  pose proof (chain_NoDup _ _ _ Hc) as Hnd.
  destruct l1 as [|x m]; simpl in *.
  - inversion Hc as [|? b ? ? Hb Hs]; subst. simplify_eq.
    destruct (fuel s) as [|f]; simpl in *; [lia|].
    rewrite Hz. by rewrite !decide_True by done.
  - inversion Hc as [|? bx ? ? Hb Hs]; subst.
    apply NoDup_cons in Hnd as [Hx Hnd].
    destruct (fuel s) as [|f]; simpl in *; [lia|].
    rewrite Hb.
    rewrite decide_False.
    2:{ intros ->. apply Hx, elem_of_app. right. by left. }
    rewrite decide_True by done.
    erewrite (remove_loop_found z bz _ s m f (out bx) x bx l2);
      [|done..| |lia].
    + f_equal. f_equal. rewrite last_cons. by destruct (last m).
    + intros [Hm|Hm%list_elem_of_singleton]%elem_of_app.
      * apply Hx, elem_of_app. by left.
      * subst. apply Hx, elem_of_app. right. by left.
Qed.

(** [remove] on a buffer that is not on the list of its bucket returns
    without a change. *)
Lemma remove_absent s z bz l :
  bc_buf s !! z = Some bz ->
  in_bucket s (hash (blockno bz)) l ->
  z ∉ l ->
  remove z s = Done tt s.
Proof.
  intros Hz (h & Hh & Hc) Hnot. unfold remove. rewrite Hz, Hh.
  pose proof (chain_length _ _ _ Hc) as Hlen. fold (fuel s) in Hlen.
  pose proof (chain_NoDup _ _ _ Hc) as Hnd.
  destruct l as [|x l].
  - inversion Hc; subst. by destruct (fuel s).
  - inversion Hc as [|? bx ? ? Hb Hs]; subst.
    apply NoDup_cons in Hnd as [Hx Hnd].
    apply not_elem_of_cons in Hnot as [Hzx Hnot].
    destruct (fuel s) as [|f]; simpl in *; [lia|].
    rewrite Hb.
    rewrite decide_False by done.
    rewrite decide_True by done.
    apply (remove_loop_absent z _ s l f (out bx) x bx); [done..|lia].
Qed.

Lemma same_but_out_refl (bs : list buf) : same_but_out bs bs.
Proof. by intros i. Qed.

Lemma same_but_out_trans (bs1 bs2 bs3 : list buf) :
  same_but_out bs1 bs2 -> same_but_out bs2 bs3 -> same_but_out bs1 bs3.
Proof. intros H1 H2 i. by rewrite H2, H1. Qed.

Lemma same_but_out_alter (bs : list buf) j o :
  same_but_out bs (alter (set_out o) j bs).
Proof.
  intros i. destruct (decide (i = j)) as [->|Hne].
  - rewrite list_lookup_alter_eq. by destruct (bs !! j).
  - by rewrite list_lookup_alter_ne.
Qed.

Lemma same_but_out_lookup (bs bs' : list buf) i b' :
  same_but_out bs bs' -> bs' !! i = Some b' ->
  exists b, bs !! i = Some b /\ set_out None b' = set_out None b.
Proof.
  intros H Hb'. specialize (H i). rewrite Hb' in H.
  destruct (bs !! i) as [b|]; [|done].
  exists b. split; [done|]. simpl in H. congruence.
Qed.

Lemma same_length_lookup {A B : Type} (l : list A) (l' : list B) :
  (forall i, is_Some (l !! i) <-> is_Some (l' !! i)) -> length l = length l'.
Proof.
  intros H. apply Nat.le_antisymm.
  - destruct (decide (length l <= length l')) as [|Hn]; [done|].
    assert (is_Some (l !! length l')) as Hs
      by (apply lookup_lt_is_Some; lia).
    apply H, lookup_lt_is_Some in Hs. lia.
  - destruct (decide (length l' <= length l)) as [|Hn]; [done|].
    assert (is_Some (l' !! length l)) as Hs
      by (apply lookup_lt_is_Some; lia).
    apply H, lookup_lt_is_Some in Hs. lia.
Qed.

Lemma same_but_out_length (bs bs' : list buf) :
  same_but_out bs bs' -> length bs' = length bs.
Proof.
  intros H. apply same_length_lookup. intros i. specialize (H i).
  destruct (bs' !! i), (bs !! i); simpl in H; try discriminate;
    split; intros [? ?]; eauto; done.
Qed.

(** The list of the bucket after [remove] has unlinked [z]. *)
Lemma detach_bucket s k z bz h l1 l2 :
  bc_buf s !! z = Some bz ->
  bc_head s !! k = Some h ->
  chain (bc_buf s) h (l1 ++ z :: l2) ->
  in_bucket (detach k z (out bz) l1 s) k (l1 ++ l2).
Proof.
  intros Hz Hh Hc.
  pose proof (chain_NoDup _ _ _ Hc) as Hnd.
  apply NoDup_app in Hnd as (Hnd1 & Hdisj & [Hz2 Hnd2]%NoDup_cons).
  pose proof Hc as [Hs1 Hs2]%chain_split.
  inversion Hs2 as [|? b ? ? Hb Hs]; simplify_eq.
  unfold detach, in_bucket.
  destruct (last l1) as [q|] eqn:Hlast; simpl.
  - exists h. split; [done|].
    apply last_Some in Hlast as [m ->].
    apply NoDup_app in Hnd1 as (Hndm & Hmq & _).
    apply seg_app in Hs1 as (r & Hm & Hq).
    inversion Hq as [|? bq ? ? Hbq Hq']; subst.
    inversion Hq'; subst.
    assert (q <> z).
    { intros ->. eapply Hdisj; [|by left]. apply elem_of_app. right. by left. }
    rewrite <- app_assoc. apply seg_app. exists (Some q). split.
    + eapply seg_frame; [done|]. intros i Hi.
      rewrite !list_lookup_alter_ne; [done|..].
      * intros ->. eapply Hmq; [done|by left].
      * intros ->. eapply Hdisj; [|by left]. apply elem_of_app. by left.
    + simpl. econstructor.
      * rewrite list_lookup_alter_ne by done.
        rewrite list_lookup_alter_eq, Hbq. done.
      * simpl. eapply seg_frame; [done|]. intros i Hi.
        rewrite !list_lookup_alter_ne; [done|..].
        -- intros ->. eapply Hdisj; [|by right]. apply elem_of_app.
           right. by left.
        -- by intros ->.
  - apply last_None in Hlast as ->. simpl in *.
    exists (out bz). split.
    + apply list_lookup_insert_eq. by eapply lookup_lt_Some.
    + eapply seg_frame; [done|]. intros i Hi.
      rewrite list_lookup_alter_ne; [done|by intros ->].
Qed.

(** The lists that hold neither [z] nor its predecessor stay as they are. *)
Lemma detach_other s k z nxt l1 j l :
  j <> k ->
  in_bucket s j l ->
  z ∉ l -> (forall q, last l1 = Some q -> q ∉ l) ->
  in_bucket (detach k z nxt l1 s) j l.
Proof.
  intros Hjk (h & Hh & Hc) Hz Hq. exists h. unfold detach. split.
  - destruct (last l1); simpl; [done|]. by rewrite list_lookup_insert_ne.
  - eapply seg_frame; [done|]. intros i Hi.
    destruct (last l1) as [q|]; simpl.
    + rewrite !list_lookup_alter_ne; [done|..].
      * intros ->. by eapply Hq.
      * by intros ->.
    + rewrite list_lookup_alter_ne; [done|by intros ->].
Qed.

Lemma detach_same s k z nxt l1 :
  same_but_out (bc_buf s) (bc_buf (detach k z nxt l1 s)) /\
  length (bc_head (detach k z nxt l1 s)) = length (bc_head s) /\
  disk (detach k z nxt l1 s) = disk s /\
  io_log (detach k z nxt l1 s) = io_log s.
Proof.
  unfold detach. destruct (last l1); simpl; split_and!; try done.
  - eapply same_but_out_trans; apply same_but_out_alter.
  - apply same_but_out_alter.
  - by rewrite length_insert.
Qed.

Lemma detach_out s k z bz nxt l1 :
  bc_buf s !! z = Some bz ->
  (forall q, last l1 = Some q -> q <> z) ->
  bc_buf (detach k z nxt l1 s) !! z = Some (set_out None bz).
Proof.
  intros Hz Hq. unfold detach. destruct (last l1) as [q|]; simpl.
  - rewrite list_lookup_alter_eq, list_lookup_alter_ne by (by apply Hq).
    by rewrite Hz.
  - by rewrite list_lookup_alter_eq, Hz.
Qed.

(** [put] pushes at the head of its bucket and leaves the other lists. *)
Lemma put_bucket s key val bv l :
  in_bucket s (hash key) l ->
  bc_buf s !! val = Some bv ->
  val ∉ l ->
  exists h, bc_head s !! hash key = Some h /\
    put key val s
    = Done tt (set_head (hash key) (Some val) (upd val (set_out h) s)) /\
    in_bucket (set_head (hash key) (Some val) (upd val (set_out h) s))
      (hash key) (val :: l).
Proof.
  intros (h & Hh & Hc) Hv Hnot. exists h. split; [done|].
  unfold put. rewrite Hh, Hv. split; [done|].
  exists (Some val). simpl. split.
  - apply list_lookup_insert_eq. by eapply lookup_lt_Some.
  - econstructor.
    + by rewrite list_lookup_alter_eq, Hv.
    + simpl. eapply seg_frame; [done|]. intros i Hi.
      rewrite list_lookup_alter_ne; [done|by intros ->].
Qed.

Lemma put_other s k val h j l :
  j <> k -> in_bucket s j l -> val ∉ l ->
  in_bucket (set_head k (Some val) (upd val (set_out h) s)) j l.
Proof.
  intros Hjk (h' & Hh & Hc) Hnot. exists h'. simpl. split.
  - by rewrite list_lookup_insert_ne.
  - eapply seg_frame; [done|]. intros i Hi.
    rewrite list_lookup_alter_ne; [done|by intros ->].
Qed.

(** ** The invariant *)

Hypothesis hash_lt : forall x, hash x < NBUCKET.

Lemma in_bucket_frame s s' k l :
  bc_head s' = bc_head s ->
  (forall j, out <$> bc_buf s' !! j = out <$> bc_buf s !! j) ->
  in_bucket s k l -> in_bucket s' k l.
Proof.
  intros Hh Hout (h & Hk & Hc). exists h. rewrite Hh. split; [done|].
  eapply seg_frame; [done|]. intros i _. apply Hout.
Qed.

(** The invariant only looks at the list heads, the [out] fields and the
    buckets of the block numbers. *)
Lemma inv_frame s s' :
  inv s ->
  bc_head s' = bc_head s ->
  (forall j, out <$> bc_buf s' !! j = out <$> bc_buf s !! j) ->
  (forall j, hash ∘ blockno <$> bc_buf s' !! j
             = hash ∘ blockno <$> bc_buf s !! j) ->
  inv s'.
Proof.
  intros [Hn Hm Hc Hmem Hhash] Hh Hout Hblk.
  assert (Hback : forall k l, in_bucket s' k l -> in_bucket s k l).
  { intros k l. apply in_bucket_frame; [done|]. intros j. by rewrite Hout. }
  split.
  - rewrite <- Hn. apply same_length_lookup. intros j. specialize (Hout j).
    destruct (bc_buf s' !! j), (bc_buf s !! j); simpl in Hout;
      try discriminate; split; intros [? ?]; eauto; done.
  - by rewrite Hh.
  - intros k Hk. destruct (Hc k Hk) as [l Hl]. exists l.
    by eapply in_bucket_frame.
  - intros i b' Hb'. specialize (Hblk i). rewrite Hb' in Hblk.
    destruct (bc_buf s !! i) as [b|] eqn:Hb; simplify_eq/=.
    destruct (Hmem i b Hb) as (l & Hl & Hi). exists l. split; [|done].
    rewrite Hblk. by eapply in_bucket_frame.
  - intros k l i b' Hl Hi Hb'. specialize (Hblk i). rewrite Hb' in Hblk.
    destruct (bc_buf s !! i) as [b|] eqn:Hb; simplify_eq/=.
    rewrite Hblk. eapply Hhash; eauto.
Qed.

Lemma inv_upd s i f :
  inv s ->
  (forall b, bc_buf s !! i = Some b ->
     out (f b) = out b /\ hash (blockno (f b)) = hash (blockno b)) ->
  inv (upd i f s).
Proof.
  intros Hinv Hf. eapply inv_frame; [done|done|..]; intros j; simpl.
  - destruct (decide (j = i)) as [->|Hne].
    + rewrite list_lookup_alter_eq.
      destruct (bc_buf s !! i) as [b|] eqn:Hb; simpl; [|done].
      by destruct (Hf b) as [-> _].
    + by rewrite list_lookup_alter_ne.
  - destruct (decide (j = i)) as [->|Hne].
    + rewrite list_lookup_alter_eq.
      destruct (bc_buf s !! i) as [b|] eqn:Hb; simpl; [|done].
      by destruct (Hf b) as [_ ->].
    + by rewrite list_lookup_alter_ne.
Qed.

Lemma inv_bucket_of s i b :
  inv s -> bc_buf s !! i = Some b ->
  exists l1 l2, in_bucket s (hash (blockno b)) (l1 ++ i :: l2).
Proof.
  intros Hinv Hb. destruct (inv_member _ _ _ _ Hinv i b Hb) as (l & Hl & Hi).
  apply list_elem_of_split in Hi as (l1 & l2 & ->). eauto.
Qed.

Lemma in_bucket_lookup s k l i :
  in_bucket s k l -> i ∈ l -> is_Some (bc_buf s !! i).
Proof. intros (h & _ & Hc) Hi. by eapply seg_lookup. Qed.

Lemma in_bucket_NoDup s k l : in_bucket s k l -> NoDup l.
Proof. intros (h & _ & Hc). by eapply chain_NoDup. Qed.

Lemma in_bucket_length s k l : in_bucket s k l -> length l <= fuel s.
Proof. intros (h & _ & Hc). by eapply chain_length. Qed.

(** A buffer is on the list of one bucket only. *)
Lemma inv_one_bucket s k k' l l' i :
  inv s -> in_bucket s k l -> in_bucket s k' l' -> i ∈ l -> i ∈ l' -> k = k'.
Proof.
  intros Hinv Hl Hl' Hi Hi'.
  destruct (in_bucket_lookup _ _ _ _ Hl Hi) as [b Hb].
  rewrite <- (inv_hash _ _ _ _ Hinv k l i b); [|done..].
  by eapply inv_hash.
Qed.

Local Abbreviation stolen := (stolen hash).

Lemma same_but_out_alter_both (f : buf -> buf) (bs bs1 : list buf) z :
  (forall o b, set_out o (f b) = f (set_out o b)) ->
  same_but_out bs bs1 -> same_but_out (alter f z bs) (alter f z bs1).
Proof.
  intros Hf H i. specialize (H i).
  destruct (decide (i = z)) as [->|Hne].
  - rewrite !list_lookup_alter_eq.
    destruct (bs1 !! z) as [b1|], (bs !! z) as [b|]; simpl in *;
      try discriminate; [|done].
    assert (set_out None b1 = set_out None b) as Heq by congruence.
    by rewrite !Hf, Heq.
  - by rewrite !list_lookup_alter_ne.
Qed.

Lemma rebind_set_out d n o b : set_out o (rebind d n b) = rebind d n (set_out o b).
Proof. done. Qed.

(** Equal but for [out] means: the same buffer with another [out]. *)
Lemma same_but_out_fields (bs bs' : list buf) i b' :
  same_but_out bs bs' -> bs' !! i = Some b' ->
  exists b, bs !! i = Some b /\ b' = set_out (out b') b.
Proof.
  intros H Hb'. destruct (same_but_out_lookup _ _ _ _ H Hb') as (b & Hb & Heq).
  exists b. split; [done|]. destruct b', b. simpl in *. by simplify_eq.
Qed.

(** The move of a buffer [z] to the bucket of block [n]: the lists lose
    [z] where it was and the list of the bucket of [n] gets it at the head;
    apart from the [out] fields only the binding of [z] changes. *)
Lemma stolen_spec s d n z bz :
  inv s -> bc_buf s !! z = Some bz ->
  exists s2, stolen d n z s = Done tt s2 /\
    (forall j l, in_bucket s j l ->
       in_bucket s2 j (if decide (j = hash n)
                       then z :: filter (fun x => x <> z) l
                       else filter (fun x => x <> z) l)) /\
    same_but_out (alter (rebind d n) z (bc_buf s)) (bc_buf s2) /\
    length (bc_head s2) = length (bc_head s) /\
    disk s2 = disk s /\ io_log s2 = io_log s.
Proof.
  intros Hinv Hz.
  destruct (inv_bucket_of _ _ _ Hinv Hz) as (l1 & l2 & Hb).
  pose proof Hb as (h & Hh & Hc).
  pose proof (in_bucket_NoDup _ _ _ Hb) as Hnd.
  set (k2 := hash (blockno bz)) in *.
  set (s1 := detach k2 z (out bz) l1 s).
  assert (Hlast : forall q, last l1 = Some q -> q ∈ l1 /\ q <> z).
  { intros q [m ->]%last_Some. split.
    - apply elem_of_app. right. by left.
    - intros ->. apply NoDup_app in Hnd as (_ & Hd & _).
      eapply (Hd z); [|by left]. apply elem_of_app. right. by left. }
  assert (Hs1 : forall j l, in_bucket s j l ->
                 in_bucket s1 j (filter (fun x => x <> z) l)).
  { intros j l Hl. destruct (decide (j = k2)) as [->|Hne].
    - rewrite (in_bucket_det _ _ _ _ Hl Hb), filter_ne_split by done.
      by eapply detach_bucket.
    - assert (z ∉ l) as Hzl.
      { intros Hzl. apply Hne.
        eapply (inv_one_bucket s j k2 l _ z); [done..| |done|].
        - exact Hb.
        - apply elem_of_app. right. by left. }
      rewrite filter_ne_absent by done.
      apply detach_other; [done..|].
      intros q [Hq _]%Hlast Hql. apply Hne.
      eapply (inv_one_bucket s j k2 l _ q); [done..| |done|].
      + exact Hb.
      + apply elem_of_app. by left. }
  destruct (detach_same s k2 z (out bz) l1) as (Hsame & Hlen & Hdisk & Hio).
  fold s1 in Hsame, Hlen, Hdisk, Hio.
  assert (Hz1 : bc_buf s1 !! z = Some (set_out None bz)).
  { apply detach_out; [done|]. intros q Hq. by apply Hlast. }
  destruct (inv_chain _ _ _ _ Hinv (hash n) (hash_lt n)) as [ln Hln].
  set (s1' := upd z (rebind d n) s1).
  assert (Hs1' : forall j l, in_bucket s1 j l -> in_bucket s1' j l).
  { intros j l. apply in_bucket_frame; [done|]. intros i. simpl.
    apply lookup_alter_out. by intros _ []. }
  destruct (put_bucket s1' n z (rebind d n (set_out None bz))
              (filter (fun x => x <> z) ln)) as (h' & Hh' & Hput & Hbk).
  { by apply Hs1', Hs1. }
  { change (alter (rebind d n) z (bc_buf s1) !! z
            = Some (rebind d n (set_out None bz))).
    by rewrite list_lookup_alter_eq, Hz1. }
  { by intros [? _]%list_elem_of_filter. }
  eexists. split.
  { unfold stolen.
    erewrite remove_member; [|done..]. simpl. exact Hput. }
  split_and!.
  - intros j l Hl. case_decide as Hj.
    + subst j. by rewrite (in_bucket_det _ _ _ _ Hl Hln).
    + apply put_other; [done| |].
      * by apply Hs1', Hs1.
      * by intros [? _]%list_elem_of_filter.
  - simpl. eapply same_but_out_trans; [|apply same_but_out_alter].
    apply same_but_out_alter_both; [apply rebind_set_out|done].
  - simpl. by rewrite length_insert.
  - done.
  - done.
Qed.

Lemma inv_stolen s d n z bz s2 :
  inv s -> bc_buf s !! z = Some bz ->
  stolen d n z s = Done tt s2 -> inv s2.
Proof.
  intros Hinv Hz Hst.
  destruct (stolen_spec s d n z bz Hinv Hz)
    as (s2' & Hst' & Hlists & Hsame & Hlen & _).
  rewrite Hst in Hst'. injection Hst' as <-.
  assert (Hfld : forall i b', bc_buf s2 !! i = Some b' ->
            if decide (i = z) then blockno b' = n
            else exists b, bc_buf s !! i = Some b /\ blockno b' = blockno b).
  { intros i b' Hb'.
    destruct (same_but_out_fields _ _ _ _ Hsame Hb') as (b & Hb & ->).
    case_decide as Hi.
    - subst i. rewrite list_lookup_alter_eq, Hz in Hb. by simplify_eq/=.
    - rewrite list_lookup_alter_ne in Hb by done. eauto. }
  split.
  - rewrite (same_but_out_length _ _ Hsame), length_alter.
    by destruct Hinv.
  - rewrite Hlen. by destruct Hinv.
  - intros k Hk. destruct (inv_chain _ _ _ _ Hinv k Hk) as [l Hl].
    eexists. by apply Hlists.
  - intros i b' Hb'. specialize (Hfld i b' Hb'). case_decide as Hi.
    + subst i. rewrite Hfld.
      destruct (inv_chain _ _ _ _ Hinv (hash n) (hash_lt n)) as [l Hl].
      eexists. split; [by apply Hlists|].
      rewrite decide_True by done. by left.
    + destruct Hfld as (b & Hb & ->).
      destruct (inv_member _ _ _ _ Hinv i b Hb) as (l & Hl & Hil).
      eexists. split; [by apply Hlists|].
      assert (i ∈ filter (fun x => x <> z) l)
        by (by apply list_elem_of_filter).
      case_decide; [by right|done].
  - intros k l' i b' Hl' Hi Hb'.
    assert (k < NBUCKET) as Hk.
    { destruct Hl' as (h & Hh & _). apply lookup_lt_Some in Hh.
      rewrite Hlen in Hh. by rewrite <- (inv_nbucket _ _ _ _ Hinv). }
    destruct (inv_chain _ _ _ _ Hinv k Hk) as [l Hl].
    pose proof (in_bucket_det _ _ _ _ Hl' (Hlists k l Hl)) as ->.
    specialize (Hfld i b' Hb').
    assert (i ∈ filter (fun x => x <> z) l -> hash (blockno b') = k) as Hin.
    { intros [Hne Hil]%list_elem_of_filter.
      rewrite decide_False in Hfld by done.
      destruct Hfld as (b & Hb & ->). by eapply inv_hash. }
    case_decide as Hkn.
    + apply elem_of_cons in Hi as [->|Hi]; [|by apply Hin].
      rewrite decide_True in Hfld by done. by rewrite Hfld.
    + by apply Hin.
Qed.

(** [acquiresleep] only takes the lock. *)
Lemma acquiresleep_cases pid i s b :
  bc_buf s !! i = Some b ->
  (lock b = None /\
   acquiresleep pid i s = Done tt (upd i (set_lock (Some pid)) s)) \/
  (lock b <> None /\ acquiresleep pid i s = Sleep i s).
Proof.
  intros Hb. unfold acquiresleep. rewrite Hb.
  destruct (lock b); [right|left]; done.
Qed.

Lemma lock_return_cases pid i s b :
  bc_buf s !! i = Some b ->
  (lock b = None /\
   lock_return pid i s = Done i (upd i (set_lock (Some pid)) s)) \/
  (lock b <> None /\ lock_return pid i s = Sleep i s).
Proof.
  intros Hb. unfold lock_return.
  destruct (acquiresleep_cases pid i s b Hb) as [[? ->]|[? ->]]; eauto.
Qed.

Lemma post_lock_return (Q : state -> Prop) pid i s :
  is_Some (bc_buf s !! i) ->
  Q s -> Q (upd i (set_lock (Some pid)) s) ->
  post Q (lock_return pid i s).
Proof.
  intros [b Hb] H1 H2.
  by destruct (lock_return_cases pid i s b Hb) as [[_ ->]|[_ ->]].
Qed.

(** ** [bget] on a well-formed cache *)

(** [bget] in terms of the members of the bucket. *)
Lemma bget_unfold s pid d n l :
  in_bucket s (hash n) l ->
  bget pid d n s =
  match pick (cached d n) (bc_buf s) l with
  | Some b => lock_return pid b (upd b incr s)
  | None =>
    match pick unused (bc_buf s) l with
    | Some b => lock_return pid b (upd b (rebind d n) s)
    | None => steal (NBUCKET - 1) 1%Z pid d n s
    end
  end.
Proof.
  intros Hl. pose proof (in_bucket_length _ _ _ Hl) as Hlen.
  destruct Hl as (h & Hh & Hc).
  unfold bget. rewrite Hh.
  rewrite !(scan_chain _ _ _ _ l) by done.
  destruct (pick (cached d n) (bc_buf s) l); [done|].
  by destruct (pick unused (bc_buf s) l).
Qed.

(** One iteration of the third loop. *)
Lemma steal_unfold s pid d blk n i l :
  in_bucket s (hash (wrap (blk + i))) l ->
  steal (S n) i pid d blk s =
  if decide (hash blk = hash (wrap (blk + i))) then Panic msg_no_buffer
  else
    match pick unused (bc_buf s) l with
    | Some b => call _ s2 <- stolen d blk b s; lock_return pid b s2
    | None => steal n (i + 1)%Z pid d blk s
    end.
Proof.
  intros Hl. pose proof (in_bucket_length _ _ _ Hl) as Hlen.
  destruct Hl as (h & Hh & Hc). simpl.
  case_decide; [done|]. rewrite Hh.
  rewrite (scan_chain _ _ _ _ l) by done.
  destruct (pick unused (bc_buf s) l) as [b|]; [|done]. simpl.
  unfold stolen, lock_return.
  by destruct (remove b s) as [[] s1| | | |].
Qed.

Lemma pick_lookup P (bs : list buf) l j :
  pick P bs l = Some j -> exists b, bs !! j = Some b /\ P b = true.
Proof.
  intros [_ Hj]%pick_elem. unfold holds in Hj.
  destruct (bs !! j) as [b|]; [|done]. eauto.
Qed.

(** The third loop either panics or moves a free buffer of another
    bucket. *)
Lemma steal_spec s pid d blk : inv s -> forall n i,
  (exists m, steal n i pid d blk s = Panic m /\
             (m = msg_no_buffer \/ m = msg_no_buffers)) \/
  (exists j l b bz s2,
     (i <= j < i + Z.of_nat n)%Z /\
     hash (wrap (blk + j)) <> hash blk /\
     in_bucket s (hash (wrap (blk + j))) l /\
     pick unused (bc_buf s) l = Some b /\
     bc_buf s !! b = Some bz /\ refcnt bz = 0%Z /\
     stolen d blk b s = Done tt s2 /\
     steal n i pid d blk s = lock_return pid b s2).
Proof.
  intros Hinv. induction n as [|n IH]; intros i.
  - left. exists msg_no_buffers. split; [done|by right].
  - destruct (inv_chain _ _ _ _ Hinv _ (hash_lt (wrap (blk + i)))) as [l Hl].
    rewrite (steal_unfold _ _ _ _ _ _ l) by done.
    case_decide as Hcol.
    { left. exists msg_no_buffer. split; [done|by left]. }
    destruct (pick unused (bc_buf s) l) as [b|] eqn:Hpick.
    + right. destruct (pick_lookup _ _ _ _ Hpick) as (bz & Hbz & Hfree).
      destruct (stolen_spec s d blk b bz Hinv Hbz) as (s2 & Hst & _).
      exists i, l, b, bz, s2. rewrite Hst. simpl.
      split_and!; try done; try lia.
      unfold unused in Hfree. lia.
    + destruct (IH (i + 1)%Z) as [Hp|(j & l' & b & bz & s2 & Hj & H)].
      * by left.
      * right. exists j, l', b, bz, s2. split; [lia|done].
Qed.

(** The three ways in which [bget] ends. *)
Lemma bget_spec s pid d n l :
  inv s -> in_bucket s (hash n) l ->
  (exists b, pick (cached d n) (bc_buf s) l = Some b /\
     bget pid d n s = lock_return pid b (upd b incr s)) \/
  (exists b bz, pick (cached d n) (bc_buf s) l = None /\
     pick unused (bc_buf s) l = Some b /\
     bc_buf s !! b = Some bz /\ refcnt bz = 0%Z /\
     bget pid d n s = lock_return pid b (upd b (rebind d n) s)) \/
  (pick (cached d n) (bc_buf s) l = None /\
   pick unused (bc_buf s) l = None /\
   ((exists m, bget pid d n s = Panic m /\
               (m = msg_no_buffer \/ m = msg_no_buffers)) \/
    (exists b bz s2, (b ∉ l) /\
       bc_buf s !! b = Some bz /\ refcnt bz = 0%Z /\
       stolen d n b s = Done tt s2 /\
       bget pid d n s = lock_return pid b s2))).
Proof.
  intros Hinv Hl. rewrite (bget_unfold _ _ _ _ l) by done.
  destruct (pick (cached d n) (bc_buf s) l) as [b|] eqn:Hhit.
  { left. eauto. }
  right. destruct (pick unused (bc_buf s) l) as [b|] eqn:Hfree.
  { left. destruct (pick_lookup _ _ _ _ Hfree) as (bz & Hbz & Hz).
    exists b, bz. split_and!; try done. unfold unused in Hz. lia. }
  right. split_and!; try done.
  destruct (steal_spec s pid d n Hinv (NBUCKET - 1) 1%Z)
    as [Hp|(j & l' & b & bz & s2 & Hj & Hne & Hl' & Hpick & Hbz & Hz & Hst & Heq)].
  { by left. }
  right. exists b, bz, s2. split_and!; try done.
  intros Hbl. apply Hne.
  apply pick_elem in Hpick as [Hbl' _].
  by eapply (inv_one_bucket s _ _ l' l b).
Qed.

(** [bget] keeps the invariant. *)
Lemma bget_inv s pid d n : inv s -> post inv (bget pid d n s).
Proof.
  intros Hinv.
  destruct (inv_chain _ _ _ _ Hinv _ (hash_lt n)) as [l Hl].
  destruct (bget_spec s pid d n l Hinv Hl)
    as [(b & Hpick & ->)|[(b & bz & _ & Hpick & Hbz & _ & ->)
       |(_ & _ & [(m & -> & _)|(b & bz & s2 & _ & Hbz & _ & Hst & ->)])]].
  - destruct (pick_lookup _ _ _ _ Hpick) as (bb & Hbb & _).
    assert (inv (upd b incr s)) by (by apply inv_upd).
    apply post_lock_return; [|done|by apply inv_upd].
    simpl. rewrite list_lookup_alter_eq, Hbb. eauto.
  - apply pick_elem in Hpick as [Hbl _].
    assert (inv (upd b (rebind d n) s)).
    { apply inv_upd; [done|]. intros b0 Hb0. simplify_eq/=.
      split; [done|]. symmetry. by eapply inv_hash. }
    apply post_lock_return; [|done|by apply inv_upd].
    simpl. rewrite list_lookup_alter_eq, Hbz. eauto.
  - done.
  - pose proof (inv_stolen _ _ _ _ _ _ Hinv Hbz Hst) as Hinv2.
    destruct (stolen_spec s d n b bz Hinv Hbz) as (s2' & Hst' & _ & Hsame & _).
    rewrite Hst in Hst'. injection Hst' as <-.
    apply post_lock_return; [|done|by apply inv_upd].
    apply lookup_lt_is_Some.
    rewrite (same_but_out_length _ _ Hsame), length_alter.
    by eapply lookup_lt_Some.
Qed.

(** ** The public operations keep the invariant *)

Lemma post_bind {A B : Type} (P Q : state -> Prop) (m : outcome A)
    (f : A -> state -> outcome B) :
  post P m ->
  (forall s1, P s1 -> Q s1) ->
  (forall a s1, P s1 -> post Q (f a s1)) ->
  post Q (bind m f).
Proof. destruct m; simpl; eauto. Qed.

Lemma post_settle {A : Type} (Q : state -> Prop) (o : outcome A) s' :
  post Q o -> settle o = Some s' -> Q s'.
Proof. destruct o; simpl; intros; by simplify_eq. Qed.

Lemma virtio_disk_rw_inv s i w : inv s -> post inv (virtio_disk_rw i w s).
Proof.
  intros Hinv. unfold virtio_disk_rw.
  destruct (bc_buf s !! i) as [bb|] eqn:Hb; [|done].
  destruct w; simpl.
  - by eapply inv_frame.
  - eapply inv_frame; [done|done|..]; intros j; simpl.
    + apply lookup_alter_out. by intros _ [].
    + destruct (decide (j = i)) as [->|Hne].
      * rewrite list_lookup_alter_eq. by destruct (bc_buf s !! i).
      * by rewrite list_lookup_alter_ne.
Qed.

Lemma bread_fill_inv s i : inv s -> post inv (bread_fill i s).
Proof.
  intros Hinv. unfold bread_fill.
  destruct (bc_buf s !! i) as [bb|] eqn:Hb; [|done].
  destruct (valid bb =? 0)%Z; [|done].
  eapply post_bind; [by apply virtio_disk_rw_inv|done|].
  intros _ s1 Hs1. simpl. by apply inv_upd.
Qed.

Lemma bread_inv s pid d n : inv s -> post inv (bread pid d n s).
Proof.
  intros Hinv. eapply post_bind; [by apply bget_inv|done|].
  intros b s1 Hs1. by apply bread_fill_inv.
Qed.

Lemma exec_inv c s s' : inv s -> exec c s = Some s' -> inv s'.
Proof.
  intros Hinv. destruct c as [pid d n|pid b|pid b|pid b|b|b]; simpl;
    apply post_settle.
  - by apply bread_inv.
  - eapply post_bind; [|done|intros _ s1 Hs1; by apply bread_fill_inv].
    unfold acquiresleep. destruct (bc_buf s !! b) as [bb|]; [|done].
    destruct (lock bb); [done|]. by apply inv_upd.
  - unfold bwrite. destruct (bc_buf s !! b) as [bb|]; [|done].
    destruct (holdingsleep pid bb); [|done]. by apply virtio_disk_rw_inv.
  - unfold brelse. destruct (bc_buf s !! b) as [bb|]; [|done].
    destruct (holdingsleep pid bb); [|done]. simpl.
    apply inv_upd; [|done]. by apply inv_upd.
  - unfold bpin. destruct (bc_buf s !! b) as [bb|]; [|done].
    by apply inv_upd.
  - unfold bunpin. destruct (bc_buf s !! b) as [bb|]; [|done].
    by apply inv_upd.
Qed.

Lemma run_inv cs : forall s s', inv s -> run cs s = Some s' -> inv s'.
Proof.
  induction cs as [|c cs IH]; intros s s' Hinv Hrun; simpl in Hrun.
  - by simplify_eq.
  - destruct (exec c s) as [s1|] eqn:Hc; [|done].
    eapply IH; [|done]. by eapply exec_inv.
Qed.

(** ** [binit] *)

Lemma binit_heads s n :
  (forall k, k < n -> bc_head s !! k = Some None) ->
  fold_left (fun s' i => set_head i None s') (seq 0 n) s = s.
Proof.
  induction n as [|n IH]; intros Hk; [done|].
  rewrite seq_S, fold_left_app. simpl. rewrite IH by (intros; apply Hk; lia).
  destruct s as [bs hs dk io]. unfold set_head. simpl in *. f_equal.
  apply list_insert_id, Hk. lia.
Qed.

Lemma in_bucket_frame_on s s' k l :
  bc_head s' !! k = bc_head s !! k ->
  (forall j, j ∈ l -> out <$> bc_buf s' !! j = out <$> bc_buf s !! j) ->
  in_bucket s k l -> in_bucket s' k l.
Proof.
  intros Hh Hout (h & Hk & Hc). exists h. rewrite Hh. split; [done|].
  by eapply seg_frame.
Qed.

Lemma binit_bufs_spec bs : forall s done,
  in_bucket s (hash 0) done ->
  (forall i b, bc_buf s !! i = Some b -> set_out None b = zero_buf) ->
  NoDup bs ->
  (forall b, b ∈ bs -> (b ∉ done) /\ b < length (bc_buf s)) ->
  exists s', binit_bufs hash bs s = Done tt s' /\
    in_bucket s' (hash 0) (reverse bs ++ done) /\
    (forall i b, bc_buf s' !! i = Some b -> set_out None b = zero_buf) /\
    length (bc_buf s') = length (bc_buf s) /\
    length (bc_head s') = length (bc_head s) /\
    (forall k, k <> hash 0 -> bc_head s' !! k = bc_head s !! k) /\
    disk s' = disk s /\ io_log s' = io_log s.
Proof.
  induction bs as [|b bs IH]; intros s done Hd Hz Hnd Hbs.
  - exists s. by split_and!.
  - apply NoDup_cons in Hnd as [Hb Hnd].
    destruct (Hbs b) as [Hbd Hlt]; [by left|].
    apply lookup_lt_is_Some in Hlt as [bb Hbb].
    set (s1 := upd b (set_out None) (upd b (set_lock None) s)).
    assert (Hb1 : bc_buf s1 !! b = Some (set_out None (set_lock None bb))).
    { unfold s1. simpl. by rewrite !list_lookup_alter_eq, Hbb. }
    assert (Hd1 : in_bucket s1 (hash 0) done).
    { revert Hd. apply in_bucket_frame_on; [done|]. intros j Hj.
      unfold s1. simpl. rewrite !list_lookup_alter_ne; [done|..];
        by intros ->. }
    destruct (put_bucket s1 0 b _ done Hd1 Hb1 Hbd) as (h & Hh & Hput & Hbk).
    set (s2 := set_head (hash 0) (Some b) (upd b (set_out h) s1)) in *.
    destruct (IH s2 (b :: done)) as (s' & Hrun & Hl & Hz' & Hn & Hm & Hk & Hdk & Hio).
    + done.
    + intros i b' Hb'. unfold s2, s1 in Hb'. simpl in Hb'.
      destruct (decide (i = b)) as [->|Hne].
      * rewrite !list_lookup_alter_eq, Hbb in Hb'. simplify_eq/=.
        specialize (Hz b bb Hbb). destruct bb. unfold zero_buf in *.
        cbv in Hz |- *. congruence.
      * rewrite !list_lookup_alter_ne in Hb' by done. by eapply Hz.
    + done.
    + intros x Hx. destruct (Hbs x) as [Hxd Hxl]; [by right|]. split.
      * apply not_elem_of_cons. split; [|done]. by intros ->.
      * unfold s2, s1. simpl. by rewrite !length_alter.
    + exists s'. split_and!; try done.
      * change (bind (put 0 b s1) (fun _ s1' => binit_bufs hash bs s1')
                = Done tt s'). by rewrite Hput.
      * by rewrite reverse_cons, <- app_assoc.
      * rewrite Hn. unfold s2, s1. simpl. by rewrite !length_alter.
      * rewrite Hm. unfold s2. simpl. by rewrite length_insert.
      * intros k Hne. rewrite Hk by done. unfold s2. simpl.
        by rewrite list_lookup_insert_ne.
Qed.

(** [binit] on the zeroed [bcache]: all buffers are on the list of bucket
    [hash(0)], the last one first, all other lists are empty and all fields
    but [out] are still zero. *)
Lemma binit_spec dsk :
  exists s0, binit (boot dsk) = Done tt s0 /\
    in_bucket s0 (hash 0) (reverse (seq 0 NBUF)) /\
    (forall k, k < NBUCKET -> k <> hash 0 -> in_bucket s0 k []) /\
    (forall i b, bc_buf s0 !! i = Some b -> set_out None b = zero_buf) /\
    length (bc_buf s0) = NBUF /\ length (bc_head s0) = NBUCKET /\
    disk s0 = dsk /\ io_log s0 = [].
Proof.
  unfold binit. rewrite binit_heads.
  2:{ intros k Hk. simpl. by apply lookup_replicate_2. }
  destruct (binit_bufs_spec (seq 0 NBUF) (boot dsk) [])
    as (s0 & Hrun & Hl & Hz & Hn & Hm & Hk & Hdk & Hio).
  - exists None. split; [|constructor].
    simpl. apply lookup_replicate_2, hash_lt.
  - intros i b [-> _]%lookup_replicate. done.
  - apply NoDup_seq.
  - intros b Hb%elem_of_seq. split; [apply not_elem_of_nil|].
    simpl. rewrite length_replicate. lia.
  - exists s0. rewrite app_nil_r in Hl. unfold boot in *. simpl in *.
    rewrite length_replicate in Hn. rewrite length_replicate in Hm.
    split_and!; try done.
    intros k Hlt Hne. exists None. split; [|constructor].
    rewrite Hk by done. by apply lookup_replicate_2.
Qed.

Lemma binit_inv dsk s0 : binit (boot dsk) = Done tt s0 -> inv s0.
Proof.
  intros Hrun.
  destruct (binit_spec dsk) as (s0' & Hrun' & Hl & Hk & Hz & Hn & Hm & _).
  rewrite Hrun in Hrun'. injection Hrun' as <-.
  assert (Hblk : forall i b, bc_buf s0 !! i = Some b -> blockno b = 0%Z).
  { intros i b Hb%Hz. destruct b. cbv in Hb. simpl. congruence. }
  split; try done.
  - intros k Hlt. destruct (decide (k = hash 0)) as [->|Hne]; eauto.
  - intros i b Hb. rewrite (Hblk i b Hb). eexists. split; [done|].
    rewrite elem_of_reverse, elem_of_seq.
    apply lookup_lt_Some in Hb. lia.
  - intros k l i b Hl' Hi Hb. rewrite (Hblk i b Hb).
    destruct (decide (k = hash 0)) as [->|Hne]; [done|].
    assert (k < NBUCKET) as Hlt.
    { destruct Hl' as (h & Hh%lookup_lt_Some & _). lia. }
    rewrite (in_bucket_det _ _ _ _ Hl' (Hk k Hlt Hne)) in Hi.
    by apply elem_of_nil in Hi.
Qed.

Local Abbreviation reachable := (reachable NBUCKET NBUF hash).
Local Abbreviation reachable_legal := (reachable_legal NBUCKET NBUF hash).

Lemma reachable_inv s : reachable s -> inv s.
Proof.
  intros (dsk & s0 & cs & Hinit & Hrun).
  eapply run_inv; [|done]. by eapply binit_inv.
Qed.

(** ** A buffer in use is found by the lookup *)

Lemma holds_cached_shape d n (bs bs' : list buf) i :
  shape <$> bs' !! i = shape <$> bs !! i ->
  holds (cached d n) bs' i = holds (cached d n) bs i.
Proof.
  unfold holds, cached, shape. intros H.
  destruct (bs' !! i) as [b'|], (bs !! i) as [b|]; simplify_eq/=; try done.
  congruence.
Qed.

(** Changing a buffer that does not satisfy [P] afterwards keeps the
    answer of a lookup that found another buffer. *)
Lemma pick_retag P (bs bs' : list buf) l j z :
  pick P bs l = Some j -> j <> z ->
  holds P bs' z = false ->
  (forall i, i <> z -> holds P bs' i = holds P bs i) ->
  pick P bs' l = Some j.
Proof.
  intros (l1 & l2 & -> & Hj & Hl1)%pick_Some Hne Hz Hsame.
  apply pick_Some. exists l1, l2. split_and!; [done|by rewrite Hsame|].
  intros i Hi. destruct (decide (i = z)) as [->|Hiz]; [done|].
  rewrite Hsame by done. by apply Hl1.
Qed.

(** Taking a buffer off the list keeps the answer of a lookup that found
    another buffer. *)
Lemma pick_filter P (bs : list buf) l j z :
  pick P bs l = Some j -> j <> z ->
  pick P bs (filter (fun x => x <> z) l) = Some j.
Proof.
  intros (l1 & l2 & -> & Hj & Hl1)%pick_Some Hne.
  apply pick_Some.
  exists (filter (fun x => x <> z) l1), (filter (fun x => x <> z) l2).
  rewrite filter_app, filter_cons_True by done. split_and!; [done..|].
  intros i [_ Hi]%list_elem_of_filter. by apply Hl1.
Qed.

Lemma live_found_frame s s' :
  live_found s ->
  bc_head s' = bc_head s ->
  (forall j, shape <$> bc_buf s' !! j = shape <$> bc_buf s !! j) ->
  (forall j b', bc_buf s' !! j = Some b' -> refcnt b' <> 0%Z ->
     exists b, bc_buf s !! j = Some b /\
       (refcnt b <> 0%Z \/
        forall l, in_bucket s (hash (blockno b)) l ->
          pick (cached (dev b) (blockno b)) (bc_buf s) l = Some j)) ->
  live_found s'.
Proof.
  intros Hlive Hh Hshape Href j b' l Hb' Hr Hl.
  destruct (Href j b' Hb' Hr) as (b & Hb & Hor).
  pose proof (Hshape j) as Hj. rewrite Hb', Hb in Hj.
  injection Hj as Hd Hn Ho. rewrite Hd, Hn in *.
  assert (in_bucket s (hash (blockno b)) l) as Hl0.
  { revert Hl. apply in_bucket_frame; [done|]. intros i.
    specialize (Hshape i).
    destruct (bc_buf s' !! i), (bc_buf s !! i); simplify_eq/=; congruence. }
  rewrite (pick_ext _ (bc_buf s) (bc_buf s')).
  2:{ intros i _. by apply holds_cached_shape. }
  destruct Hor as [Hr0|Hnew]; [by eapply Hlive|by apply Hnew].
Qed.

Lemma live_found_upd s i f :
  live_found s ->
  (forall b, shape (f b) = shape b) ->
  (forall b, bc_buf s !! i = Some b -> refcnt (f b) <> 0%Z ->
     refcnt b <> 0%Z \/
     forall l, in_bucket s (hash (blockno b)) l ->
       pick (cached (dev b) (blockno b)) (bc_buf s) l = Some i) ->
  live_found (upd i f s).
Proof.
  intros Hlive Hf Hr. eapply live_found_frame; [done|done|..]; simpl.
  - intros j. destruct (decide (j = i)) as [->|Hne].
    + rewrite list_lookup_alter_eq. destruct (bc_buf s !! i); simpl; [|done].
      by rewrite Hf.
    + by rewrite list_lookup_alter_ne.
  - intros j b' Hb' Hr'. destruct (decide (j = i)) as [->|Hne].
    + rewrite list_lookup_alter_eq in Hb'.
      destruct (bc_buf s !! i) as [b|] eqn:Hb; simplify_eq/=. eauto.
    + rewrite list_lookup_alter_ne in Hb' by done. eauto.
Qed.

Lemma cached_true d n b : cached d n b = true <-> dev b = d /\ blockno b = n.
Proof. unfold cached. rewrite andb_true_iff, !Z.eqb_eq. done. Qed.

Lemma holds_cached_same d n (bs bs' : list buf) i :
  set_out None <$> bs' !! i = set_out None <$> bs !! i ->
  holds (cached d n) bs' i = holds (cached d n) bs i.
Proof.
  unfold holds, cached. intros H.
  destruct (bs' !! i) as [b'|], (bs !! i) as [b|]; simplify_eq/=; try done.
  congruence.
Qed.

Lemma live_found_hit s d n l z :
  live_found s -> in_bucket s (hash n) l ->
  pick (cached d n) (bc_buf s) l = Some z ->
  live_found (upd z incr s).
Proof.
  intros Hlive Hl Hpick. apply live_found_upd; [done|done|].
  intros bb Hbb _. right. intros l0 Hl0.
  destruct (pick_lookup _ _ _ _ Hpick) as (bb' & Hbb' & [Hd Hn]%cached_true).
  simplify_eq. by rewrite (in_bucket_det _ _ _ _ Hl0 Hl).
Qed.

Lemma live_found_lock s i o : live_found s -> live_found (upd i (set_lock o) s).
Proof. intros Hlive. apply live_found_upd; [done|done|]. by left. Qed.

Lemma live_found_reuse s d n l z :
  live_found s -> in_bucket s (hash n) l ->
  pick (cached d n) (bc_buf s) l = None ->
  pick unused (bc_buf s) l = Some z ->
  live_found (upd z (rebind d n) s).
Proof.
  intros Hlive Hl Hmiss Hfree j b' l' Hb' Hr Hl'. simpl in Hb'.
  destruct (pick_lookup _ _ _ _ Hfree) as (bz & Hbz & _).
  assert (Hl0 : in_bucket s (hash (blockno b')) l').
  { revert Hl'. apply in_bucket_frame; [done|]. intros i. simpl.
    symmetry. apply lookup_alter_out. by intros _ []. }
  assert (Hother : forall i, i <> z -> forall P,
            holds P (bc_buf (upd z (rebind d n) s)) i = holds P (bc_buf s) i).
  { intros i Hne P. unfold holds. simpl. by rewrite list_lookup_alter_ne. }
  destruct (decide (j = z)) as [->|Hne].
  - rewrite list_lookup_alter_eq, Hbz in Hb'. simplify_eq/=.
    rewrite (in_bucket_det _ _ _ _ Hl0 Hl).
    pose proof (in_bucket_NoDup _ _ _ Hl) as Hnd.
    apply pick_elem in Hfree as [(l1 & l2 & ->)%list_elem_of_split _].
    apply pick_Some. exists l1, l2. split_and!; [done|..].
    + unfold holds. simpl. rewrite list_lookup_alter_eq, Hbz. simpl.
      by apply cached_true.
    + intros i Hi. rewrite Hother.
      * eapply pick_None in Hmiss; [done|]. apply elem_of_app. by left.
      * intros ->. apply NoDup_app in Hnd as (_ & Hd & _).
        eapply (Hd z); [done|by left].
  - rewrite list_lookup_alter_ne in Hb' by done.
    eapply pick_retag; [by eapply Hlive|done| |by intros; apply Hother].
    unfold holds. simpl. rewrite list_lookup_alter_eq, Hbz. simpl.
    destruct (cached _ _ _) eqn:Hc; [|done].
    apply cached_true in Hc as [Hd Hn]. simpl in Hd, Hn. subst d n.
    rewrite (in_bucket_det _ _ _ _ Hl0 Hl) in *.
    rewrite (Hlive j b' l Hb' Hr Hl) in Hmiss. done.
Qed.

Lemma live_found_stolen s d n l z bz s2 :
  inv s -> live_found s -> in_bucket s (hash n) l ->
  pick (cached d n) (bc_buf s) l = None ->
  bc_buf s !! z = Some bz ->
  stolen d n z s = Done tt s2 ->
  live_found s2.
Proof.
  intros Hinv Hlive Hl Hmiss Hbz Hst j b' l' Hb' Hr Hl'.
  destruct (stolen_spec s d n z bz Hinv Hbz)
    as (s2' & Hst' & Hlists & Hsame & _).
  rewrite Hst in Hst'. injection Hst' as <-.
  destruct (same_but_out_fields _ _ _ _ Hsame Hb') as (b0 & Hb0 & Hb'0).
  assert (Hz2 : holds (cached d n) (bc_buf s2) z = true).
  { unfold holds. pose proof (Hsame z) as Hsz.
    rewrite list_lookup_alter_eq, Hbz in Hsz.
    destruct (bc_buf s2 !! z) as [b2|]; [|done]. simpl in *.
    apply cached_true. injection Hsz as _ Hd Hn _ _ _. done. }
  destruct (decide (j = z)) as [->|Hne].
  - rewrite list_lookup_alter_eq, Hbz in Hb0. injection Hb0 as <-.
    assert (dev b' = d /\ blockno b' = n) as [Hd Hn] by (by rewrite Hb'0).
    rewrite Hd, Hn in *.
    pose proof (Hlists _ _ Hl) as Hl2. rewrite decide_True in Hl2 by done.
    rewrite (in_bucket_det _ _ _ _ Hl' Hl2). simpl. by rewrite Hz2.
  - rewrite list_lookup_alter_ne in Hb0 by done.
    assert (dev b' = dev b0 /\ blockno b' = blockno b0 /\
            refcnt b' = refcnt b0) as (Hd & Hn & Hrf) by (by rewrite Hb'0).
    rewrite Hd, Hn, Hrf in *. clear Hb'0.
    destruct (inv_chain _ _ _ _ Hinv _ (hash_lt (blockno b0))) as [lk Hlk].
    pose proof (Hlive j b0 lk Hb0 Hr Hlk) as Hpick.
    assert (Hpick2 : pick (cached (dev b0) (blockno b0)) (bc_buf s2)
                       (filter (fun x => x <> z) lk) = Some j).
    { rewrite (pick_ext _ (bc_buf s)); [by apply pick_filter|].
      intros i [Hiz _]%list_elem_of_filter.
      apply holds_cached_same. rewrite Hsame.
      by rewrite list_lookup_alter_ne. }
    pose proof (Hlists _ _ Hlk) as Hl2.
    rewrite (in_bucket_det _ _ _ _ Hl' Hl2).
    case_decide as Hk; [|done]. simpl.
    destruct (holds (cached (dev b0) (blockno b0)) (bc_buf s2) z) eqn:Hc;
      [|done].
    exfalso. unfold holds in Hc, Hz2.
    destruct (bc_buf s2 !! z) as [b2|]; [|done]. simpl in *.
    apply cached_true in Hc as [Hd1 Hn1], Hz2 as [Hd' Hn'].
    assert (dev b0 = d) as Hd0 by congruence.
    assert (blockno b0 = n) as Hn0 by congruence.
    rewrite Hd0, Hn0 in *.
    rewrite (in_bucket_det _ _ _ _ Hlk Hl) in Hpick. congruence.
Qed.

(** [bget] keeps the buffers in use findable. *)
Lemma bget_live s pid d n :
  inv s -> live_found s -> post live_found (bget pid d n s).
Proof.
  intros Hinv Hlive.
  destruct (inv_chain _ _ _ _ Hinv _ (hash_lt n)) as [l Hl].
  destruct (bget_spec s pid d n l Hinv Hl)
    as [(b & Hpick & ->)|[(b & bz & Hmiss & Hpick & Hbz & _ & ->)
       |(Hmiss & _ & [(m & -> & _)|(b & bz & s2 & _ & Hbz & _ & Hst & ->)])]].
  - destruct (pick_lookup _ _ _ _ Hpick) as (bb & Hbb & _).
    assert (live_found (upd b incr s)) by (by eapply live_found_hit).
    apply post_lock_return; [|done|by apply live_found_lock].
    simpl. rewrite list_lookup_alter_eq, Hbb. eauto.
  - assert (live_found (upd b (rebind d n) s))
      by (by eapply live_found_reuse).
    apply post_lock_return; [|done|by apply live_found_lock].
    simpl. rewrite list_lookup_alter_eq, Hbz. eauto.
  - done.
  - assert (live_found s2) by (by eapply live_found_stolen).
    destruct (stolen_spec s d n b bz Hinv Hbz) as (s2' & Hst' & _ & Hsame & _).
    rewrite Hst in Hst'. injection Hst' as <-.
    apply post_lock_return; [|done|by apply live_found_lock].
    apply lookup_lt_is_Some.
    rewrite (same_but_out_length _ _ Hsame), length_alter.
    by eapply lookup_lt_Some.
Qed.

Lemma virtio_disk_rw_live s i w :
  live_found s -> post live_found (virtio_disk_rw i w s).
Proof.
  intros Hlive. unfold virtio_disk_rw.
  destruct (bc_buf s !! i) as [bb|] eqn:Hb; [|done].
  destruct w; simpl.
  - eapply live_found_frame; [done|done|done|]. eauto.
  - by apply (live_found_upd s i (set_data _)); [..|left].
Qed.

Lemma bread_fill_live s i : live_found s -> post live_found (bread_fill i s).
Proof.
  intros Hlive. unfold bread_fill.
  destruct (bc_buf s !! i) as [bb|] eqn:Hb; [|done].
  destruct (valid bb =? 0)%Z; [|done].
  eapply post_bind; [by apply virtio_disk_rw_live|done|].
  intros _ s1 Hs1. simpl. by apply live_found_upd; [..|left].
Qed.

Lemma legal_refcnt s i b :
  holds (fun x => negb (refcnt x =? 0)%Z) (bc_buf s) i = true ->
  bc_buf s !! i = Some b -> refcnt b <> 0%Z.
Proof.
  unfold holds. intros H Hb. rewrite Hb in H. simpl in H.
  apply negb_true_iff, Z.eqb_neq in H. done.
Qed.

Lemma exec_live c s s' :
  inv s -> live_found s -> legal c s = true -> exec c s = Some s' ->
  live_found s'.
Proof.
  intros Hinv Hlive Hlegal.
  destruct c as [pid d n|pid b|pid b|pid b|b|b]; simpl in *;
    apply post_settle.
  - eapply post_bind; [by apply bget_live|done|].
    intros b s1 Hs1. by apply bread_fill_live.
  - eapply post_bind; [|done|intros _ s1 Hs1; by apply bread_fill_live].
    unfold acquiresleep. destruct (bc_buf s !! b) as [bb|]; [|done].
    destruct (lock bb); [done|]. by apply live_found_lock.
  - unfold bwrite. destruct (bc_buf s !! b) as [bb|]; [|done].
    destruct (holdingsleep pid bb); [|done]. by apply virtio_disk_rw_live.
  - unfold brelse. destruct (bc_buf s !! b) as [bb|] eqn:Hb; [|done].
    destruct (holdingsleep pid bb); [|done]. simpl.
    apply live_found_upd; [by apply live_found_lock|done|].
    intros b0 Hb0 _. left. simpl in Hb0.
    rewrite list_lookup_alter_eq, Hb in Hb0. simplify_eq/=.
    by eapply legal_refcnt.
  - unfold bpin. destruct (bc_buf s !! b) as [bb|] eqn:Hb; [|done]. simpl.
    apply live_found_upd; [done..|]. intros b0 Hb0 _. left.
    by eapply legal_refcnt.
  - unfold bunpin. destruct (bc_buf s !! b) as [bb|] eqn:Hb; [|done]. simpl.
    apply live_found_upd; [done..|]. intros b0 Hb0 _. left.
    by eapply legal_refcnt.
Qed.

Lemma run_legal_inv cs : forall s s',
  inv s -> live_found s -> run_legal cs s = Some s' ->
  inv s' /\ live_found s'.
Proof.
  induction cs as [|c cs IH]; intros s s' Hinv Hlive Hrun; simpl in Hrun.
  - by simplify_eq.
  - destruct (legal c s) eqn:Hlegal; [|done].
    destruct (exec c s) as [s1|] eqn:Hc; [|done].
    eapply IH; [| |done]; [by eapply exec_inv|by eapply exec_live].
Qed.

Lemma binit_live dsk s0 : binit (boot dsk) = Done tt s0 -> live_found s0.
Proof.
  intros Hrun j b l Hb Hr _.
  destruct (binit_spec dsk) as (s0' & Hrun' & _ & _ & Hz & _).
  rewrite Hrun in Hrun'. injection Hrun' as <-.
  apply Hz in Hb. destruct b. cbv in Hb. simpl in Hr. congruence.
Qed.

Lemma reachable_legal_inv s : reachable_legal s -> inv s /\ live_found s.
Proof.
  intros (dsk & s0 & cs & Hinit & Hrun).
  eapply run_legal_inv; [| |done]; [by eapply binit_inv|by eapply binit_live].
Qed.

(** In a bucket invariant state, two buffers in use hold different
    blocks. *)
Lemma live_unique s i j bi bj :
  inv s -> live_found s ->
  bc_buf s !! i = Some bi -> bc_buf s !! j = Some bj ->
  refcnt bi <> 0%Z -> refcnt bj <> 0%Z ->
  dev bi = dev bj -> blockno bi = blockno bj -> i = j.
Proof.
  intros Hinv Hlive Hi Hj Hri Hrj Hd Hn.
  destruct (inv_chain _ _ _ _ Hinv _ (hash_lt (blockno bi))) as [l Hl].
  pose proof (Hlive i bi l Hi Hri Hl) as Hpi.
  rewrite Hn in Hl. pose proof (Hlive j bj l Hj Hrj Hl) as Hpj.
  rewrite Hd, Hn in Hpi. congruence.
Qed.

(** ** The properties of the specification *)

Lemma walk_ext f (bs bs' : list buf) p :
  (forall i, out <$> bs' !! i = out <$> bs !! i) ->
  walk f bs' p = walk f bs p.
Proof.
  intros H. revert p. induction f as [|f IH]; intros [i|]; simpl; try done.
  specialize (H i).
  destruct (bs' !! i) as [b'|], (bs !! i) as [b|]; simplify_eq/=; try done.
  by rewrite H, IH.
Qed.

Lemma bucket_upd s i f k :
  (forall b, out (f b) = out b) -> bucket (upd i f s) k = bucket s k.
Proof.
  intros Hf. unfold bucket, fuel. simpl. rewrite length_alter.
  destruct (bc_head s !! k); [|done].
  apply walk_ext. intros j. apply lookup_alter_out. by intros _.
Qed.

(** C6: [bwrite] on a buffer whose sleep lock the caller does not hold
    panics; when the caller holds the lock, [bwrite] calls the disk driver
    once to write the data of the buffer to its block and changes no field
    of any buffer (in particular not [valid], [refcnt], [dev] and
    [blockno]) and no list. *)
Theorem bwrite_spec pid b s bb :
  bc_buf s !! b = Some bb ->
  (lock bb <> Some pid -> bwrite pid b s = Panic "bwrite") /\
  (lock bb = Some pid ->
   exists s', bwrite pid b s = Done tt s' /\
     bc_buf s' = bc_buf s /\ bc_head s' = bc_head s /\
     io_log s' = io_log s ++ [Io true (dev bb) (blockno bb)] /\
     disk s' (dev bb) (blockno bb) = data bb /\
     (forall d n, ~ (d = dev bb /\ n = blockno bb) ->
        disk s' d n = disk s d n)).
Proof.
  intros Hb. unfold bwrite, holdingsleep, virtio_disk_rw. rewrite Hb. split.
  - intros Hl. by rewrite bool_decide_eq_false_2.
  - intros Hl. rewrite bool_decide_eq_true_2 by done. eexists.
    split; [done|]. simpl. split_and!; try done.
    + by rewrite decide_True.
    + intros d n Hne. by rewrite decide_False.
Qed.

Lemma brelse_cases pid b s bb :
  bc_buf s !! b = Some bb ->
  (lock bb <> Some pid -> brelse pid b s = Panic "brelse") /\
  (lock bb = Some pid ->
   exists s', brelse pid b s = Done tt s' /\
     bc_buf s' !! b
       = Some (set_refcnt (wrap (refcnt bb - 1)) (set_lock None bb)) /\
     ((0 < refcnt bb < 2 ^ 32)%Z ->
        wrap (refcnt bb - 1) = (refcnt bb - 1)%Z) /\
     (forall i, i <> b -> bc_buf s' !! i = bc_buf s !! i) /\
     bc_head s' = bc_head s /\
     (forall k, bucket s' k = bucket s k) /\
     disk s' = disk s /\ io_log s' = io_log s).
Proof.
  intros Hb. unfold brelse, holdingsleep. rewrite Hb. split.
  - intros Hl. by rewrite bool_decide_eq_false_2.
  - intros Hl. rewrite bool_decide_eq_true_2 by done. eexists.
    split; [done|]. split_and!; try done.
    + simpl. by rewrite !list_lookup_alter_eq, Hb.
    + intros Hr. unfold wrap. apply Z.mod_small. lia.
    + intros i Hne. simpl. by rewrite !list_lookup_alter_ne.
    + intros k. unfold releasesleep. by rewrite !bucket_upd.
Qed.

(** C7: [brelse] on a buffer whose sleep lock the caller does not hold
    panics; when the caller holds the lock, [brelse] frees the lock and
    decrements [refcnt] by one, and nothing else changes: the list heads,
    the members of every bucket, the other buffers, and [dev], [blockno],
    [valid], [out] and [data] of the buffer itself. *)
Theorem brelse_spec pid b s bb :
  bc_buf s !! b = Some bb ->
  (lock bb <> Some pid -> brelse pid b s = Panic "brelse") /\
  (lock bb = Some pid ->
   exists s', brelse pid b s = Done tt s' /\
     bc_buf s' !! b
       = Some (set_refcnt (wrap (refcnt bb - 1)) (set_lock None bb)) /\
     ((0 < refcnt bb < 2 ^ 32)%Z ->
        wrap (refcnt bb - 1) = (refcnt bb - 1)%Z) /\
     (forall i, i <> b -> bc_buf s' !! i = bc_buf s !! i) /\
     bc_head s' = bc_head s /\
     (forall k, bucket s' k = bucket s k) /\
     disk s' = disk s /\ io_log s' = io_log s).
Proof. apply brelse_cases. Qed.

(** C8: [bpin] increments and [bunpin] decrements [refcnt] by one; the
    sleep lock, the other fields, the other buffers and the lists stay as
    they are.  For a buffer with [refcnt = 1] that the caller holds, [bpin]
    followed by [brelse] leaves [refcnt = 1] with the lock free, and the
    [bunpin] after that brings [refcnt] to 0, so that the loops of [bget]
    see the buffer as unused. *)
Theorem bpin_bunpin_spec pid b s bb :
  bc_buf s !! b = Some bb ->
  (exists s', bpin b s = Done tt s' /\
     bc_buf s' !! b = Some (set_refcnt (wrap (refcnt bb + 1)) bb) /\
     (forall i, i <> b -> bc_buf s' !! i = bc_buf s !! i) /\
     bc_head s' = bc_head s /\ (forall k, bucket s' k = bucket s k)) /\
  (exists s', bunpin b s = Done tt s' /\
     bc_buf s' !! b = Some (set_refcnt (wrap (refcnt bb - 1)) bb) /\
     (forall i, i <> b -> bc_buf s' !! i = bc_buf s !! i) /\
     bc_head s' = bc_head s /\ (forall k, bucket s' k = bucket s k)) /\
  (refcnt bb = 1%Z -> lock bb = Some pid ->
   exists s1 s2 s3,
     bpin b s = Done tt s1 /\
     bc_buf s1 !! b = Some (set_refcnt 2 bb) /\
     brelse pid b s1 = Done tt s2 /\
     bc_buf s2 !! b = Some (set_refcnt 1 (set_lock None bb)) /\
     bunpin b s2 = Done tt s3 /\
     bc_buf s3 !! b = Some (set_refcnt 0 (set_lock None bb)) /\
     holds unused (bc_buf s3) b = true).
Proof.
  intros Hb. unfold bpin, bunpin. rewrite Hb. split_and!.
  - eexists. split; [done|]. split_and!; try done.
    + simpl. by rewrite list_lookup_alter_eq, Hb.
    + intros i Hne. simpl. by rewrite list_lookup_alter_ne.
    + intros k. by rewrite bucket_upd.
  - eexists. split; [done|]. split_and!; try done.
    + simpl. by rewrite list_lookup_alter_eq, Hb.
    + intros i Hne. simpl. by rewrite list_lookup_alter_ne.
    + intros k. by rewrite bucket_upd.
  - intros Hr Hl.
    assert (H1 : bc_buf (upd b incr s) !! b = Some (set_refcnt 2 bb)).
    { simpl. rewrite list_lookup_alter_eq, Hb. simpl. unfold incr.
      by rewrite Hr. }
    destruct (brelse_cases pid b _ _ H1) as [_ Hrel].
    destruct Hrel as (s2 & Hrel & H2 & _); [done|].
    exists (upd b incr s), s2, (upd b decr s2).
    split_and!; try done.
    + by rewrite H2.
    + simpl. by rewrite list_lookup_alter_eq, H2.
    + unfold holds. simpl. by rewrite list_lookup_alter_eq, H2.
Qed.

Lemma inv_one_bucket_each s i : inv s -> i < NBUF -> one_bucket s i.
Proof.
  intros Hinv Hi.
  rewrite <- (inv_nbuf _ _ _ _ Hinv) in Hi.
  apply lookup_lt_is_Some in Hi as [b Hb].
  destruct (inv_member _ _ _ _ Hinv i b Hb) as (l & Hl & Hil).
  exists (hash (blockno b)), l. split_and!; [|done| |].
  - by apply in_bucket_bucket.
  - by eapply in_bucket_NoDup.
  - intros k' l' Hl'%in_bucket_bucket Hil'. symmetry. by eapply inv_hash.
Qed.

Lemma stolen_identity s d n z bz s2 :
  inv s -> bc_buf s !! z = Some bz -> stolen d n z s = Done tt s2 ->
  exists b2, bc_buf s2 !! z = Some b2 /\ b2 = set_out (out b2) (rebind d n bz).
Proof.
  intros Hinv Hz Hst.
  destruct (stolen_spec s d n z bz Hinv Hz) as (s2' & Hst' & _ & Hsame & _).
  rewrite Hst in Hst'. injection Hst' as <-.
  assert (is_Some (bc_buf s2 !! z)) as [b2 Hb2].
  { apply lookup_lt_is_Some.
    rewrite (same_but_out_length _ _ Hsame), length_alter.
    by eapply lookup_lt_Some. }
  exists b2. split; [done|].
  destruct (same_but_out_fields _ _ _ _ Hsame Hb2) as (b0 & Hb0 & Heq).
  rewrite list_lookup_alter_eq, Hz in Hb0. by simplify_eq/=.
Qed.

(** C3: in every state that [binit] and the operations lead to, each
    buffer is on the list of exactly one bucket, once; every operation, and
    [bget] by itself, leads to such a state again.  When the third loop of
    [bget] takes a buffer [z], [z] is on the list of the bucket of its old
    block before, and afterwards it is bound to the new block, at the head of
    the list of the bucket of the new block and on no other list. *)
Theorem every_buffer_on_one_list s :
  reachable s ->
  (forall i, i < NBUF -> one_bucket s i) /\
  (forall c s', exec c s = Some s' -> forall i, i < NBUF -> one_bucket s' i) /\
  (forall pid d n s', settle (bget pid d n s) = Some s' ->
     forall i, i < NBUF -> one_bucket s' i) /\
  (forall pid d n l,
     bucket s (hash n) = Some l ->
     pick (cached d n) (bc_buf s) l = None ->
     pick unused (bc_buf s) l = None ->
     (exists m, bget pid d n s = Panic m) \/
     (exists z bz l0 s2 b2,
        bc_buf s !! z = Some bz /\ refcnt bz = 0%Z /\
        bucket s (hash (blockno bz)) = Some l0 /\ z ∈ l0 /\
        hash (blockno bz) <> hash n /\
        stolen d n z s = Done tt s2 /\
        bget pid d n s = lock_return pid z s2 /\
        bc_buf s2 !! z = Some b2 /\ dev b2 = d /\ blockno b2 = n /\
        bucket s2 (hash n) = Some (z :: l) /\
        bucket s2 (hash (blockno bz)) = Some (filter (fun x => x <> z) l0) /\
        (forall i, i < NBUF -> one_bucket s2 i))).
Proof.
  intros Hinv%reachable_inv. split_and!.
  - intros i Hi. by apply inv_one_bucket_each.
  - intros c s' Hc i Hi. apply inv_one_bucket_each; [|done].
    by eapply exec_inv.
  - intros pid d n s' Hs i Hi. apply inv_one_bucket_each; [|done].
    eapply post_settle; [|done]. by apply bget_inv.
  - intros pid d n l Hl%in_bucket_bucket Hmiss Hfull.
    destruct (bget_spec s pid d n l Hinv Hl)
      as [(b & Hpick & _)|[(b & bz & _ & Hpick & _)
         |(_ & _ & [(m & Hp & _)|(b & bz & s2 & Hbl & Hbz & Hr & Hst & Hg)])]];
      [congruence|congruence|by left; eauto|].
    right.
    destruct (inv_member _ _ _ _ Hinv b bz Hbz) as (l0 & Hl0 & Hbl0).
    destruct (stolen_spec s d n b bz Hinv Hbz) as (s2' & Hst' & Hlists & _).
    rewrite Hst in Hst'. injection Hst' as <-.
    destruct (stolen_identity s d n b bz s2 Hinv Hbz Hst) as (b2 & Hb2 & Heq).
    assert (hash (blockno bz) <> hash n) as Hne.
    { intros Heq'. rewrite Heq' in Hl0.
      by rewrite (in_bucket_det _ _ _ _ Hl0 Hl) in Hbl0. }
    exists b, bz, l0, s2, b2. split_and!; try done.
    + by apply in_bucket_bucket.
    + by rewrite Heq.
    + by rewrite Heq.
    + apply in_bucket_bucket. pose proof (Hlists _ _ Hl) as Hl2.
      rewrite decide_True in Hl2 by done.
      by rewrite filter_ne_absent in Hl2.
    + apply in_bucket_bucket. pose proof (Hlists _ _ Hl0) as Hl2.
      by rewrite decide_False in Hl2.
    + intros i Hi. apply inv_one_bucket_each; [|done].
      by eapply inv_stolen.
Qed.

(** C9: in every state that [binit] and the operations lead to, each
    buffer is on the list of the bucket that its block number hashes to,
    and on the list of bucket [k] there are only buffers whose block numbers
    hash to [k]; so [remove], which looks for a buffer in the bucket of its
    block number, finds it and unlinks it. *)
Theorem buffer_on_list_of_its_block s :
  reachable s ->
  (forall i b, bc_buf s !! i = Some b ->
     exists l, bucket s (hash (blockno b)) = Some l /\ i ∈ l) /\
  (forall k l i b, bucket s k = Some l -> i ∈ l ->
     bc_buf s !! i = Some b -> hash (blockno b) = k) /\
  (forall z bz, bc_buf s !! z = Some bz ->
     exists l s1, bucket s (hash (blockno bz)) = Some l /\ z ∈ l /\
       remove z s = Done tt s1 /\
       bucket s1 (hash (blockno bz)) = Some (filter (fun x => x <> z) l)).
Proof.
  intros Hinv%reachable_inv. split_and!.
  - intros i b Hb.
    destruct (inv_member _ _ _ _ Hinv i b Hb) as (l & Hl & Hil).
    exists l. split; [by apply in_bucket_bucket|done].
  - intros k l i b Hl%in_bucket_bucket Hil Hb. by eapply inv_hash.
  - intros z bz Hz.
    destruct (inv_bucket_of _ _ _ Hinv Hz) as (l1 & l2 & Hl).
    pose proof Hl as (h & Hh & Hc).
    eexists _, _. split_and!.
    + by apply in_bucket_bucket.
    + apply elem_of_app. right. by left.
    + by eapply remove_member.
    + apply in_bucket_bucket.
      rewrite filter_ne_split by (by eapply in_bucket_NoDup).
      by eapply detach_bucket.
Qed.

(** C4 (amended): [remove] scans the list of the bucket of the block number
    of the buffer.  On a buffer that is not on this list it returns without
    any change and without a panic.  On a buffer that is on the list it
    unlinks exactly this buffer: the members before it and after it stay, in
    their order, the [out] of the buffer becomes null, and no buffer changes
    in anything but [out]. *)
Theorem remove_spec s z bz l :
  bc_buf s !! z = Some bz ->
  bucket s (hash (blockno bz)) = Some l ->
  (z ∉ l -> remove z s = Done tt s) /\
  (z ∈ l ->
   exists l1 l2 s1, l = l1 ++ z :: l2 /\
     remove z s = Done tt s1 /\
     bucket s1 (hash (blockno bz)) = Some (l1 ++ l2) /\
     bc_buf s1 !! z = Some (set_out None bz) /\
     same_but_out (bc_buf s) (bc_buf s1) /\
     (forall k, k <> hash (blockno bz) -> bc_head s1 !! k = bc_head s !! k)).
Proof.
  intros Hz Hl%in_bucket_bucket. split.
  - intros Hnot. by eapply remove_absent.
  - intros (l1 & l2 & ->)%list_elem_of_split.
    pose proof Hl as (h & Hh & Hc).
    pose proof (in_bucket_NoDup _ _ _ Hl) as Hnd.
    exists l1, l2, (detach (hash (blockno bz)) z (out bz) l1 s).
    split_and!; try done.
    + by eapply remove_member.
    + apply in_bucket_bucket. by eapply detach_bucket.
    + apply detach_out; [done|]. intros q [m ->]%last_Some ->.
      apply NoDup_app in Hnd as (_ & Hd & _).
      eapply (Hd z); [|by left]. apply elem_of_app. right. by left.
    + apply detach_same.
    + intros k Hne. unfold detach. destruct (last l1); simpl; [done|].
      by rewrite list_lookup_insert_ne.
Qed.

(** C1: in every state that [binit] and a legal use of the operations lead
    to, no two buffers with [refcnt] other than 0 hold the same device and
    block number.  When the list of the bucket of block [(d, n)] has a buffer
    bound to [(d, n)], [bget] returns a buffer bound to [(d, n)] from this
    list (the one in use, if one is in use) with [refcnt] incremented, taking
    its sleep lock or going to sleep on it, and changes no other buffer and
    no list. *)
Theorem one_buffer_per_block s :
  reachable_legal s ->
  (forall i j bi bj,
     bc_buf s !! i = Some bi -> bc_buf s !! j = Some bj ->
     refcnt bi <> 0%Z -> refcnt bj <> 0%Z ->
     dev bi = dev bj -> blockno bi = blockno bj -> i = j) /\
  (forall pid d n l j bj,
     bucket s (hash n) = Some l -> j ∈ l ->
     bc_buf s !! j = Some bj -> dev bj = d -> blockno bj = n ->
     exists b bb,
       b ∈ l /\ bc_buf s !! b = Some bb /\ dev bb = d /\ blockno bb = n /\
       (refcnt bj <> 0%Z -> b = j) /\
       bget pid d n s =
         match lock bb with
         | None => Done b (upd b (set_lock (Some pid)) (upd b incr s))
         | Some _ => Sleep b (upd b incr s)
         end /\
       bc_buf (upd b incr s) !! b
         = Some (set_refcnt (wrap (refcnt bb + 1)) bb) /\
       ((0 <= refcnt bb < 2 ^ 32 - 1)%Z ->
          wrap (refcnt bb + 1) = (refcnt bb + 1)%Z) /\
       (forall i, i <> b -> bc_buf (upd b incr s) !! i = bc_buf s !! i) /\
       bc_head (upd b incr s) = bc_head s).
Proof.
  intros [Hinv Hlive]%reachable_legal_inv. split.
  - intros i j bi bj. by apply live_unique.
  - intros pid d n l j bj Hl%in_bucket_bucket Hjl Hj Hd Hn.
    destruct (pick (cached d n) (bc_buf s) l) as [b|] eqn:Hpick.
    2:{ eapply pick_None in Hpick; [|done]. unfold holds in Hpick.
        rewrite Hj in Hpick. simpl in Hpick.
        assert (cached d n bj = true) by (by apply cached_true). congruence. }
    destruct (pick_lookup _ _ _ _ Hpick) as (bb & Hbb & [Hdb Hnb]%cached_true).
    exists b, bb. split_and!; try done.
    + by apply pick_elem in Hpick as [? _].
    + intros Hr. pose proof (Hlive j bj l Hj Hr) as Hpj.
      rewrite Hd, Hn in Hpj. specialize (Hpj Hl). congruence.
    + rewrite (bget_unfold _ _ _ _ l), Hpick by done.
      unfold lock_return, acquiresleep. simpl.
      rewrite list_lookup_alter_eq, Hbb. simpl. by destruct (lock bb).
    + simpl. by rewrite list_lookup_alter_eq, Hbb.
    + intros Hr. unfold wrap. apply Z.mod_small. lia.
    + intros i Hne. simpl. by rewrite list_lookup_alter_ne.
Qed.

(** ** The effect of [bget] *)

Lemma pick_after_reuse s d n l z bz :
  in_bucket s (hash n) l ->
  pick (cached d n) (bc_buf s) l = None ->
  z ∈ l -> bc_buf s !! z = Some bz ->
  pick (cached d n) (alter (rebind d n) z (bc_buf s)) l = Some z.
Proof.
  intros Hl Hmiss (l1 & l2 & ->)%list_elem_of_split Hbz.
  pose proof (in_bucket_NoDup _ _ _ Hl) as Hnd.
  apply pick_Some. exists l1, l2. split_and!; [done|..].
  - unfold holds. rewrite list_lookup_alter_eq, Hbz. simpl.
    by apply cached_true.
  - intros i Hi. unfold holds. rewrite list_lookup_alter_ne.
    + eapply pick_None in Hmiss; [done|]. apply elem_of_app. by left.
    + intros ->. apply NoDup_app in Hnd as (_ & Hd & _).
      eapply (Hd i); [done|by left].
Qed.

Lemma bget_effect s pid d n l :
  inv s -> in_bucket s (hash n) l ->
  (exists m, bget pid d n s = Panic m /\
     (m = msg_no_buffer \/ m = msg_no_buffers) /\
     pick (cached d n) (bc_buf s) l = None /\
     pick unused (bc_buf s) l = None) \/
  (exists b bb s1, bc_buf s !! b = Some bb /\
     (pick (cached d n) (bc_buf s) l = Some b \/
      (pick (cached d n) (bc_buf s) l = None /\ refcnt bb = 0%Z)) /\
     bget pid d n s = lock_return pid b s1 /\
     inv s1 /\
     same_but_out (alter (claim d n) b (bc_buf s)) (bc_buf s1) /\
     (forall l1, in_bucket s1 (hash n) l1 ->
        pick (cached d n) (bc_buf s1) l1 = Some b) /\
     disk s1 = disk s /\ io_log s1 = io_log s).
Proof.
  intros Hinv Hl.
  assert (Hmiss_claim : forall b bb,
            pick (cached d n) (bc_buf s) l = None ->
            bc_buf s !! b = Some bb -> (b ∈ l \/ hash (blockno bb) <> hash n) ->
            alter (claim d n) b (bc_buf s) = alter (rebind d n) b (bc_buf s)).
  { intros b bb Hmiss Hbb Hor. apply list_alter_ext; [|done].
    intros x Hx. assert (x = bb) as -> by congruence. unfold claim.
    destruct (cached d n bb) eqn:Hc; [|done]. exfalso.
    destruct Hor as [Hbl|Hne].
    - eapply pick_None in Hmiss; [|done]. unfold holds in Hmiss.
      rewrite Hbb in Hmiss. simpl in Hmiss. congruence.
    - apply cached_true in Hc as [Hd Hn]. by rewrite Hn in Hne. }
  destruct (bget_spec s pid d n l Hinv Hl)
    as [(b & Hpick & Hg)|[(b & bz & Hmiss & Hpick & Hbz & Hr & Hg)
       |(Hmiss & Hfull & [(m & Hg & Hm)|(b & bz & s2 & Hbl & Hbz & Hr & Hst & Hg)])]].
  - right. destruct (pick_lookup _ _ _ _ Hpick) as (bb & Hbb & Hc).
    exists b, bb, (upd b incr s). split_and!; try done; try by left.
    + by apply inv_upd.
    + simpl. erewrite (list_alter_ext (claim d n) incr); [|..|done].
      * apply same_but_out_refl.
      * intros x Hx. assert (x = bb) as -> by congruence.
        unfold claim. by rewrite Hc.
    + intros l1 Hl1.
      assert (in_bucket s (hash n) l1) as Hl1'.
      { revert Hl1. apply in_bucket_frame; [done|]. intros i. simpl.
        symmetry. apply lookup_alter_out. by intros _ []. }
      rewrite (in_bucket_det _ _ _ _ Hl1' Hl).
      rewrite <- Hpick. apply pick_ext. intros i _.
      apply holds_cached_shape. simpl.
      destruct (decide (i = b)) as [->|Hne].
      * rewrite list_lookup_alter_eq. by destruct (bc_buf s !! b).
      * by rewrite list_lookup_alter_ne.
  - right. pose proof (pick_elem _ _ _ _ Hpick) as [Hbl _].
    exists b, bz, (upd b (rebind d n) s). split_and!; try done.
    + by right.
    + apply inv_upd; [done|]. intros b0 Hb0. simplify_eq/=.
      split; [done|]. symmetry. by eapply inv_hash.
    + simpl. erewrite Hmiss_claim; [|done..|by left].
      apply same_but_out_refl.
    + intros l1 Hl1.
      assert (in_bucket s (hash n) l1) as Hl1'.
      { revert Hl1. apply in_bucket_frame; [done|]. intros i. simpl.
        symmetry. apply lookup_alter_out. by intros _ []. }
      rewrite (in_bucket_det _ _ _ _ Hl1' Hl). simpl.
      by eapply pick_after_reuse.
  - left. exists m. by split_and!.
  - right.
    destruct (stolen_spec s d n b bz Hinv Hbz)
      as (s2' & Hst' & Hlists & Hsame & _ & Hdk & Hio).
    rewrite Hst in Hst'. injection Hst' as <-.
    exists b, bz, s2. split_and!; try done.
    + by right.
    + by eapply inv_stolen.
    + erewrite Hmiss_claim; [done..|]. right. intros Heq.
      destruct (inv_member _ _ _ _ Hinv b bz Hbz) as (l0 & Hl0 & Hbl0).
      rewrite Heq in Hl0. by rewrite (in_bucket_det _ _ _ _ Hl0 Hl) in Hbl0.
    + intros l1 Hl1. pose proof (Hlists _ _ Hl) as Hl2.
      rewrite decide_True in Hl2 by done.
      rewrite (in_bucket_det _ _ _ _ Hl1 Hl2). simpl.
      destruct (stolen_identity s d n b bz s2 Hinv Hbz Hst) as (b2 & Hb2 & Heq).
      unfold holds. rewrite Hb2. simpl.
      assert (cached d n b2 = true) as ->; [|done].
      apply cached_true. by rewrite Heq.
Qed.

Local Abbreviation finds := (finds hash).

Lemma finds_frame d n b s s' :
  bc_head s' = bc_head s ->
  (forall j, shape <$> bc_buf s' !! j = shape <$> bc_buf s !! j) ->
  finds d n b s -> finds d n b s'.
Proof.
  intros Hh Hshape Hf l Hl.
  rewrite (pick_ext _ (bc_buf s)).
  - apply Hf. revert Hl. apply in_bucket_frame; [done|]. intros i.
    specialize (Hshape i).
    destruct (bc_buf s' !! i), (bc_buf s !! i); simplify_eq/=; congruence.
  - intros i _. by apply holds_cached_shape.
Qed.

Lemma finds_upd d n b s i f :
  (forall x, shape (f x) = shape x) ->
  finds d n b s -> finds d n b (upd i f s).
Proof.
  intros Hf. apply finds_frame; [done|]. intros j. simpl.
  destruct (decide (j = i)) as [->|Hne].
  - rewrite list_lookup_alter_eq. destruct (bc_buf s !! i); simpl; [|done].
    by rewrite Hf.
  - by rewrite list_lookup_alter_ne.
Qed.

(** What the part of [bread] after [bget] does. *)
Lemma bread_fill_cases s b bb :
  bc_buf s !! b = Some bb ->
  exists s1 bb1, bread_fill b s = Done b s1 /\
    bc_buf s1 !! b = Some bb1 /\
    bb1 = set_valid (valid bb1) (set_data (data bb1) bb) /\
    valid bb1 <> 0%Z /\
    (forall i, i <> b -> bc_buf s1 !! i = bc_buf s !! i) /\
    bc_head s1 = bc_head s /\ disk s1 = disk s /\
    ((valid bb = 0)%Z ->
       io_log s1 = io_log s ++ [Io false (dev bb) (blockno bb)] /\
       valid bb1 = 1%Z /\ data bb1 = disk s (dev bb) (blockno bb)) /\
    ((valid bb <> 0)%Z -> s1 = s).
Proof.
  intros Hb. unfold bread_fill, virtio_disk_rw. rewrite Hb.
  destruct (valid bb =? 0)%Z eqn:Hv.
  - apply Z.eqb_eq in Hv. simpl. eexists _, _. split; [done|]. simpl.
    rewrite !list_lookup_alter_eq, Hb. simpl. split_and!; try done.
    intros i Hne. by rewrite !list_lookup_alter_ne.
  - apply Z.eqb_neq in Hv. exists s, bb. split_and!; try done.
    by destruct bb.
Qed.

Lemma finds_bread_fill d n b s i s1 :
  bread_fill i s = Done i s1 -> finds d n b s -> finds d n b s1.
Proof.
  intros Hfill. unfold bread_fill in Hfill.
  destruct (bc_buf s !! i) as [bb|] eqn:Hb; [|done].
  destruct (bread_fill_cases s i bb Hb)
    as (s1' & bb1 & Hfill' & Hb1 & Heq & _ & Hoth & Hh & _).
  unfold bread_fill in Hfill'. rewrite Hb in Hfill'.
  rewrite Hfill in Hfill'. injection Hfill' as <-.
  apply finds_frame; [done|]. intros j.
  destruct (decide (j = i)) as [->|Hne].
  - rewrite Hb1, Hb. simpl. by rewrite Heq.
  - by rewrite Hoth.
Qed.

Lemma claim_identity d n b :
  dev (claim d n b) = d /\ blockno (claim d n b) = n.
Proof.
  unfold claim. destruct (cached d n b) eqn:Hc; [|done].
  by apply cached_true in Hc.
Qed.

(** A [bget] that returns has taken the sleep lock of a buffer bound to
    the block, and from then on the lookup of the block finds this
    buffer. *)
Lemma bget_done s pid d n b s1 :
  inv s -> bget pid d n s = Done b s1 ->
  exists s0 x, s1 = upd b (set_lock (Some pid)) s0 /\
    bc_buf s0 !! b = Some x /\ lock x = None /\
    dev x = d /\ blockno x = n /\
    inv s0 /\ finds d n b s0 /\
    disk s0 = disk s /\ io_log s0 = io_log s.
Proof.
  intros Hinv Hg.
  destruct (inv_chain _ _ _ _ Hinv _ (hash_lt n)) as [l Hl].
  destruct (bget_effect s pid d n l Hinv Hl)
    as [(m & Hp & _)|(b' & bb & s0 & Hbb & _ & Hg' & Hinv0 & Hsame & Hf & Hdk & Hio)];
    [congruence|].
  assert (is_Some (bc_buf s0 !! b')) as [x Hx].
  { apply lookup_lt_is_Some.
    rewrite (same_but_out_length _ _ Hsame), length_alter.
    by eapply lookup_lt_Some. }
  rewrite Hg in Hg'.
  destruct (lock_return_cases pid b' s0 x Hx) as [[Hlk Hr]|[_ Hr]];
    rewrite Hr in Hg'; [|done].
  injection Hg' as -> ->.
  exists s0, x. split_and!; try done.
  - destruct (same_but_out_fields _ _ _ _ Hsame Hx) as (b0 & Hb0 & ->).
    rewrite list_lookup_alter_eq, Hbb in Hb0. simplify_eq/=.
    apply claim_identity.
  - destruct (same_but_out_fields _ _ _ _ Hsame Hx) as (b0 & Hb0 & ->).
    rewrite list_lookup_alter_eq, Hbb in Hb0. simplify_eq/=.
    apply claim_identity.
Qed.

(** C2: [bread] is [bget] followed by a call of the disk driver exactly
    when [valid] of the returned buffer is 0, after which [valid] is 1;
    [bget] itself never calls the driver.  After a [bread] of block [(d, n)]
    and the [brelse] of the buffer, the buffer is still bound to [(d, n)]
    with [valid] set, and the next [bread] of [(d, n)] returns the same
    buffer without a call of the driver. *)
Theorem bread_reads_when_invalid s pid d n :
  reachable s ->
  (forall b s1 bb, bget pid d n s = Done b s1 ->
     bc_buf s1 !! b = Some bb ->
     io_log s1 = io_log s /\
     ((valid bb = 0)%Z ->
        exists s2 bb2, bread pid d n s = Done b s2 /\
          io_log s2 = io_log s1 ++ [Io false (dev bb) (blockno bb)] /\
          bc_buf s2 !! b = Some bb2 /\ valid bb2 = 1%Z /\
          data bb2 = disk s1 (dev bb) (blockno bb)) /\
     ((valid bb <> 0)%Z -> bread pid d n s = Done b s1)) /\
  (forall b s1, bread pid d n s = Done b s1 ->
     exists bb1 s2,
       bc_buf s1 !! b = Some bb1 /\ dev bb1 = d /\ blockno bb1 = n /\
       valid bb1 <> 0%Z /\ lock bb1 = Some pid /\
       brelse pid b s1 = Done tt s2 /\
       bc_buf s2 !! b
         = Some (set_refcnt (wrap (refcnt bb1 - 1)) (set_lock None bb1)) /\
       forall pid', exists s3,
         bread pid' d n s2 = Done b s3 /\ io_log s3 = io_log s2).
Proof.
  intros Hinv%reachable_inv. split.
  - intros b s1 bb Hg Hb.
    destruct (bget_done s pid d n b s1 Hinv Hg)
      as (s0 & x & -> & _ & _ & _ & _ & _ & _ & _ & Hio).
    split; [done|].
    destruct (bread_fill_cases _ b bb Hb)
      as (s2 & bb2 & Hfill & Hb2 & _ & _ & _ & _ & _ & Hread & Hkeep).
    unfold bread. rewrite Hg. simpl. split.
    + intros Hv. destruct (Hread Hv) as (Hio2 & Hv2 & Hd2).
      exists s2, bb2. by split_and!.
    + intros Hv. by rewrite Hfill, (Hkeep Hv).
  - intros b s1 Hbread. unfold bread in Hbread.
    destruct (bget pid d n s) as [b0 s1'| | | |] eqn:Hg; try done.
    simpl in Hbread.
    destruct (bget_done s pid d n b0 s1' Hinv Hg)
      as (s0 & x & -> & Hx & Hlk & Hdx & Hnx & Hinv0 & Hf0 & _ & _).
    set (s1' := upd b0 (set_lock (Some pid)) s0) in *.
    assert (Hx1 : bc_buf s1' !! b0 = Some (set_lock (Some pid) x)).
    { unfold s1'. simpl. by rewrite list_lookup_alter_eq, Hx. }
    destruct (bread_fill_cases s1' b0 _ Hx1)
      as (s1_ & bb1 & Hfill & Hb1 & Heq1 & Hv1 & _).
    rewrite Hfill in Hbread. injection Hbread as Hbeq Hseq. subst b s1_.
    assert (Hinv1 : inv s1).
    { pose proof (bread_fill_inv s1' b0) as Hpost.
      rewrite Hfill in Hpost. apply Hpost. by apply inv_upd. }
    assert (Hf1 : finds d n b0 s1).
    { eapply finds_bread_fill; [done|]. by apply finds_upd. }
    assert (Hlk1 : lock bb1 = Some pid) by (by rewrite Heq1).
    destruct (brelse_cases pid b0 s1 bb1 Hb1) as [_ Hrel].
    destruct (Hrel Hlk1) as (s2 & Hrel2 & Hb2 & _).
    exists bb1, s2. split_and!; try done; try (by rewrite Heq1).
    intros pid'.
    assert (s2 = upd b0 decr (releasesleep b0 s1)) as Hs2.
    { unfold brelse, holdingsleep in Hrel2. rewrite Hb1 in Hrel2.
      rewrite bool_decide_eq_true_2 in Hrel2 by done. congruence. }
    assert (Hinv2 : inv s2).
    { rewrite Hs2. apply inv_upd; [|done]. by apply inv_upd. }
    assert (Hf2 : finds d n b0 s2).
    { rewrite Hs2. apply finds_upd; [done|]. by apply finds_upd. }
    destruct (inv_chain _ _ _ _ Hinv2 _ (hash_lt n)) as [l2 Hl2].
    unfold bread. rewrite (bget_unfold _ _ _ _ l2), (Hf2 l2 Hl2) by done.
    assert (Hb3 : bc_buf (upd b0 incr s2) !! b0
                  = Some (incr (set_refcnt (wrap (refcnt bb1 - 1))
                                  (set_lock None bb1)))).
    { simpl. by rewrite list_lookup_alter_eq, Hb2. }
    destruct (lock_return_cases pid' b0 _ _ Hb3) as [[_ ->]|[Hno _]];
      [|done].
    simpl.
    set (s3 := upd b0 (set_lock (Some pid')) (upd b0 incr s2)).
    assert (Hb4 : bc_buf s3 !! b0
                  = Some (set_lock (Some pid')
                            (incr (set_refcnt (wrap (refcnt bb1 - 1))
                                     (set_lock None bb1))))).
    { unfold s3. simpl. by rewrite !list_lookup_alter_eq, Hb2. }
    destruct (bread_fill_cases s3 b0 _ Hb4)
      as (s3_ & bb3 & Hfill3 & _ & _ & _ & _ & _ & _ & _ & Hkeep).
    rewrite Hfill3, Hkeep by done. by exists s3.
Qed.

(** ** Exhaustion *)

Local Abbreviation all_held := (all_held NBUCKET NBUF hash).

Lemma probe_no_collision blk i :
  probe_ok blk -> 1 <= i < NBUCKET ->
  hash (wrap (blk + Z.of_nat i)) <> hash blk.
Proof.
  intros Hp Hi. rewrite Hp by done. pose proof (hash_lt blk) as Hh.
  destruct (le_lt_dec NBUCKET (hash blk + i)).
  - replace (hash blk + i) with ((hash blk + i - NBUCKET) + 1 * NBUCKET)
      by lia.
    rewrite Nat.Div0.mod_add. rewrite Nat.mod_small; lia.
  - rewrite Nat.mod_small; lia.
Qed.

(** A regular probe sequence gets to every bucket. *)
Lemma probe_ok_reaches blk k :
  probe_ok blk -> k < NBUCKET -> reaches blk k.
Proof.
  intros Hp Hk. pose proof (hash_lt blk) as Hh.
  destruct (decide (hash blk = k)) as [|Hne]; [by left|]. right.
  assert (exists j, 1 <= j < NBUCKET /\ (hash blk + j) mod NBUCKET = k)
    as (j & Hj & Hjk).
  { destruct (le_lt_dec (hash blk) k).
    - exists (k - hash blk). split; [lia|]. rewrite Nat.mod_small; lia.
    - exists (NBUCKET - hash blk + k). split; [lia|].
      replace (hash blk + (NBUCKET - hash blk + k)) with (k + 1 * NBUCKET)
        by lia.
      rewrite Nat.Div0.mod_add. rewrite Nat.mod_small; lia. }
  exists j. split_and!; [lia|lia|by rewrite Hp|].
  intros i Hi. apply probe_no_collision; [done|lia].
Qed.

Lemma lock_return_no_panic pid b s m : lock_return pid b s <> Panic m.
Proof.
  unfold lock_return, acquiresleep.
  destruct (bc_buf s !! b) as [bb|]; [|done]. by destruct (lock bb).
Qed.

(** The third loop does not panic while it gets to a bucket with an unused
    buffer. *)
Lemma steal_no_panic s pid d blk :
  inv s -> forall n i,
  1 <= i -> i + n = NBUCKET ->
  (exists j l, i <= j < NBUCKET /\
     in_bucket s (hash (wrap (blk + Z.of_nat j))) l /\
     pick unused (bc_buf s) l <> None /\
     forall i', i <= i' <= j ->
       hash (wrap (blk + Z.of_nat i')) <> hash blk) ->
  forall m, steal n (Z.of_nat i) pid d blk s <> Panic m.
Proof.
  intros Hinv. induction n as [|n IH];
    intros i Hi Hsum (j & l & Hj & Hl & Hfree & Hclear) m.
  - lia.
  - destruct (inv_chain _ _ _ _ Hinv _ (hash_lt (wrap (blk + Z.of_nat i))))
      as [li Hli].
    rewrite (steal_unfold _ _ _ _ _ _ li) by done.
    rewrite decide_False.
    2:{ intros Heq. eapply (Hclear i); [lia|done]. }
    destruct (pick unused (bc_buf s) li) as [b|] eqn:Hpick.
    + destruct (pick_lookup _ _ _ _ Hpick) as (bz & Hbz & _).
      destruct (stolen_spec s d blk b bz Hinv Hbz) as (s2 & -> & _).
      simpl. apply lock_return_no_panic.
    + assert (j <> i) as Hji.
      { intros ->. rewrite (in_bucket_det _ _ _ _ Hl Hli) in Hfree. done. }
      replace (Z.of_nat i + 1)%Z with (Z.of_nat (S i)) by lia.
      apply IH; [lia|lia|]. exists j, l. split_and!; [lia|lia|done..|].
      intros i' Hi'. apply Hclear. lia.
Qed.

Lemma pick_unused_Some s l z bz :
  z ∈ l -> bc_buf s !! z = Some bz -> refcnt bz = 0%Z ->
  pick unused (bc_buf s) l <> None.
Proof.
  intros Hz Hbz Hr Hnone. eapply pick_None in Hnone; [|done].
  unfold holds, unused in Hnone. rewrite Hbz in Hnone. simpl in Hnone.
  rewrite Hr in Hnone. done.
Qed.

(** [bget] does not panic while it gets to the bucket of an unused
    buffer. *)
Lemma bget_no_panic s pid d n z bz :
  inv s ->
  bc_buf s !! z = Some bz -> refcnt bz = 0%Z ->
  reaches n (hash (blockno bz)) ->
  forall m, bget pid d n s <> Panic m.
Proof.
  intros Hinv Hbz Hr Hreach m.
  destruct (inv_chain _ _ _ _ Hinv _ (hash_lt n)) as [l Hl].
  rewrite (bget_unfold _ _ _ _ l) by done.
  destruct (pick (cached d n) (bc_buf s) l); [apply lock_return_no_panic|].
  destruct (pick unused (bc_buf s) l) eqn:Hfree;
    [apply lock_return_no_panic|].
  destruct (inv_member _ _ _ _ Hinv z bz Hbz) as (lz & Hlz & Hzl).
  destruct Hreach as [Heq|(j & Hj & Hjk & Hclear)].
  { exfalso. rewrite <- Heq in Hlz.
    rewrite (in_bucket_det _ _ _ _ Hlz Hl) in Hzl.
    by eapply pick_unused_Some. }
  change 1%Z with (Z.of_nat 1).
  apply steal_no_panic; [done|lia|lia|].
  exists j, lz. split_and!; [lia|lia|by rewrite Hjk| |done].
  by eapply pick_unused_Some.
Qed.

(** Without an unused buffer, [bget] for a block that is not cached
    panics. *)
Lemma bget_full s pid d n :
  inv s ->
  (forall i b, bc_buf s !! i = Some b -> refcnt b <> 0%Z) ->
  (forall i b, bc_buf s !! i = Some b -> ~ (dev b = d /\ blockno b = n)) ->
  exists m, bget pid d n s = Panic m /\
    (m = msg_no_buffer \/ m = msg_no_buffers).
Proof.
  intros Hinv Hlive Hnot.
  destruct (inv_chain _ _ _ _ Hinv _ (hash_lt n)) as [l Hl].
  destruct (bget_effect s pid d n l Hinv Hl)
    as [(m & Hp & Hm & _)|(b & bb & s1 & Hbb & Hor & _)]; [eauto|].
  exfalso. destruct Hor as [Hpick|[_ Hr]].
  - destruct (pick_lookup _ _ _ _ Hpick) as (bb' & Hbb' & Hc%cached_true).
    by eapply Hnot.
  - by eapply Hlive.
Qed.

Lemma nat_missing (l : list nat) n :
  length l < n -> exists i, i < n /\ i ∉ l.
Proof.
  intros Hlen.
  destruct (decide (Forall (fun i => i ∈ l) (seq 0 n))) as [Hall|Hex].
  - assert (seq 0 n ⊆+ l) as Hsub.
    { apply NoDup_submseteq; [apply NoDup_seq|].
      intros i Hi. by eapply Forall_forall in Hall. }
    apply submseteq_length in Hsub. rewrite length_seq in Hsub. lia.
  - apply not_Forall_Exists in Hex; [|apply _].
    apply Exists_exists in Hex as (i & Hi%elem_of_seq & Hnot).
    exists i. split; [lia|done].
Qed.

Lemma nat_all_present (l : list nat) n i :
  NoDup l -> (forall x, x ∈ l -> x < n) -> length l = n -> i < n -> i ∈ l.
Proof.
  intros Hnd Hlt Hlen Hi.
  destruct (decide (i ∈ l)) as [|Hnot]; [done|]. exfalso.
  assert (l ⊆+ filter (fun x => x <> i) (seq 0 n)) as Hsub.
  { apply NoDup_submseteq; [done|]. intros x Hx.
    apply list_elem_of_filter. split; [by intros ->|].
    apply elem_of_seq. specialize (Hlt x Hx). lia. }
  apply submseteq_length in Hsub.
  assert (length (filter (fun x => x <> i) (seq 0 n)) < length (seq 0 n)).
  { apply (length_filter_lt _ _ i); [|by intros H; apply H].
    apply elem_of_seq. lia. }
  rewrite length_seq in *. lia.
Qed.

Lemma claim_unused d n b :
  refcnt b = 0%Z -> refcnt (claim d n b) = 1%Z /\ lock (claim d n b) = lock b.
Proof.
  intros Hr. unfold claim. destruct (cached d n b); [|done].
  simpl. by rewrite Hr.
Qed.

(** One more block on top of the blocks held: [bget] returns an unused
    buffer, now held for the block. *)
Lemma bget_fresh pid bs ps s d n :
  all_held pid bs ps s -> (d, n) ∉ ps -> length bs < NBUF ->
  reaches n (hash 0) ->
  exists b s', bget pid d n s = Done b s' /\
    all_held pid (bs ++ [b]) (ps ++ [(d, n)]) s'.
Proof.
  intros (Hinv & Hnd & Hlen & Hheld & Hfree) Hnew Hroom Hp.
  destruct (inv_chain _ _ _ _ Hinv _ (hash_lt n)) as [l Hl].
  destruct (bget_effect s pid d n l Hinv Hl)
    as [(m & Hpanic & _)
       |(b & bb & s1 & Hbb & Hor & Hg & Hinv1 & Hsame & _)].
  { exfalso. destruct (nat_missing bs NBUF Hroom) as (z & Hz & Hzbs).
    rewrite <- (inv_nbuf _ _ _ _ Hinv) in Hz.
    apply lookup_lt_is_Some in Hz as [bz Hbz].
    destruct (Hfree z bz Hbz Hzbs) as (Hr & _ & Hz0).
    rewrite <- Hz0 in Hp.
    exact (bget_no_panic s pid d n z bz Hinv Hbz Hr Hp m Hpanic). }
  assert (b ∉ bs) as Hb.
  { intros (k & Hk)%list_elem_of_lookup_1.
    assert (is_Some (ps !! k)) as [p Hpk].
    { apply lookup_lt_is_Some. rewrite <- Hlen. by eapply lookup_lt_Some. }
    destruct (Hheld k b p Hk Hpk) as (bb' & Hbb' & Hd & Hn & Hr & _).
    rewrite Hbb in Hbb'. injection Hbb' as <-.
    destruct Hor as [Hpick|[_ Hr0]]; [|congruence].
    destruct (pick_lookup _ _ _ _ Hpick) as (bb0 & Hbb0 & [Hd0 Hn0]%cached_true).
    rewrite Hbb in Hbb0. injection Hbb0 as <-.
    apply Hnew. apply list_elem_of_lookup_2 in Hpk.
    destruct p as [pd pn]. simpl in *. congruence. }
  destruct (Hfree b bb Hbb Hb) as (Hr & Hlk & _).
  destruct (claim_unused d n bb Hr) as [Hr1 Hlk1].
  destruct (claim_identity d n bb) as [Hd1 Hn1].
  assert (is_Some (bc_buf s1 !! b)) as [x Hx].
  { apply lookup_lt_is_Some.
    rewrite (same_but_out_length _ _ Hsame), length_alter.
    by eapply lookup_lt_Some. }
  destruct (same_but_out_fields _ _ _ _ Hsame Hx) as (x0 & Hx0 & Hxeq).
  rewrite list_lookup_alter_eq, Hbb in Hx0. simpl in Hx0.
  injection Hx0 as <-.
  assert (Hkeep : forall i bi, i <> b -> bc_buf s1 !! i = Some bi ->
            exists bi0, bc_buf s !! i = Some bi0 /\
              bi = set_out (out bi) bi0).
  { intros i bi Hne Hbi.
    destruct (same_but_out_fields _ _ _ _ Hsame Hbi) as (bi0 & Hbi0 & Heq).
    rewrite list_lookup_alter_ne in Hbi0 by done. eauto. }
  destruct (lock_return_cases pid b s1 x Hx) as [[_ Hret]|[Hno _]].
  2:{ exfalso. apply Hno. rewrite Hxeq. simpl. congruence. }
  exists b, (upd b (set_lock (Some pid)) s1).
  split; [by rewrite Hg|].
  split_and!.
  - by apply inv_upd.
  - apply NoDup_app. split_and!; [done| |apply NoDup_singleton].
    intros y Hy ->%list_elem_of_singleton. done.
  - rewrite !length_app. simpl. lia.
  - intros k b' p Hk Hpk. simpl.
    destruct (decide (k < length bs)) as [Hlt|Hge].
    + rewrite lookup_app_l in Hk by done.
      rewrite lookup_app_l in Hpk by lia.
      destruct (Hheld k b' p Hk Hpk) as (bb' & Hbb' & Hd & Hn & Hr' & Hlk').
      assert (b' <> b) as Hne.
      { intros ->. apply Hb. by eapply list_elem_of_lookup_2. }
      rewrite list_lookup_alter_ne by done.
      assert (is_Some (bc_buf s1 !! b')) as [y Hy].
      { apply lookup_lt_is_Some.
        rewrite (same_but_out_length _ _ Hsame), length_alter.
        by eapply lookup_lt_Some. }
      destruct (Hkeep b' y Hne Hy) as (y0 & Hy0 & Heq).
      exists y. split; [done|]. rewrite Heq. simpl. by simplify_eq.
    + assert (k = length bs) as ->.
      { apply lookup_lt_Some in Hk. rewrite length_app in Hk.
        simpl in Hk. lia. }
      rewrite list_lookup_middle in Hk by done.
      rewrite Hlen, list_lookup_middle in Hpk by done.
      simplify_eq. rewrite list_lookup_alter_eq, Hx. simpl.
      eexists. split; [done|]. rewrite Hxeq. simpl. by split_and!.
  - intros i bi Hbi Hnot. simpl in Hbi.
    apply not_elem_of_app in Hnot as [Hibs Hib].
    assert (i <> b) as Hne by (by intros ->; apply Hib; left).
    rewrite list_lookup_alter_ne in Hbi by done.
    destruct (Hkeep i bi Hne Hbi) as (bi0 & Hbi0 & Heq).
    rewrite Heq. simpl. by eapply Hfree.
Qed.

Lemma bget_all_fresh pid qs : forall bs ps s,
  all_held pid bs ps s -> NoDup (ps ++ qs) ->
  length ps + length qs <= NBUF ->
  (forall q, q ∈ qs -> reaches q.2 (hash 0)) ->
  exists cs s', bget_all pid qs s = Done cs s' /\
    length cs = length qs /\
    all_held pid (bs ++ cs) (ps ++ qs) s'.
Proof.
  induction qs as [|[d n] qs IH]; intros bs ps s Hheld Hnd Hlen Hp.
  - exists [], s. by rewrite !app_nil_r.
  - pose proof Hheld as (_ & _ & Hbs & _).
    destruct (bget_fresh pid bs ps s d n) as (b & s1 & Hg & Hheld1).
    + done.
    + apply NoDup_app in Hnd as (_ & Hd & _). intros Hin.
      eapply Hd; [done|by left].
    + simpl in Hlen. lia.
    + apply (Hp (d, n)). by left.
    + destruct (IH (bs ++ [b]) (ps ++ [(d, n)]) s1) as (cs & s' & Hrun & Hcs & Hall).
      * done.
      * by rewrite <- app_assoc.
      * rewrite length_app. simpl in *. lia.
      * intros q Hq. apply Hp. by right.
      * exists (b :: cs), s'. simpl. rewrite Hg. simpl. rewrite Hrun. simpl.
        rewrite <- !app_assoc in Hall. simpl in Hall.
        split_and!; [done|by rewrite Hcs|done].
Qed.

Lemma binit_all_held pid dsk s0 :
  binit (boot dsk) = Done tt s0 -> all_held pid [] [] s0.
Proof.
  intros Hrun. pose proof (binit_inv dsk s0 Hrun) as Hinv.
  destruct (binit_spec dsk) as (s0' & Hrun' & _ & _ & Hz & _).
  rewrite Hrun in Hrun'. injection Hrun' as <-.
  split_and!; [done|constructor|done|..].
  - intros k b p Hk. done.
  - intros i bb Hbb%Hz _. destruct bb. cbv in Hbb. simpl.
    split_and!; congruence.
Qed.

(** On a well-formed cache [bget] uses no wild pointer and its loops
    end. *)
Lemma bget_total s pid d n :
  inv s -> bget pid d n s <> Fault /\ bget pid d n s <> Diverge.
Proof.
  intros Hinv.
  destruct (inv_chain _ _ _ _ Hinv _ (hash_lt n)) as [l Hl].
  destruct (bget_effect s pid d n l Hinv Hl)
    as [(m & -> & _)|(b & bb & s1 & Hbb & _ & -> & _ & Hsame & _)];
    [done|].
  assert (is_Some (bc_buf s1 !! b)) as [x Hx].
  { apply lookup_lt_is_Some.
    rewrite (same_but_out_length _ _ Hsame), length_alter.
    by eapply lookup_lt_Some. }
  by destruct (lock_return_cases pid b s1 x Hx) as [[_ ->]|[_ ->]].
Qed.

(** ** Acquiring as many blocks as there are unused buffers *)

Local Abbreviation held_of := (held_of NBUCKET NBUF hash).

Lemma list_missing (U bs : list nat) :
  NoDup U -> length bs < length U -> exists z, z ∈ U /\ z ∉ bs.
Proof.
  intros Hnd Hlen.
  destruct (decide (Forall (fun i => i ∈ bs) U)) as [Hall|Hex].
  - assert (U ⊆+ bs) as Hsub.
    { apply NoDup_submseteq; [done|].
      intros i Hi. by eapply Forall_forall in Hall. }
    apply submseteq_length in Hsub. lia.
  - apply not_Forall_Exists in Hex; [|apply _].
    apply Exists_exists in Hex as (i & Hi & Hnot). eauto.
Qed.

Lemma list_all_present (U bs : list nat) i :
  NoDup bs -> (forall x, x ∈ bs -> x ∈ U) -> length bs = length U ->
  i ∈ U -> i ∈ bs.
Proof.
  intros Hnd Hsub Hlen Hi.
  destruct (decide (i ∈ bs)) as [|Hnot]; [done|]. exfalso.
  assert (bs ⊆+ filter (fun x => x <> i) U) as Hle.
  { apply NoDup_submseteq; [done|]. intros x Hx.
    apply list_elem_of_filter. split; [by intros ->|by apply Hsub]. }
  apply submseteq_length in Hle.
  assert (length (filter (fun x => x <> i) U) < length U).
  { apply (length_filter_lt _ _ i); [done|by intros H; apply H]. }
  lia.
Qed.

Lemma unused_bufs_spec s i :
  i ∈ unused_bufs s <->
  exists bb, bc_buf s !! i = Some bb /\ refcnt bb = 0%Z.
Proof.
  unfold unused_bufs. rewrite list_elem_of_filter, elem_of_seq.
  unfold holds, unused. split.
  - intros [Hu _]. destruct (bc_buf s !! i) as [bb|]; [|done].
    exists bb. split; [done|]. simpl in Hu. by apply Z.eqb_eq.
  - intros (bb & Hbb & Hr). rewrite Hbb. simpl. split.
    + by apply Z.eqb_eq.
    + apply lookup_lt_Some in Hbb. lia.
Qed.

Lemma unused_bufs_NoDup s : NoDup (unused_bufs s).
Proof. apply NoDup_filter, NoDup_seq. Qed.

(** One more block on top of the blocks held, while an unused buffer is
    left: [bget] returns one of the unused buffers, now held for the
    block. *)
Lemma bget_free pid U qs bs ps s d n :
  held_of pid U qs bs ps s -> NoDup U ->
  (d, n) ∉ ps -> (d, n) ∈ qs -> length bs < length U ->
  exists b s', bget pid d n s = Done b s' /\
    held_of pid U qs (bs ++ [b]) (ps ++ [(d, n)]) s'.
Proof.
  intros (Hinv & Hnd & Hlen & Hsub & Hheld & Hfree & Hbusy) HndU Hnew Hq Hroom.
  destruct (inv_chain _ _ _ _ Hinv _ (hash_lt n)) as [l Hl].
  destruct (bget_effect s pid d n l Hinv Hl)
    as [(m & Hpanic & _)
       |(b & bb & s1 & Hbb & Hor & Hg & Hinv1 & Hsame & _)].
  { exfalso. destruct (list_missing U bs HndU Hroom) as (z & Hz & Hzbs).
    destruct (Hfree z Hz Hzbs) as (bz & Hbz & Hr & _ & Hreach).
    exact (bget_no_panic s pid d n z bz Hinv Hbz Hr (Hreach (d, n) Hq)
             m Hpanic). }
  assert (b ∉ bs) as Hb.
  { intros (k & Hk)%list_elem_of_lookup_1.
    assert (is_Some (ps !! k)) as [p Hpk].
    { apply lookup_lt_is_Some. rewrite <- Hlen. by eapply lookup_lt_Some. }
    destruct (Hheld k b p Hk Hpk) as (bb' & Hbb' & Hd & Hn & Hr & _).
    rewrite Hbb in Hbb'. injection Hbb' as <-.
    destruct Hor as [Hpick|[_ Hr0]]; [|congruence].
    destruct (pick_lookup _ _ _ _ Hpick) as (bb0 & Hbb0 & [Hd0 Hn0]%cached_true).
    rewrite Hbb in Hbb0. injection Hbb0 as <-.
    apply Hnew. apply list_elem_of_lookup_2 in Hpk.
    destruct p as [pd pn]. simpl in *. congruence. }
  assert (b ∈ U) as HbU.
  { destruct (decide (b ∈ U)) as [|Hout]; [done|]. exfalso.
    destruct (Hbusy b bb Hbb Hout) as [Hr Hid].
    destruct Hor as [Hpick|[_ Hr0]]; [|done].
    destruct (pick_lookup _ _ _ _ Hpick) as (bb0 & Hbb0 & [Hd0 Hn0]%cached_true).
    rewrite Hbb in Hbb0. injection Hbb0 as <-.
    apply Hid. by rewrite Hd0, Hn0. }
  destruct (Hfree b HbU Hb) as (bb' & Hbb' & Hr & Hlk & _).
  rewrite Hbb in Hbb'. injection Hbb' as <-.
  destruct (claim_unused d n bb Hr) as [Hr1 Hlk1].
  destruct (claim_identity d n bb) as [Hd1 Hn1].
  assert (Hlen1 : length (bc_buf s1) = length (bc_buf s))
    by (by rewrite (same_but_out_length _ _ Hsame), length_alter).
  assert (is_Some (bc_buf s1 !! b)) as [x Hx].
  { apply lookup_lt_is_Some. rewrite Hlen1. by eapply lookup_lt_Some. }
  destruct (same_but_out_fields _ _ _ _ Hsame Hx) as (x0 & Hx0 & Hxeq).
  rewrite list_lookup_alter_eq, Hbb in Hx0. simpl in Hx0.
  injection Hx0 as <-.
  assert (Hkeep : forall i bi0, i <> b -> bc_buf s !! i = Some bi0 ->
            exists bi, bc_buf s1 !! i = Some bi /\
              bi = set_out (out bi) bi0).
  { intros i bi0 Hne Hbi0.
    assert (is_Some (bc_buf s1 !! i)) as [bi Hbi].
    { apply lookup_lt_is_Some. rewrite Hlen1. by eapply lookup_lt_Some. }
    destruct (same_but_out_fields _ _ _ _ Hsame Hbi) as (y & Hy & Heq).
    rewrite list_lookup_alter_ne in Hy by done.
    exists bi. split; [done|]. congruence. }
  destruct (lock_return_cases pid b s1 x Hx) as [[_ Hret]|[Hno _]].
  2:{ exfalso. apply Hno. rewrite Hxeq. simpl. congruence. }
  exists b, (upd b (set_lock (Some pid)) s1).
  split; [by rewrite Hg|].
  split_and!.
  - by apply inv_upd.
  - apply NoDup_app. split_and!; [done| |apply NoDup_singleton].
    intros y Hy ->%list_elem_of_singleton. done.
  - rewrite !length_app. simpl. lia.
  - intros y [Hy|Hy%list_elem_of_singleton]%elem_of_app; [by apply Hsub|].
    by subst y.
  - intros k b' p Hk Hpk. simpl.
    destruct (decide (k < length bs)) as [Hlt|Hge].
    + rewrite lookup_app_l in Hk by done.
      rewrite lookup_app_l in Hpk by lia.
      destruct (Hheld k b' p Hk Hpk) as (bb' & Hbb' & Hd & Hn & Hr' & Hlk').
      assert (b' <> b) as Hne.
      { intros ->. apply Hb. by eapply list_elem_of_lookup_2. }
      rewrite list_lookup_alter_ne by done.
      destruct (Hkeep b' bb' Hne Hbb') as (y & Hy & Heq).
      exists y. split; [done|]. rewrite Heq. simpl. by split_and!.
    + assert (k = length bs) as ->.
      { apply lookup_lt_Some in Hk. rewrite length_app in Hk.
        simpl in Hk. lia. }
      rewrite list_lookup_middle in Hk by done.
      rewrite Hlen, list_lookup_middle in Hpk by done.
      injection Hk as <-. injection Hpk as <-.
      rewrite list_lookup_alter_eq, Hx. simpl.
      eexists. split; [done|]. rewrite Hxeq. simpl. by split_and!.
  - intros i HiU Hnot. apply not_elem_of_app in Hnot as [Hibs Hib].
    assert (i <> b) as Hne by (by intros ->; apply Hib; left).
    destruct (Hfree i HiU Hibs) as (bi0 & Hbi0 & Hr0 & Hlk0 & Hre).
    destruct (Hkeep i bi0 Hne Hbi0) as (bi & Hbi & Heq).
    exists bi. simpl. rewrite list_lookup_alter_ne by done.
    split; [done|]. rewrite Heq. simpl. by split_and!.
  - intros i bi Hbi HiU. simpl in Hbi.
    assert (i <> b) as Hne by (by intros ->).
    rewrite list_lookup_alter_ne in Hbi by done.
    assert (is_Some (bc_buf s !! i)) as [bi0 Hbi0].
    { apply lookup_lt_is_Some. rewrite <- Hlen1. by eapply lookup_lt_Some. }
    destruct (Hkeep i bi0 Hne Hbi0) as (bi' & Hbi' & Heq).
    rewrite Hbi in Hbi'. injection Hbi' as <-.
    rewrite Heq. simpl. by apply (Hbusy i).
Qed.

Lemma bget_all_free pid U qs rs : forall bs ps s,
  held_of pid U qs bs ps s -> NoDup U -> NoDup (ps ++ rs) ->
  (forall r, r ∈ rs -> r ∈ qs) ->
  length ps + length rs <= length U ->
  exists cs s', bget_all pid rs s = Done cs s' /\
    length cs = length rs /\
    held_of pid U qs (bs ++ cs) (ps ++ rs) s'.
Proof.
  induction rs as [|[d n] rs IH]; intros bs ps s Hheld HndU Hnd Hq Hlen.
  - exists [], s. by rewrite !app_nil_r.
  - pose proof Hheld as (_ & _ & Hbs & _).
    destruct (bget_free pid U qs bs ps s d n) as (b & s1 & Hg & Hheld1).
    + done.
    + done.
    + apply NoDup_app in Hnd as (_ & Hd & _). intros Hin.
      eapply Hd; [done|by left].
    + apply Hq. by left.
    + simpl in Hlen. lia.
    + destruct (IH (bs ++ [b]) (ps ++ [(d, n)]) s1)
        as (cs & s' & Hrun & Hcs & Hall).
      * done.
      * done.
      * by rewrite <- app_assoc.
      * intros r Hr. apply Hq. by right.
      * rewrite length_app. simpl in *. lia.
      * exists (b :: cs), s'. simpl. rewrite Hg. simpl. rewrite Hrun. simpl.
        rewrite <- !app_assoc in Hall. simpl in Hall.
        split_and!; [done|by rewrite Hcs|done].
Qed.

(** With as many blocks held as there were unused buffers, no buffer is
    unused. *)
Lemma held_of_full pid U qs bs ps s i bb :
  held_of pid U qs bs ps s -> length ps = length U ->
  bc_buf s !! i = Some bb -> refcnt bb <> 0%Z.
Proof.
  intros (_ & Hnd & Hlen & Hsub & Hheld & _ & Hbusy) Hfull Hbb.
  destruct (decide (i ∈ U)) as [HiU|Hout]; [|by apply (Hbusy i)].
  assert (i ∈ bs) as (k & Hk)%list_elem_of_lookup_1
    by (apply (list_all_present U); [done|done|lia|done]).
  assert (is_Some (ps !! k)) as [p Hpk].
  { apply lookup_lt_is_Some. rewrite <- Hlen. by eapply lookup_lt_Some. }
  destruct (Hheld k i p Hk Hpk) as (bb' & Hbb' & _ & _ & Hr & _).
  rewrite Hbb in Hbb'. injection Hbb' as <-. lia.
Qed.


Lemma reverse_seq_S m : reverse (seq 0 (S m)) = m :: reverse (seq 0 m).
Proof. by rewrite seq_S, reverse_app. Qed.

(** C10: after [binit] on the zeroed [bcache], the list of bucket
    [hash(0)] holds all [NBUF] buffers, each once, the other lists are empty,
    and [refcnt] and [valid] of every buffer are 0.  So [bget] for a block of
    another bucket finds its own list empty and goes to the third loop; what
    it returns is the head of the list of bucket [hash(0)], moved to the
    list of the block; and it does return it when its probes get to bucket
    [hash(0)] and there is a buffer at all. *)
Theorem binit_all_in_first_bucket dsk :
  exists s0, binit (boot dsk) = Done tt s0 /\
    bucket s0 (hash 0) = Some (reverse (seq 0 NBUF)) /\
    NoDup (reverse (seq 0 NBUF)) /\
    (forall i, i < NBUF -> i ∈ reverse (seq 0 NBUF)) /\
    (forall k, k < NBUCKET -> k <> hash 0 -> bucket s0 k = Some []) /\
    length (bc_buf s0) = NBUF /\
    (forall i b, bc_buf s0 !! i = Some b ->
       refcnt b = 0%Z /\ valid b = 0%Z) /\
    (forall pid d n, hash n <> hash 0 ->
       bucket s0 (hash n) = Some [] /\
       bget pid d n s0 = steal (NBUCKET - 1) 1%Z pid d n s0 /\
       (forall b s', bget pid d n s0 <> Sleep b s') /\
       (forall b s', bget pid d n s0 = Done b s' ->
          S b = NBUF /\
          exists s2, stolen d n b s0 = Done tt s2 /\
            s' = upd b (set_lock (Some pid)) s2 /\
            bucket s2 (hash n) = Some [b] /\
            bucket s2 (hash 0) = Some (reverse (seq 0 b))) /\
       (reaches n (hash 0) -> 0 < NBUF ->
          exists s', bget pid d n s0 = Done (NBUF - 1) s')).
Proof.
  destruct (binit_spec dsk) as (s0 & Hrun & Hl0 & Hk & Hz & Hn & Hm & _).
  pose proof (binit_inv dsk s0 Hrun) as Hinv.
  assert (Hzero : forall i b, bc_buf s0 !! i = Some b ->
            refcnt b = 0%Z /\ valid b = 0%Z /\ lock b = None).
  { intros i b Hb%Hz. destruct b. cbv in Hb. simpl. split_and!; congruence. }
  exists s0. split_and!; try done.
  - by apply in_bucket_bucket.
  - by eapply in_bucket_NoDup.
  - intros i Hi. rewrite elem_of_reverse, elem_of_seq. lia.
  - intros k Hlt Hne. by apply in_bucket_bucket, Hk.
  - intros i b Hb. destruct (Hzero i b Hb) as (? & ? & _). done.
  - intros pid d n Hne.
    pose proof (Hk _ (hash_lt n) Hne) as Hln.
    assert (Hg : bget pid d n s0 = steal (NBUCKET - 1) 1%Z pid d n s0).
    { by rewrite (bget_unfold _ _ _ _ []). }
    assert (Hres : forall b s2 j l bz,
              in_bucket s0 (hash (wrap (n + j))) l ->
              pick unused (bc_buf s0) l = Some b ->
              bc_buf s0 !! b = Some bz ->
              stolen d n b s0 = Done tt s2 ->
              S b = NBUF /\
              lock_return pid b s2
              = Done b (upd b (set_lock (Some pid)) s2) /\
              bucket s2 (hash n) = Some [b] /\
              bucket s2 (hash 0) = Some (reverse (seq 0 b))).
    { intros b s2 j l bz Hl Hpick Hbz Hst.
      assert (hash (wrap (n + j)) = hash 0) as Hj.
      { destruct (decide (hash (wrap (n + j)) = hash 0)) as [|Hnj]; [done|].
        rewrite (in_bucket_det _ _ _ _ Hl (Hk _ (hash_lt _) Hnj)) in Hpick.
        done. }
      rewrite Hj in Hl. rewrite (in_bucket_det _ _ _ _ Hl Hl0) in Hpick.
      destruct (decide (NBUF = 0)) as [HN|HN]; [by rewrite HN in Hpick|].
      pose proof (reverse_seq_S (NBUF - 1)) as Hrev.
      replace (S (NBUF - 1)) with NBUF in Hrev by lia.
      set (m := NBUF - 1) in *.
      assert (Hl0' := Hl0). rewrite Hrev in Hpick, Hl0'. simpl in Hpick.
      assert (is_Some (bc_buf s0 !! m)) as [bm Hbm]
        by (apply lookup_lt_is_Some; lia).
      destruct (Hzero m bm Hbm) as (Hr & _ & _).
      unfold holds, unused in Hpick. rewrite Hbm in Hpick. simpl in Hpick.
      rewrite Hr in Hpick. simpl in Hpick. injection Hpick as <-.
      destruct (stolen_spec s0 d n m bz Hinv Hbz)
        as (s2' & Hst' & Hlists & _).
      rewrite Hst in Hst'. injection Hst' as <-.
      destruct (stolen_identity s0 d n m bz s2 Hinv Hbz Hst)
        as (b2 & Hb2 & Heq).
      destruct (Hzero m bz Hbz) as (_ & _ & Hlk).
      split_and!.
      - lia.
      - destruct (lock_return_cases pid m s2 b2 Hb2) as [[_ ->]|[Hno _]];
          [done|]. exfalso. apply Hno. by rewrite Heq.
      - apply in_bucket_bucket. pose proof (Hlists _ _ Hln) as Hl2.
        by rewrite decide_True in Hl2 by done.
      - apply in_bucket_bucket. pose proof (Hlists _ _ Hl0') as Hl2.
        rewrite decide_False in Hl2 by done.
        rewrite filter_cons_False in Hl2 by (by intros H; apply H).
        rewrite filter_ne_absent in Hl2; [done|].
        rewrite elem_of_reverse, elem_of_seq. lia. }
    split_and!.
    + by apply in_bucket_bucket.
    + done.
    + intros b s' Hsl. rewrite Hg in Hsl.
      destruct (steal_spec s0 pid d n Hinv (NBUCKET - 1) 1%Z)
        as [(m & Hp & _)|(j & l & b' & bz & s2 & _ & _ & Hl & Hpick & Hbz & _ & Hst & Heq)];
        [congruence|].
      destruct (Hres b' s2 j l bz Hl Hpick Hbz Hst) as (_ & Hret & _).
      congruence.
    + intros b s' Hdone. rewrite Hg in Hdone.
      destruct (steal_spec s0 pid d n Hinv (NBUCKET - 1) 1%Z)
        as [(m & Hp & _)|(j & l & b' & bz & s2 & _ & _ & Hl & Hpick & Hbz & _ & Hst & Heq)];
        [congruence|].
      destruct (Hres b' s2 j l bz Hl Hpick Hbz Hst) as (HS & Hret & Hb1 & Hb2).
      rewrite Heq, Hret in Hdone. injection Hdone as <- <-.
      split; [done|]. by exists s2.
    + intros Hp Hpos.
      assert (is_Some (bc_buf s0 !! 0)) as [bz Hbz]
        by (apply lookup_lt_is_Some; lia).
      destruct (Hzero 0 bz Hbz) as (Hr & _).
      assert (blockno bz = 0%Z) as Hb0.
      { apply Hz in Hbz. destruct bz. cbv in Hbz. simpl. congruence. }
      rewrite <- Hb0 in Hp.
      pose proof (bget_no_panic s0 pid d n 0 bz Hinv Hbz Hr Hp) as Hnp.
      rewrite Hg in Hnp |- *.
      destruct (steal_spec s0 pid d n Hinv (NBUCKET - 1) 1%Z)
        as [(m & Hpanic & _)|(j & l & b' & bz' & s2 & _ & _ & Hl & Hpick & Hbz' & _ & Hst & Heq)].
      { by apply Hnp in Hpanic. }
      destruct (Hres b' s2 j l bz' Hl Hpick Hbz' Hst) as (HS & Hret & _).
      rewrite Heq, Hret. replace (NBUF - 1) with b' by lia. eauto.
Qed.

(** * Further properties of the code *)

(** ** [put] *)

Lemma seg_head (bs : list buf) p i l q : seg bs p (i :: l) q -> p = Some i.
Proof. by inversion 1. Qed.

(** In a segment that arrives at buffer [q], every node points to a node
    of the segment or to [q]. *)
Lemma seg_next (bs : list buf) p l q :
  seg bs p l (Some q) ->
  forall i, i ∈ l -> exists b j, bs !! i = Some b /\ out b = Some j /\
    j ∈ l ++ [q].
Proof.
  induction l as [|x l IH] in p |- *; intros Hseg i Hi.
  { by apply elem_of_nil in Hi. }
  inversion Hseg as [|i' b l' q' Hb Hrest]; subst.
  apply elem_of_cons in Hi as [->|Hi].
  - exists b. destruct l as [|y l].
    + inversion Hrest; subst. exists q. split_and!; [done..|].
      right. by left.
    + apply seg_head in Hrest as Hy. exists y. split_and!; [done..|].
      right. by left.
  - destruct (IH _ Hrest i Hi) as (b' & j & Hb' & Hj & Hin).
    exists b', j. split_and!; [done..|]. by right.
Qed.

(** A set of buffers that is closed under [out]: a traversal that enters
    it goes on for ever. *)
Lemma scan_closed P (bs : list buf) (X : list nat) :
  (forall i, i ∈ X -> exists b j, bs !! i = Some b /\ P b = false /\
     out b = Some j /\ j ∈ X) ->
  forall f i, i ∈ X -> scan P f bs (Some i) = Loop.
Proof.
  intros HX f. induction f as [|f IH]; intros i Hi; [done|].
  destruct (HX i Hi) as (b & j & Hb & HP & Hj & Hin).
  simpl. rewrite Hb, HP, Hj. by apply IH.
Qed.

Lemma walk_closed (bs : list buf) (X : list nat) :
  (forall i, i ∈ X -> exists b j, bs !! i = Some b /\
     out b = Some j /\ j ∈ X) ->
  forall f i, i ∈ X -> walk f bs (Some i) = None.
Proof.
  intros HX f. induction f as [|f IH]; intros i Hi; [done|].
  destruct (HX i Hi) as (b & j & Hb & Hj & Hin).
  simpl. rewrite Hb, Hj. by rewrite IH.
Qed.

(** X1: [put(key, val)] for a buffer [val] that is not on the list of
    bucket [hash(key)] makes it the first node of that list, in front of the
    nodes that were there; it changes the [out] field of [val] and the head
    of the bucket and nothing else, so every other list that does not hold
    [val] is as it was. *)
Theorem put_pushes_front s key val bv l :
  bucket s (hash key) = Some l ->
  bc_buf s !! val = Some bv ->
  val ∉ l ->
  exists s', put key val s = Done tt s' /\
    bucket s' (hash key) = Some (val :: l) /\
    bc_buf s' !! val = Some (set_out (head l) bv) /\
    (forall i, i <> val -> bc_buf s' !! i = bc_buf s !! i) /\
    bc_head s' !! hash key = Some (Some val) /\
    (forall k, k <> hash key -> bc_head s' !! k = bc_head s !! k) /\
    (forall k l', k <> hash key -> bucket s k = Some l' -> val ∉ l' ->
       bucket s' k = Some l') /\
    disk s' = disk s /\ io_log s' = io_log s.
Proof.
  intros Hl%in_bucket_bucket Hbv Hnot.
  destruct (put_bucket s key val bv l Hl Hbv Hnot) as (h & Hh & Hput & Hin).
  assert (h = head l) as Hhead.
  { destruct Hl as (h' & Hh' & Hc). rewrite Hh in Hh'. injection Hh' as <-.
    destruct l as [|x l]; [by inversion Hc|by apply seg_head in Hc]. }
  eexists. split; [exact Hput|]. split_and!.
  - by apply in_bucket_bucket.
  - simpl. by rewrite list_lookup_alter_eq, Hbv, Hhead.
  - intros i Hne. simpl. by rewrite list_lookup_alter_ne.
  - simpl. apply list_lookup_insert_eq. by eapply lookup_lt_Some.
  - intros k Hne. simpl. by rewrite list_lookup_insert_ne.
  - intros k l' Hne Hl'%in_bucket_bucket Hv.
    by apply in_bucket_bucket, put_other.
  - done.
  - done.
Qed.

(** X2: [put] does not look whether the buffer is on the list already.
    For a buffer that is, the list of the bucket becomes cyclic: it has no
    end any more, and the first loop of [bget], looking on it for a block
    that none of its buffers holds, does not terminate. *)
Theorem put_linked_cycles s key val l pid d n :
  bucket s (hash key) = Some l ->
  val ∈ l ->
  hash n = hash key ->
  (forall i, i ∈ l -> holds (cached d n) (bc_buf s) i = false) ->
  exists s', put key val s = Done tt s' /\
    bucket s' (hash key) = None /\
    bget pid d n s' = Diverge.
Proof.
  intros (h & Hh & Hc)%in_bucket_bucket Hin Hn Hmiss.
  destruct (seg_lookup _ _ _ _ _ Hc Hin) as [bv Hbv].
  apply list_elem_of_split in Hin as (l1 & l2 & ->).
  pose proof (chain_NoDup _ _ _ Hc) as Hnd.
  apply NoDup_app in Hnd as (_ & Hsep & _).
  assert (val ∉ l1) as Hv1 by (intros Hv; eapply Hsep; [done|by left]).
  destruct (chain_split _ _ _ _ _ Hc) as [Hseg _].
  assert (exists j, h = Some j /\ j ∈ l1 ++ [val]) as (j0 & -> & Hj0).
  { destruct l1 as [|x l1].
    - inversion Hseg; subst. exists val. split; [done|by left].
    - apply seg_head in Hseg as ->. exists x. split; [done|by left]. }
  set (s' := set_head (hash key) (Some val) (upd val (set_out (Some j0)) s)).
  assert (Hclosed : forall i, i ∈ l1 ++ [val] ->
            exists b j, bc_buf s' !! i = Some b /\ cached d n b = false /\
              out b = Some j /\ j ∈ l1 ++ [val]).
  { intros i [Hi|Hi%list_elem_of_singleton]%elem_of_app; [|subst i].
    - destruct (seg_next _ _ _ _ Hseg i Hi) as (b & j & Hb & Hj & Hjin).
      assert (i <> val) as Hne by (by intros ->).
      exists b, j. simpl. rewrite list_lookup_alter_ne by done.
      split_and!; [done| |done..].
      specialize (Hmiss i). unfold holds in Hmiss. rewrite Hb in Hmiss.
      apply Hmiss. apply elem_of_app. by left.
    - exists (set_out (Some j0) bv), j0. simpl.
      rewrite list_lookup_alter_eq, Hbv. split_and!; [done| |done..].
      specialize (Hmiss val). unfold holds in Hmiss. rewrite Hbv in Hmiss.
      apply Hmiss. apply elem_of_app. right. by left. }
  assert (val ∈ l1 ++ [val]) as Hval by (apply elem_of_app; right; by left).
  assert (Hhead : bc_head s' !! hash key = Some (Some val)).
  { simpl. apply list_lookup_insert_eq. by eapply lookup_lt_Some. }
  exists s'. split_and!.
  - unfold put. by rewrite Hh, Hbv.
  - unfold bucket. rewrite Hhead.
    apply (walk_closed _ (l1 ++ [val])); [|done].
    intros i Hi. destruct (Hclosed i Hi) as (b & j & ? & _ & ? & ?). eauto.
  - unfold bget. rewrite Hn, Hhead.
    rewrite (scan_closed _ _ (l1 ++ [val])); [done| |done].
    intros i Hi. destruct (Hclosed i Hi) as (b & j & ? & ? & ? & ?).
    exists b, j. by split_and!.
Qed.

(** X3: [remove] undoes [put].  When [val] is pushed on the list of the
    bucket of its own block number, where it was not, and removed again, the
    list heads and all buffers are as before, but for the [out] field of
    [val], which [remove] leaves null; the list is the old one. *)
Theorem put_remove_round_trip s key val bv l :
  bucket s (hash key) = Some l ->
  bc_buf s !! val = Some bv ->
  val ∉ l ->
  hash (blockno bv) = hash key ->
  exists s1, put key val s = Done tt s1 /\
    remove val s1 = Done tt (upd val (set_out None) s) /\
    bucket (upd val (set_out None) s) (hash key) = Some l.
Proof.
  intros Hl%in_bucket_bucket Hbv Hnot Hk.
  destruct (put_bucket s key val bv l Hl Hbv Hnot) as (h & Hh & Hput & Hin).
  eexists. split; [exact Hput|].
  set (s1 := set_head (hash key) (Some val) (upd val (set_out h) s)) in *.
  assert (Hb1 : bc_buf s1 !! val = Some (set_out h bv)).
  { simpl. by rewrite list_lookup_alter_eq, Hbv. }
  destruct Hin as (h1 & Hh1 & Hc1).
  split.
  - rewrite (remove_member s1 val _ h1 [] l Hb1); [|by simpl; rewrite Hk|done].
    f_equal. unfold detach, s1, upd, set_head. simpl. rewrite Hk.
    rewrite list_insert_insert_eq, list_insert_id by done.
    by rewrite list_alter_alter_eq.
  - apply in_bucket_bucket. revert Hl. apply in_bucket_frame_on; [done|].
    intros j Hj. simpl. rewrite list_lookup_alter_ne; [done|by intros ->].
Qed.

(** ** Taking and giving back a reference *)

Lemma wrap_incr_decr (r : Z) :
  (0 <= r < 2 ^ 32)%Z -> wrap (wrap (r + 1) - 1) = r.
Proof.
  intros Hr. unfold wrap. rewrite Zminus_mod_idemp_l.
  replace (r + 1 - 1)%Z with r by lia. by apply Z.mod_small.
Qed.

Lemma wrap_decr_incr (r : Z) :
  (0 <= r < 2 ^ 32)%Z -> wrap (wrap (r - 1) + 1) = r.
Proof.
  intros Hr. unfold wrap. rewrite Zplus_mod_idemp_l.
  replace (r - 1 + 1)%Z with r by lia. by apply Z.mod_small.
Qed.

Lemma upd_id s i f b :
  bc_buf s !! i = Some b -> f b = b -> upd i f s = s.
Proof.
  intros Hb Hf. destruct s as [bs hs dk io]. unfold upd. simpl in *.
  f_equal. apply list_eq. intros j. destruct (decide (j = i)) as [->|Hne].
  - rewrite list_lookup_alter_eq, Hb. simpl. by rewrite Hf.
  - by rewrite list_lookup_alter_ne.
Qed.

Lemma upd_upd s i f g : upd i f (upd i g s) = upd i (f ∘ g) s.
Proof. unfold upd. simpl. by rewrite list_alter_alter_eq. Qed.

(** X4: a [bread] of a block that is cached, valid and not locked,
    followed by the [brelse] of the buffer, leaves the cache exactly as it
    was: the reference and the lock are taken and given back, nothing is
    read, and no list is touched. *)
Theorem bread_brelse_round_trip s pid d n l b bb :
  bucket s (hash n) = Some l ->
  pick (cached d n) (bc_buf s) l = Some b ->
  bc_buf s !! b = Some bb ->
  lock bb = None ->
  valid bb <> 0%Z ->
  (0 <= refcnt bb < 2 ^ 32)%Z ->
  exists s1, bread pid d n s = Done b s1 /\
    bc_buf s1 !! b = Some (set_lock (Some pid) (incr bb)) /\
    brelse pid b s1 = Done tt s.
Proof.
  intros Hl%in_bucket_bucket Hpick Hbb Hlock Hvalid Hr.
  set (s1 := upd b (set_lock (Some pid)) (upd b incr s)).
  assert (Hb1 : bc_buf s1 !! b = Some (set_lock (Some pid) (incr bb))).
  { simpl. by rewrite !list_lookup_alter_eq, Hbb. }
  exists s1. split_and!; [|done|].
  - unfold bread. rewrite (bget_unfold s pid d n l Hl), Hpick.
    unfold lock_return, acquiresleep. simpl.
    rewrite list_lookup_alter_eq, Hbb. simpl. rewrite Hlock. simpl.
    unfold bread_fill. fold s1. rewrite Hb1. simpl.
    by destruct (Z.eqb_spec (valid bb) 0).
  - unfold brelse. rewrite Hb1. unfold holdingsleep. simpl.
    rewrite bool_decide_true by done. f_equal.
    unfold releasesleep, s1. rewrite !upd_upd.
    apply (upd_id _ _ _ bb); [done|].
    destruct bb as [v dv bn lk r o dt]. unfold decr, incr, set_lock,
      set_refcnt. simpl in *. subst lk. f_equal. by apply wrap_incr_decr.
Qed.

(** X5: [bunpin] undoes [bpin], and [bpin] undoes [bunpin], on every
    buffer, also where the count wraps around (from [2^32 - 1] to 0, and
    from 0 to [2^32 - 1]). *)
Theorem bpin_bunpin_round_trip s b bb :
  bc_buf s !! b = Some bb ->
  (0 <= refcnt bb < 2 ^ 32)%Z ->
  (exists s1, bpin b s = Done tt s1 /\ bunpin b s1 = Done tt s) /\
  (exists s1, bunpin b s = Done tt s1 /\ bpin b s1 = Done tt s).
Proof.
  intros Hbb Hr. split.
  - exists (upd b incr s). unfold bpin, bunpin. rewrite Hbb. simpl.
    rewrite list_lookup_alter_eq, Hbb. simpl. split; [done|]. f_equal.
    rewrite upd_upd. apply (upd_id _ _ _ bb); [done|].
    destruct bb. unfold decr, incr, set_refcnt. simpl in *. f_equal.
    by apply wrap_incr_decr.
  - exists (upd b decr s). unfold bpin, bunpin. rewrite Hbb. simpl.
    rewrite list_lookup_alter_eq, Hbb. simpl. split; [done|]. f_equal.
    rewrite upd_upd. apply (upd_id _ _ _ bb); [done|].
    destruct bb. unfold decr, incr, set_refcnt. simpl in *. f_equal.
    by apply wrap_decr_incr.
Qed.

(** ** [debug_bucket] *)

Local Abbreviation debug_bucket := (debug_bucket hash).
Local Abbreviation lists := (lists NBUCKET).

Lemma to_int_small (x : Z) : (- 2 ^ 31 <= x < 2 ^ 31)%Z -> to_int x = x.
Proof. intros Hx. unfold to_int. rewrite Z.mod_small by lia. lia. Qed.

Lemma count_up_small k : forall c,
  (0 <= c)%Z -> (c + Z.of_nat k < 2 ^ 31)%Z ->
  count_up k c = (c + Z.of_nat k)%Z.
Proof.
  induction k as [|k IH]; intros c Hc Hlt.
  - unfold count_up. simpl. lia.
  - unfold count_up in *. rewrite Nat.iter_succ_r.
    rewrite to_int_small by lia. rewrite IH by lia. lia.
Qed.

(** The loop of [debug_bucket] on a well-formed list. *)
Lemma debug_loop_chain s : forall l f e cnt acc,
  chain (bc_buf s) e l -> length l <= f ->
  exists bl, Forall2 (fun i b => bc_buf s !! i = Some b) l bl /\
    debug_loop f e cnt acc s
    = Done (acc ++ (line_of <$> bl) ++ [Total (count_up (length l) cnt)]) s.
Proof.
  induction l as [|i l IH]; intros f e cnt acc Hc Hlen.
  - inversion Hc; subst. exists []. split; [constructor|]. by destruct f.
  - inversion Hc as [|i' b l' q Hb Hrest]; subst.
    destruct f as [|f]; [simpl in Hlen; lia|].
    destruct (IH f (out b) (to_int (cnt + 1)) (acc ++ [line_of b]) Hrest)
      as (bl & HF & Hrun); [simpl in Hlen; lia|].
    exists (b :: bl). split; [by constructor|].
    cbn [debug_loop]. rewrite Hb, Hrun. rewrite <- app_assoc.
    cbn [length]. unfold count_up. by rewrite Nat.iter_succ_r.
Qed.

(** X6: [debug_bucket(blockno)] writes one line for every buffer on the
    list of bucket [hash(blockno)], in the order of the list, with the block
    number and the reference count of the buffer, and then the number of
    buffers on the list; it changes nothing in the cache. *)
Theorem debug_bucket_report s n l :
  bucket s (hash n) = Some l ->
  (Z.of_nat (length l) < 2 ^ 31)%Z ->
  exists bl, Forall2 (fun i b => bc_buf s !! i = Some b) l bl /\
    debug_bucket n s
    = Done ((line_of <$> bl) ++ [Total (Z.of_nat (length l))]) s.
Proof.
  intros Hl%in_bucket_bucket Hlen.
  pose proof (in_bucket_length _ _ _ Hl) as Hfuel.
  destruct Hl as (h & Hh & Hc).
  destruct (debug_loop_chain s l (fuel s) h 0%Z [] Hc Hfuel)
    as (bl & HF & Hrun).
  exists bl. split; [done|]. unfold debug_bucket. rewrite Hh, Hrun.
  by rewrite count_up_small by lia.
Qed.

(** ** All the lists together *)

Lemma NoDup_join_map (f : nat -> list nat) (ks : list nat) :
  NoDup ks ->
  (forall k, k ∈ ks -> NoDup (f k)) ->
  (forall k k' i, k ∈ ks -> k' ∈ ks -> i ∈ f k -> i ∈ f k' -> k = k') ->
  NoDup (mjoin (f <$> ks)).
Proof.
  induction ks as [|k ks IH]; intros Hnd Hf Hdis; [constructor|].
  apply NoDup_cons in Hnd as [Hk Hnd]. simpl. apply NoDup_app. split_and!.
  - apply Hf. by left.
  - intros i Hi (l' & Hil & (k' & -> & Hk')%list_elem_of_fmap)%list_elem_of_join.
    assert (k = k') as <- by (eapply Hdis; [by left|by right|done..]).
    done.
  - apply IH; [done|..].
    + intros k' Hk'. apply Hf. by right.
    + intros k1 k2 i H1 H2. apply Hdis; by right.
Qed.

(** X7: in every state reached from [binit], the lists of the buckets
    taken together hold every buffer of the pool once: they are a
    permutation of the buffers 0 .. NBUF-1, and the numbers of buffers that
    [debug_bucket] counts on the [NBUCKET] lists add up to [NBUF]. *)
Theorem buckets_partition s :
  reachable s ->
  length (lists s) = NBUCKET /\
  (forall k, k < NBUCKET ->
     exists l, bucket s k = Some l /\ lists s !! k = Some l) /\
  mjoin (lists s) ≡ₚ seq 0 NBUF /\
  length (mjoin (lists s)) = NBUF.
Proof.
  intros Hinv%reachable_inv.
  assert (Hk : forall k, k < NBUCKET ->
            exists l, in_bucket s k l /\ default [] (bucket s k) = l).
  { intros k Hlt. destruct (inv_chain _ _ _ _ Hinv k Hlt) as [l Hl].
    exists l. split; [done|]. apply in_bucket_bucket in Hl. by rewrite Hl. }
  assert (Hperm : mjoin (lists s) ≡ₚ seq 0 NBUF).
  { apply NoDup_Permutation.
    - apply NoDup_join_map; [apply NoDup_seq|..].
      + intros k Hin%elem_of_seq. destruct (Hk k) as (l & Hl & ->); [lia|].
        by eapply in_bucket_NoDup.
      + intros k k' i Hin%elem_of_seq Hin'%elem_of_seq.
        destruct (Hk k) as (l & Hl & ->); [lia|].
        destruct (Hk k') as (l' & Hl' & ->); [lia|].
        intros Hi Hi'. by eapply (inv_one_bucket s k k' l l' i).
    - apply NoDup_seq.
    - intros i. rewrite elem_of_seq. split.
      + intros (l & Hil & (k & -> & Hin%elem_of_seq)%list_elem_of_fmap)%list_elem_of_join.
        destruct (Hk k) as (l & Hl & Heq); [lia|]. rewrite Heq in Hil.
        destruct (in_bucket_lookup _ _ _ _ Hl Hil) as [b Hb].
        apply lookup_lt_Some in Hb.
        rewrite (inv_nbuf _ _ _ _ Hinv) in Hb. lia.
      + intros [_ Hi]. simpl in Hi.
        rewrite <- (inv_nbuf _ _ _ _ Hinv) in Hi.
        apply lookup_lt_is_Some in Hi as [b Hb].
        destruct (inv_member _ _ _ _ Hinv i b Hb) as (l & Hl & Hil).
        apply list_elem_of_join. exists l. split; [done|].
        apply list_elem_of_fmap. exists (hash (blockno b)). split.
        * apply in_bucket_bucket in Hl. by rewrite Hl.
        * apply elem_of_seq. pose proof (hash_lt (blockno b)). lia. }
  split_and!.
  - unfold lists. by rewrite length_fmap, length_seq.
  - intros k Hlt. destruct (Hk k Hlt) as (l & Hl & Heq).
    exists l. split; [by apply in_bucket_bucket|].
    unfold lists. rewrite list_lookup_fmap, lookup_seq_lt by done.
    simpl. by rewrite Heq.
  - done.
  - by rewrite Hperm, length_seq.
Qed.

(** ** [binit] on a cache that is not zeroed *)

Lemma heads_cleared n : forall s,
  exists s', fold_left (fun s' i => set_head i None s') (seq 0 n) s = s' /\
    bc_buf s' = bc_buf s /\ disk s' = disk s /\ io_log s' = io_log s /\
    length (bc_head s') = length (bc_head s) /\
    (forall k, k < n -> k < length (bc_head s) ->
       bc_head s' !! k = Some None).
Proof.
  induction n as [|n IH]; intros s.
  - exists s. split_and!; try done. intros k Hk. lia.
  - destruct (IH s) as (s1 & Hrun & Hb & Hd & Hio & Hlen & Hk).
    exists (set_head n None s1). rewrite seq_S, fold_left_app, Hrun.
    split_and!; try done.
    + simpl. by rewrite length_insert.
    + intros k Hlt Hkl. simpl. destruct (decide (k = n)) as [->|Hne].
      * apply list_lookup_insert_eq. by rewrite Hlen.
      * rewrite list_lookup_insert_ne by done. apply Hk; [lia|done].
Qed.

(** The second loop of [binit] on any buffers: it sets the links and the
    locks and leaves the other fields. *)
Lemma binit_bufs_gen bs : forall s done,
  in_bucket s (hash 0) done ->
  NoDup bs ->
  (forall b, b ∈ bs -> (b ∉ done) /\ b < length (bc_buf s)) ->
  exists s', binit_bufs hash bs s = Done tt s' /\
    in_bucket s' (hash 0) (reverse bs ++ done) /\
    (forall i b, bc_buf s !! i = Some b ->
       exists b', bc_buf s' !! i = Some b' /\
         if decide (i ∈ bs) then b' = set_out (out b') (set_lock None b)
         else b' = b) /\
    length (bc_buf s') = length (bc_buf s) /\
    length (bc_head s') = length (bc_head s) /\
    (forall k, k <> hash 0 -> bc_head s' !! k = bc_head s !! k) /\
    disk s' = disk s /\ io_log s' = io_log s.
Proof.
  induction bs as [|b bs IH]; intros s done Hd Hnd Hbs.
  - exists s. split_and!; try done. intros i b Hb. exists b.
    split; [done|]. rewrite decide_False; [done|apply not_elem_of_nil].
  - apply NoDup_cons in Hnd as [Hb Hnd].
    destruct (Hbs b) as [Hbd Hlt]; [by left|].
    apply lookup_lt_is_Some in Hlt as [bb Hbb].
    set (s1 := upd b (set_out None) (upd b (set_lock None) s)).
    assert (Hb1 : bc_buf s1 !! b = Some (set_out None (set_lock None bb))).
    { unfold s1. simpl. by rewrite !list_lookup_alter_eq, Hbb. }
    assert (Hd1 : in_bucket s1 (hash 0) done).
    { revert Hd. apply in_bucket_frame_on; [done|]. intros j Hj.
      unfold s1. simpl. rewrite !list_lookup_alter_ne; [done|..];
        by intros ->. }
    destruct (put_bucket s1 0 b _ done Hd1 Hb1 Hbd) as (h & Hh & Hput & Hbk).
    set (s2 := set_head (hash 0) (Some b) (upd b (set_out h) s1)) in *.
    destruct (IH s2 (b :: done))
      as (s' & Hrun & Hl & Hf & Hn & Hm & Hk & Hdk & Hio).
    + done.
    + done.
    + intros x Hx. destruct (Hbs x) as [Hxd Hxl]; [by right|]. split.
      * apply not_elem_of_cons. split; [|done]. by intros ->.
      * unfold s2, s1. simpl. by rewrite !length_alter.
    + exists s'. split_and!; try done.
      * change (bind (put 0 b s1) (fun _ s1' => binit_bufs hash bs s1')
                = Done tt s'). by rewrite Hput.
      * by rewrite reverse_cons, <- app_assoc.
      * intros i bi Hbi. destruct (decide (i = b)) as [->|Hne].
        -- rewrite Hbb in Hbi. injection Hbi as <-.
           destruct (Hf b (set_out h (set_out None (set_lock None bb))))
             as (b' & Hb' & Hcase).
           { unfold s2, s1. simpl. by rewrite !list_lookup_alter_eq, Hbb. }
           exists b'. split; [done|]. rewrite decide_False in Hcase by done.
           rewrite decide_True by (by left). by rewrite Hcase.
        -- destruct (Hf i bi) as (b' & Hb' & Hcase).
           { unfold s2, s1. simpl. by rewrite !list_lookup_alter_ne. }
           exists b'. split; [done|].
           destruct (decide (i ∈ bs)) as [Hin|Hin].
           ++ by rewrite decide_True by (by right).
           ++ rewrite decide_False; [done|].
              by intros [?|?]%elem_of_cons.
      * rewrite Hn. unfold s2, s1. simpl. by rewrite !length_alter.
      * rewrite Hm. unfold s2. simpl. by rewrite length_insert.
      * intros k Hne. rewrite Hk by done. unfold s2. simpl.
        by rewrite list_lookup_insert_ne.
Qed.

(** X8: [binit] builds the lists without looking at what they were: on
    any contents of [bcache], every buffer ends up on the list of bucket
    [hash(0)], the last buffer first, and every other list is empty.  It
    writes the links and the locks only: [dev], [blockno], [valid], [refcnt]
    and the data of a buffer stay what they were.  So the buffers are on the
    list of their block number exactly when all block numbers hash to bucket
    [hash(0)], as they do in the zeroed memory of the boot. *)
Theorem binit_rebuilds s :
  length (bc_buf s) = NBUF ->
  length (bc_head s) = NBUCKET ->
  exists s', binit s = Done tt s' /\
    bucket s' (hash 0) = Some (reverse (seq 0 NBUF)) /\
    (forall k, k < NBUCKET -> k <> hash 0 -> bucket s' k = Some []) /\
    (forall i b, bc_buf s !! i = Some b ->
       exists b', bc_buf s' !! i = Some b' /\
         b' = set_out (out b') (set_lock None b)) /\
    disk s' = disk s /\ io_log s' = io_log s /\
    (inv s' <->
     forall i b, bc_buf s !! i = Some b -> hash (blockno b) = hash 0).
Proof.
  intros Hn Hm. unfold binit.
  destruct (heads_cleared NBUCKET s) as (s1 & -> & Hb1 & Hd1 & Hio1 & Hm1 & Hh1).
  destruct (binit_bufs_gen (seq 0 NBUF) s1 [])
    as (s' & Hrun & Hl & Hf & Hn' & Hm' & Hk & Hdk & Hio).
  { exists None. split; [|constructor]. apply Hh1; [apply hash_lt|].
    rewrite Hm. apply hash_lt. }
  { apply NoDup_seq. }
  { intros b Hb%elem_of_seq. split; [apply not_elem_of_nil|].
    rewrite Hb1, Hn. lia. }
  rewrite app_nil_r in Hl.
  assert (Hother : forall k, k < NBUCKET -> k <> hash 0 -> in_bucket s' k []).
  { intros k Hlt Hne. exists None. split; [|constructor].
    rewrite Hk by done. apply Hh1; [done|by rewrite Hm]. }
  assert (Hfields : forall i b, bc_buf s !! i = Some b ->
            exists b', bc_buf s' !! i = Some b' /\
              b' = set_out (out b') (set_lock None b)).
  { intros i b Hb. pose proof (lookup_lt_Some _ _ _ Hb) as Hi.
    rewrite <- Hb1 in Hb. destruct (Hf i b Hb) as (b' & Hb' & Hcase).
    rewrite decide_True in Hcase by (apply elem_of_seq; lia). eauto. }
  assert (Hlen : length (bc_buf s') = NBUF) by congruence.
  exists s'. split_and!; try done.
  - by apply in_bucket_bucket.
  - intros k Hlt Hne. by apply in_bucket_bucket, Hother.
  - congruence.
  - congruence.
  - split.
    + intros Hinv i b Hb. destruct (Hfields i b Hb) as (b' & Hb' & Heq).
      rewrite <- (inv_hash _ _ _ _ Hinv (hash 0) _ i b' Hl);
        [by rewrite Heq| |done].
      rewrite elem_of_reverse, elem_of_seq.
      apply lookup_lt_Some in Hb. lia.
    + intros Hall.
      assert (Hback : forall i b', bc_buf s' !! i = Some b' ->
                (i ∈ reverse (seq 0 NBUF)) /\ hash (blockno b') = hash 0).
      { intros i b' Hb'. pose proof (lookup_lt_Some _ _ _ Hb') as Hi.
        rewrite Hlen, <- Hn in Hi.
        apply lookup_lt_is_Some in Hi as [b Hb].
        destruct (Hfields i b Hb) as (b2 & Hb2 & Heq).
        rewrite Hb' in Hb2. injection Hb2 as <-. split.
        - rewrite elem_of_reverse, elem_of_seq.
          apply lookup_lt_Some in Hb. lia.
        - rewrite Heq. simpl. by eapply Hall. }
      split.
      * done.
      * by rewrite Hm', Hm1.
      * intros k Hlt. destruct (decide (k = hash 0)) as [->|Hne]; eauto.
      * intros i b' Hb'. destruct (Hback i b' Hb') as [Hin Hh].
        rewrite Hh. eauto.
      * intros k l i b' Hkl Hil Hb'. destruct (Hback i b' Hb') as [_ Hh].
        destruct (decide (k = hash 0)) as [->|Hne]; [done|]. exfalso.
        assert (k < NBUCKET) as Hlt.
        { destruct Hkl as (h & Hh' & _). apply lookup_lt_Some in Hh'.
          by rewrite Hm', Hm1, Hm in Hh'. }
        rewrite (in_bucket_det _ _ _ _ Hkl (Hother k Hlt Hne)) in Hil.
        by apply elem_of_nil in Hil.
Qed.

(** ** What [bget] does to the buffers *)

Lemma same_lock_fields (x y : buf) :
  set_lock None x = set_lock None y ->
  dev x = dev y /\ blockno x = blockno y /\ valid x = valid y /\
  data x = data y /\ refcnt x = refcnt y.
Proof.
  intros H. split_and!.
  - exact (f_equal dev H).
  - exact (f_equal blockno H).
  - exact (f_equal valid H).
  - exact (f_equal data H).
  - exact (f_equal refcnt H).
Qed.

(** X9: [bget] never takes a buffer away from its users.  Whatever block
    is asked for, a buffer with [refcnt != 0] keeps its device, its block
    number, its [valid] flag and its data; its reference count changes only
    when it holds the block that is asked for, by the one reference that
    [bget] adds. *)
Theorem bget_keeps_in_use s pid d n s' :
  reachable s ->
  settle (bget pid d n s) = Some s' ->
  forall i bi, bc_buf s !! i = Some bi -> refcnt bi <> 0%Z ->
    exists bi', bc_buf s' !! i = Some bi' /\
      dev bi' = dev bi /\ blockno bi' = blockno bi /\
      valid bi' = valid bi /\ data bi' = data bi /\
      (refcnt bi' = refcnt bi \/
       (dev bi = d /\ blockno bi = n /\
        refcnt bi' = wrap (refcnt bi + 1))).
Proof.
  intros Hinv%reachable_inv Hset i bi Hbi Hr.
  destruct (inv_chain _ _ _ _ Hinv _ (hash_lt n)) as [l Hl].
  destruct (bget_effect s pid d n l Hinv Hl)
    as [(m & Hp & _)|(b & bb & s1 & Hbb & Hor & Hg & _ & Hsame & _)].
  { by rewrite Hp in Hset. }
  assert (Hlen : length (bc_buf s1) = length (bc_buf s))
    by (by rewrite (same_but_out_length _ _ Hsame), length_alter).
  assert (is_Some (bc_buf s1 !! b)) as [x Hx].
  { apply lookup_lt_is_Some. rewrite Hlen. by eapply lookup_lt_Some. }
  assert (is_Some (bc_buf s1 !! i)) as [y Hy].
  { apply lookup_lt_is_Some. rewrite Hlen. by eapply lookup_lt_Some. }
  assert (exists bi', bc_buf s' !! i = Some bi' /\
            set_lock None bi' = set_lock None y) as (bi' & Hbi' & Hlk).
  { rewrite Hg in Hset.
    destruct (lock_return_cases pid b s1 x Hx) as [[_ Heq]|[_ Heq]];
      rewrite Heq in Hset; simpl in Hset; injection Hset as <-; [|eauto].
    simpl. destruct (decide (i = b)) as [->|Hne].
    - rewrite list_lookup_alter_eq, Hy. simpl. eauto.
    - rewrite list_lookup_alter_ne by done. eauto. }
  exists bi'. split; [done|].
  destruct (same_lock_fields _ _ Hlk) as (-> & -> & -> & -> & ->).
  destruct (same_but_out_fields _ _ _ _ Hsame Hy) as (y0 & Hy0 & ->).
  simpl. destruct (decide (i = b)) as [->|Hne].
  - rewrite list_lookup_alter_eq, Hbb in Hy0. simpl in Hy0.
    injection Hy0 as <-. rewrite Hbi in Hbb. injection Hbb as <-.
    destruct Hor as [Hpick|[_ H0]]; [|done].
    destruct (pick_lookup _ _ _ _ Hpick) as (b0 & Hb0 & Hc).
    rewrite Hbi in Hb0. injection Hb0 as <-.
    unfold claim. rewrite Hc. simpl. split_and!; try done.
    right. by apply cached_true in Hc as [-> ->].
  - rewrite list_lookup_alter_ne, Hbi in Hy0 by done.
    injection Hy0 as <-. split_and!; try done. by left.
Qed.

(** X10: a [bread] of a block that no buffer on the list of its bucket
    holds takes a buffer that was unused, binds it to the block and reads
    the block from the disk, once: the buffer comes back locked by the
    caller, with [refcnt = 1], [valid = 1] and the content of the block on
    the disk, whatever block and data it held before. *)
Theorem bread_miss_reads_disk s pid d n l b s' :
  reachable s ->
  bucket s (hash n) = Some l ->
  pick (cached d n) (bc_buf s) l = None ->
  bread pid d n s = Done b s' ->
  exists bb bb', bc_buf s !! b = Some bb /\ refcnt bb = 0%Z /\
    bc_buf s' !! b = Some bb' /\ dev bb' = d /\ blockno bb' = n /\
    valid bb' = 1%Z /\ refcnt bb' = 1%Z /\ lock bb' = Some pid /\
    data bb' = disk s d n /\
    io_log s' = io_log s ++ [Io false d n] /\ disk s' = disk s.
Proof.
  intros Hinv%reachable_inv Hl%in_bucket_bucket Hmiss Hread.
  destruct (bget_effect s pid d n l Hinv Hl)
    as [(m & Hp & _)
       |(b0 & bb & s1 & Hbb & Hor & Hg & _ & Hsame & _ & Hdk & Hio)].
  { unfold bread in Hread. by rewrite Hp in Hread. }
  destruct Hor as [Hpick|[_ H0]]; [congruence|].
  assert (cached d n bb = false) as Hc.
  { destruct (cached d n bb) eqn:Hc; [|done]. exfalso.
    apply cached_true in Hc as Hid. destruct Hid as [_ Hn].
    destruct (inv_member _ _ _ _ Hinv b0 bb Hbb) as (l' & Hl' & Hin).
    rewrite Hn in Hl'. rewrite (in_bucket_det _ _ _ _ Hl' Hl) in Hin.
    pose proof (proj1 (pick_None _ _ _) Hmiss b0 Hin) as Hf.
    unfold holds in Hf. rewrite Hbb in Hf. simpl in Hf. congruence. }
  assert (is_Some (bc_buf s1 !! b0)) as [x Hx].
  { apply lookup_lt_is_Some.
    rewrite (same_but_out_length _ _ Hsame), length_alter.
    by eapply lookup_lt_Some. }
  destruct (same_but_out_fields _ _ _ _ Hsame Hx) as (x0 & Hx0 & Hxeq).
  rewrite list_lookup_alter_eq, Hbb in Hx0. simpl in Hx0.
  injection Hx0 as <-. unfold claim in Hxeq. rewrite Hc in Hxeq.
  unfold bread in Hread. rewrite Hg in Hread.
  destruct (lock_return_cases pid b0 s1 x Hx) as [[Hlk Heq]|[_ Heq]];
    rewrite Heq in Hread; [|done].
  simpl in Hread.
  destruct (bread_fill_cases (upd b0 (set_lock (Some pid)) s1) b0
              (set_lock (Some pid) x))
    as (s2 & bb1 & Hfill & Hb1 & Hbeq & _ & _ & _ & Hdk2 & Hv0 & _).
  { simpl. by rewrite list_lookup_alter_eq, Hx. }
  rewrite Hfill in Hread. injection Hread as <- <-.
  destruct Hv0 as (Hio2 & Hv1 & Hdata); [by rewrite Hxeq|].
  exists bb, bb1. rewrite Hxeq in Hbeq, Hio2, Hdata. simpl in *.
  split_and!; try done.
  - by rewrite Hbeq.
  - by rewrite Hbeq.
  - by rewrite Hbeq.
  - by rewrite Hbeq.
  - by rewrite Hdata, Hdk.
  - by rewrite Hio2, Hio.
  - by rewrite Hdk2, Hdk.
Qed.

(** X11: a [bget] that is served from the bucket of the block, by a
    buffer that holds the block or by an unused buffer of that list, moves no
    buffer: every list head and every link is as before, so the lists keep
    their order and nothing is brought to the front. *)
Theorem bget_own_bucket_keeps_lists s pid d n l s' :
  bucket s (hash n) = Some l ->
  pick (cached d n) (bc_buf s) l <> None \/
    pick unused (bc_buf s) l <> None ->
  settle (bget pid d n s) = Some s' ->
  bc_head s' = bc_head s /\
  (forall i, out <$> bc_buf s' !! i = out <$> bc_buf s !! i) /\
  (forall k, bucket s' k = bucket s k).
Proof.
  intros Hl%in_bucket_bucket Hserved Hset.
  assert (exists b f, (forall x, out (f x) = out x) /\
            bget pid d n s = lock_return pid b (upd b f s))
    as (b & f & Hf & Hg).
  { rewrite (bget_unfold s pid d n l Hl).
    destruct (pick (cached d n) (bc_buf s) l) as [b|].
    - by exists b, incr.
    - destruct (pick unused (bc_buf s) l) as [b|].
      + by exists b, (rebind d n).
      + by destruct Hserved. }
  rewrite Hg in Hset. unfold lock_return, acquiresleep in Hset.
  destruct (bc_buf (upd b f s) !! b) as [x|]; [|done].
  assert (Hout : forall g i, (forall y, out (g y) = out y) ->
            out <$> alter g b (bc_buf s) !! i = out <$> bc_buf s !! i).
  { intros g i Hg'. by apply lookup_alter_out. }
  destruct (lock x); simpl in Hset; injection Hset as <-.
  - split_and!; [done|by intros i; apply Hout|by intros k; apply bucket_upd].
  - split_and!; [done| |].
    + intros i. simpl. rewrite lookup_alter_out by done. by apply Hout.
    + intros k. by rewrite !bucket_upd.
Qed.

(** ** The order in which [bget] looks for an unused buffer *)

Lemma lock_return_result pid b s b' s' :
  lock_return pid b s = Done b' s' \/ lock_return pid b s = Sleep b' s' ->
  b' = b.
Proof.
  unfold lock_return, acquiresleep.
  destruct (bc_buf s !! b) as [bb|]; [|by intros [|]].
  destruct (lock bb); simpl; intros [H|H]; congruence.
Qed.

(** The third loop takes the first unused buffer of the first bucket that
    has one. *)
Lemma steal_first s pid d blk : inv s -> forall n i b s',
  steal n (Z.of_nat i) pid d blk s = Done b s' \/
  steal n (Z.of_nat i) pid d blk s = Sleep b s' ->
  exists j lj, i <= j < i + n /\
    in_bucket s (hash (wrap (blk + Z.of_nat j))) lj /\
    pick unused (bc_buf s) lj = Some b /\
    forall j' l', i <= j' < j ->
      in_bucket s (hash (wrap (blk + Z.of_nat j'))) l' ->
      pick unused (bc_buf s) l' = None.
Proof.
  intros Hinv. induction n as [|n IH]; intros i b s' Hres.
  { by destruct Hres. }
  destruct (inv_chain _ _ _ _ Hinv _ (hash_lt (wrap (blk + Z.of_nat i))))
    as [li Hli].
  rewrite (steal_unfold _ _ _ _ _ _ li) in Hres by done.
  destruct (decide (hash blk = hash (wrap (blk + Z.of_nat i))));
    [by destruct Hres|].
  destruct (pick unused (bc_buf s) li) as [b0|] eqn:Hpick.
  - destruct (pick_lookup _ _ _ _ Hpick) as (bz & Hbz & _).
    destruct (stolen_spec s d blk b0 bz Hinv Hbz) as (s2 & Hst & _).
    rewrite Hst in Hres. simpl in Hres.
    apply lock_return_result in Hres as ->.
    exists i, li. split_and!; [lia|lia|done..|]. intros j' l' Hj'. lia.
  - replace (Z.of_nat i + 1)%Z with (Z.of_nat (S i)) in Hres by lia.
    destruct (IH (S i) b s' Hres) as (j & lj & Hj & Hlj & Hpj & Hbefore).
    exists j, lj. split_and!; [lia|lia|done..|].
    intros j' l' Hj' Hl'. destruct (decide (j' = i)) as [->|Hne].
    + by rewrite (in_bucket_det _ _ _ _ Hl' Hli).
    + apply (Hbefore j'); [lia|done].
Qed.

(** X12: the buffer that [bget] binds to a block that is not cached is
    found by first fit, not by age: it is the first unused buffer on the
    list of the bucket of the block, and when that list has none, the first
    unused buffer on the list of bucket [hash(blockno + j)] for the least
    [j] in 1 .. NBUCKET-1 whose list has one. *)
Theorem bget_takes_first_unused s pid d n l b s' :
  reachable s ->
  bucket s (hash n) = Some l ->
  pick (cached d n) (bc_buf s) l = None ->
  bget pid d n s = Done b s' \/ bget pid d n s = Sleep b s' ->
  pick unused (bc_buf s) l = Some b \/
  (pick unused (bc_buf s) l = None /\
   exists j lj, 1 <= j < NBUCKET /\
     bucket s (hash (wrap (n + Z.of_nat j))) = Some lj /\
     pick unused (bc_buf s) lj = Some b /\
     forall j' l', 1 <= j' < j ->
       bucket s (hash (wrap (n + Z.of_nat j'))) = Some l' ->
       pick unused (bc_buf s) l' = None).
Proof.
  intros Hinv%reachable_inv Hl%in_bucket_bucket Hmiss Hres.
  rewrite (bget_unfold s pid d n l Hl), Hmiss in Hres.
  destruct (pick unused (bc_buf s) l) as [b0|] eqn:Hfree.
  - left. by apply lock_return_result in Hres as ->.
  - right. split; [done|]. change 1%Z with (Z.of_nat 1) in Hres.
    destruct (steal_first s pid d n Hinv _ _ _ _ Hres)
      as (j & lj & Hj & Hlj & Hpj & Hbefore).
    pose proof (hash_lt n).
    exists j, lj. split_and!; [lia|lia|by apply in_bucket_bucket|done|].
    intros j' l' Hj' Hl'%in_bucket_bucket. by apply (Hbefore j').
Qed.

(** ** When [bget] panics *)

Lemma steal_panic_msg s pid d blk :
  inv s -> probe_ok blk -> forall n i m,
  1 <= i -> i + n = NBUCKET ->
  steal n (Z.of_nat i) pid d blk s = Panic m -> m = msg_no_buffers.
Proof.
  intros Hinv Hp. induction n as [|n IH]; intros i m Hi Hsum Hpanic.
  { simpl in Hpanic. congruence. }
  destruct (inv_chain _ _ _ _ Hinv _ (hash_lt (wrap (blk + Z.of_nat i))))
    as [li Hli].
  rewrite (steal_unfold _ _ _ _ _ _ li) in Hpanic by done.
  rewrite decide_False in Hpanic.
  2:{ intros Heq. symmetry in Heq. revert Heq.
      apply probe_no_collision; [done|lia]. }
  destruct (pick unused (bc_buf s) li) as [b0|] eqn:Hpick.
  - destruct (pick_lookup _ _ _ _ Hpick) as (bz & Hbz & _).
    destruct (stolen_spec s d blk b0 bz Hinv Hbz) as (s2 & Hst & _).
    rewrite Hst in Hpanic. simpl in Hpanic.
    by apply lock_return_no_panic in Hpanic.
  - replace (Z.of_nat i + 1)%Z with (Z.of_nat (S i)) in Hpanic by lia.
    apply (IH (S i)); [lia|lia|done].
Qed.

(** X13: when the probe sequence of the block is regular, [bget] panics
    only when the pool is exhausted: then every buffer of the cache is in
    use, none of them holds the block, and the message is the one of the end
    of [bget]; the panic of the third loop is not reached. *)
Theorem bget_panics_only_when_exhausted s pid d n m :
  reachable s ->
  probe_ok n ->
  bget pid d n s = Panic m ->
  m = msg_no_buffers /\
  forall i b, bc_buf s !! i = Some b ->
    refcnt b <> 0%Z /\ ~ (dev b = d /\ blockno b = n).
Proof.
  intros Hinv%reachable_inv Hp Hpanic.
  destruct (inv_chain _ _ _ _ Hinv _ (hash_lt n)) as [l Hl].
  split.
  - rewrite (bget_unfold s pid d n l Hl) in Hpanic.
    destruct (pick (cached d n) (bc_buf s) l);
      [by apply lock_return_no_panic in Hpanic|].
    destruct (pick unused (bc_buf s) l);
      [by apply lock_return_no_panic in Hpanic|].
    change 1%Z with (Z.of_nat 1) in Hpanic. pose proof (hash_lt n).
    by apply (steal_panic_msg s pid d n Hinv Hp (NBUCKET - 1) 1 m);
      [lia|lia|].
  - intros i b Hb. split.
    + intros Hr. refine (bget_no_panic s pid d n i b Hinv Hb Hr _ m Hpanic).
      apply probe_ok_reaches; [done|apply hash_lt].
    + intros [Hd Hn].
      destruct (bget_effect s pid d n l Hinv Hl)
        as [(m' & _ & _ & Hmiss & _)|(b0 & bb & s1 & _ & _ & Hg & _)].
      2:{ rewrite Hg in Hpanic. by apply lock_return_no_panic in Hpanic. }
      destruct (inv_member _ _ _ _ Hinv i b Hb) as (l' & Hl' & Hin).
      rewrite Hn in Hl'. rewrite (in_bucket_det _ _ _ _ Hl' Hl) in Hin.
      pose proof (proj1 (pick_None _ _ _) Hmiss i Hin) as Hf.
      unfold holds in Hf. rewrite Hb in Hf. simpl in Hf.
      assert (cached d n b = true) by (by apply cached_true). congruence.
Qed.

Lemma steal_collision s pid d blk j :
  inv s ->
  hash (wrap (blk + Z.of_nat j)) = hash blk ->
  forall n i, i <= j < i + n ->
  (forall j' l', i <= j' < j ->
     in_bucket s (hash (wrap (blk + Z.of_nat j'))) l' ->
     pick unused (bc_buf s) l' = None) ->
  steal n (Z.of_nat i) pid d blk s = Panic msg_no_buffer.
Proof.
  intros Hinv Hj. induction n as [|n IH]; intros i Hi Hnone; [lia|].
  destruct (inv_chain _ _ _ _ Hinv _ (hash_lt (wrap (blk + Z.of_nat i))))
    as [li Hli].
  rewrite (steal_unfold _ _ _ _ _ _ li) by done.
  destruct (decide (hash blk = hash (wrap (blk + Z.of_nat i))))
    as [|Hne]; [done|].
  assert (i <> j) as Hij by (intros ->; by rewrite Hj in Hne).
  rewrite (Hnone i li) by (done || lia).
  replace (Z.of_nat i + 1)%Z with (Z.of_nat (S i)) by lia.
  apply IH; [lia|]. intros j' l' Hj'. apply Hnone. lia.
Qed.

(** X14: the third loop gives up as soon as a probe [hash(blockno + i)]
    comes back to the bucket of the block itself.  When the list of that
    bucket has neither the block nor an unused buffer, and the buckets probed
    before the collision have no unused buffer, [bget] panics with the
    message of the third loop, whatever unused buffers the buckets that it
    has not probed yet may hold.  With [x % NBUCKET] this happens where
    [blockno + i] wraps around [2^32]. *)
Theorem bget_probe_collision_panics s pid d n l j :
  reachable s ->
  bucket s (hash n) = Some l ->
  pick (cached d n) (bc_buf s) l = None ->
  pick unused (bc_buf s) l = None ->
  1 <= j < NBUCKET ->
  hash (wrap (n + Z.of_nat j)) = hash n ->
  (forall j' l', 1 <= j' < j ->
     bucket s (hash (wrap (n + Z.of_nat j'))) = Some l' ->
     pick unused (bc_buf s) l' = None) ->
  bget pid d n s = Panic msg_no_buffer.
Proof.
  intros Hinv%reachable_inv Hl%in_bucket_bucket Hmiss Hfull Hj Hcol Hnone.
  rewrite (bget_unfold s pid d n l Hl), Hmiss, Hfull.
  change 1%Z with (Z.of_nat 1).
  apply (steal_collision s pid d n j Hinv Hcol); [lia|].
  intros j' l' Hj' Hl'%in_bucket_bucket. by apply (Hnone j').
Qed.

(** ** Termination and pointers *)

(** X15: on every state reached from [binit], the loops over the lists
    terminate and no pointer leaves the buffer array: [bget] and [bread]
    return, sleep or panic; [remove] and [put] of a buffer of the array
    return; [debug_bucket] returns. *)
Theorem traversals_safe s :
  reachable s ->
  (forall pid d n,
     bget pid d n s <> Fault /\ bget pid d n s <> Diverge /\
     bread pid d n s <> Fault /\ bread pid d n s <> Diverge) /\
  (forall b, b < NBUF ->
     (exists s', remove b s = Done tt s') /\
     (forall key, exists s', put key b s = Done tt s')) /\
  (forall n, exists lines, debug_bucket n s = Done lines s).
Proof.
  intros Hinv%reachable_inv. split_and!.
  - intros pid d n. destruct (bget_total s pid d n Hinv) as [Hf Hd].
    split; [done|]. split; [done|]. unfold bread.
    destruct (bget pid d n s) as [b s1| | | |] eqn:Hg; try done. simpl.
    destruct (bget_done s pid d n b s1 Hinv Hg)
      as (s0 & x & -> & Hx & _).
    destruct (bread_fill_cases (upd b (set_lock (Some pid)) s0) b
                (set_lock (Some pid) x)) as (s2 & bb1 & -> & _).
    { simpl. by rewrite list_lookup_alter_eq, Hx. }
    done.
  - intros b Hb. rewrite <- (inv_nbuf _ _ _ _ Hinv) in Hb.
    apply lookup_lt_is_Some in Hb as [bb Hbb]. split.
    + destruct (inv_bucket_of s b bb Hinv Hbb) as (l1 & l2 & h & Hh & Hc).
      rewrite (remove_member s b bb h l1 l2 Hbb Hh Hc). eauto.
    + intros key. unfold put.
      pose proof (hash_lt key) as Hk.
      rewrite <- (inv_nbucket _ _ _ _ Hinv) in Hk.
      apply lookup_lt_is_Some in Hk as [h ->]. rewrite Hbb. eauto.
  - intros n. destruct (inv_chain _ _ _ _ Hinv _ (hash_lt n)) as [l Hl].
    pose proof (in_bucket_length _ _ _ Hl) as Hfuel.
    destruct Hl as (h & Hh & Hc).
    destruct (debug_loop_chain s l (fuel s) h 0%Z [] Hc Hfuel)
      as (bl & _ & Hrun).
    unfold debug_bucket. rewrite Hh, Hrun. eauto.
Qed.

End Proofs.

(** ** The small configuration *)

Lemma hash_mod_lt M x : 0 < M -> hash_mod M x < M.
Proof.
  intros HM. unfold hash_mod.
  pose proof (Z.mod_pos_bound x (Z.of_nat M)). lia.
Qed.

(** With [x % NBUCKET] the probe sequence of a block is regular unless
    [blockno + i] wraps around. *)
Lemma hash_mod_probe_ok M blk :
  0 < M -> (0 <= blk)%Z -> (blk + Z.of_nat M <= 2 ^ 32)%Z ->
  probe_ok M (hash_mod M) blk.
Proof.
  intros HM Hb Hlt i Hi. unfold hash_mod, wrap.
  rewrite (Z.mod_small (blk + Z.of_nat i)) by lia.
  apply Nat2Z.inj. rewrite Nat2Z.inj_mod, Nat2Z.inj_add.
  pose proof (Z.mod_pos_bound blk (Z.of_nat M)).
  pose proof (Z.mod_pos_bound (blk + Z.of_nat i) (Z.of_nat M)).
  rewrite !Z2Nat.id by lia.
  by rewrite Z.add_mod_idemp_l by lia.
Qed.

Lemma mod_add_small (a m i : Z) :
  (0 < m)%Z -> (0 <= i)%Z -> (a mod m + i < m)%Z ->
  ((a + i) mod m = a mod m + i)%Z.
Proof.
  intros Hm Hi Hlt. rewrite <- Z.add_mod_idemp_l by lia.
  apply Z.mod_small. pose proof (Z.mod_pos_bound a m). lia.
Qed.

Lemma mod_add_rest (a m : Z) :
  (0 < m)%Z -> ((a + (m - a mod m)) mod m = 0)%Z.
Proof.
  intros Hm. rewrite <- Z.add_mod_idemp_l by lia.
  replace (a mod m + (m - a mod m))%Z with m by lia. apply Z.mod_same. lia.
Qed.

(** With [x % NBUCKET], [bget] gets to bucket [hash(0)] for every block
    number, also when [blockno + i] wraps around: the probes go up from the
    bucket of the block, and both the end of the table of buckets and the
    wrap-around lead to bucket 0. *)
Lemma hash_mod_reaches M blk :
  0 < M -> (0 <= blk < 2 ^ 32)%Z ->
  reaches M (hash_mod M) blk (hash_mod M 0).
Proof.
  intros HM Hb.
  assert (hash_mod M 0 = 0) as ->
    by (by unfold hash_mod; rewrite Z.mod_0_l by lia).
  destruct (decide (hash_mod M blk = 0)) as [|Hne]; [by left|right].
  unfold hash_mod in *.
  set (m := Z.of_nat M) in *. set (r := (blk mod m)%Z) in *.
  assert (0 < m)%Z as Hm by lia.
  assert (0 < r < m)%Z as Hr.
  { pose proof (Z.mod_pos_bound blk m Hm) as H. fold r in H. lia. }
  assert (Hstep : forall i : nat,
            (Z.of_nat i < m - r)%Z -> (blk + Z.of_nat i < 2 ^ 32)%Z ->
            1 <= i ->
            Z.to_nat (wrap (blk + Z.of_nat i) mod m) <> Z.to_nat r).
  { intros i Hi Hw H1. unfold wrap.
    rewrite (Z.mod_small (blk + Z.of_nat i)) by lia.
    rewrite mod_add_small by (fold r; lia). fold r. lia. }
  destruct (decide (blk + (m - r) < 2 ^ 32)%Z) as [Hcase|Hcase].
  - exists (Z.to_nat (m - r)). split_and!; [lia|lia| |].
    + unfold wrap. rewrite Z2Nat.id by lia.
      rewrite (Z.mod_small (blk + (m - r))) by lia.
      unfold r. by rewrite mod_add_rest.
    + intros i Hi. destruct (decide (i = Z.to_nat (m - r))) as [->|Hi'].
      * unfold wrap. rewrite Z2Nat.id by lia.
        rewrite (Z.mod_small (blk + (m - r))) by lia.
        unfold r. rewrite mod_add_rest by done. fold r. lia.
      * apply Hstep; lia.
  - exists (Z.to_nat (2 ^ 32 - blk)). split_and!; [lia|lia| |].
    + unfold wrap. rewrite Z2Nat.id by lia.
      replace (blk + (2 ^ 32 - blk))%Z with (2 ^ 32)%Z by lia.
      rewrite Z.mod_same by lia. by rewrite Z.mod_0_l by lia.
    + intros i Hi.
      destruct (decide (i = Z.to_nat (2 ^ 32 - blk))) as [->|Hi'].
      * unfold wrap. rewrite Z2Nat.id by lia.
        replace (blk + (2 ^ 32 - blk))%Z with (2 ^ 32)%Z by lia.
        rewrite Z.mod_same by lia. rewrite Z.mod_0_l by lia. lia.
      * apply Hstep; lia.
Qed.

Lemma small_hash_lt x : Small.hash x < 2.
Proof. apply hash_mod_lt. lia. Qed.

Lemma small_reaches p :
  p ∈ Small.blocks -> reaches 2 Small.hash p.2 (Small.hash 0).
Proof.
  intros Hp. unfold Small.blocks in Hp.
  repeat (apply elem_of_cons in Hp as [->|Hp];
          [apply hash_mod_reaches; simpl; lia|]).
  by apply elem_of_nil in Hp.
Qed.

Lemma small_reachable : reachable 2 4 Small.hash Small.s1.
Proof.
  exists Small.dsk, Small.s0, Small.trace. split; vm_compute; reflexivity.
Qed.

Lemma small_reachable_legal : reachable_legal 2 4 Small.hash Small.s1.
Proof.
  exists Small.dsk, Small.s0, Small.trace. split; vm_compute; reflexivity.
Qed.

Lemma small_reachable_s0 : reachable 2 4 Small.hash Small.s0.
Proof. exists Small.dsk, Small.s0, []. split; vm_compute; reflexivity. Qed.

Lemma small_reachable_after_bread : reachable 2 4 Small.hash Small.after_bread.
Proof.
  exists Small.dsk, Small.s0, [Bread 7 1 11]. split; vm_compute; reflexivity.
Qed.

(** The buffers of [after_bread]: three as [binit] left them, and the one
    that process 7 holds. *)
Lemma small_after_bread_bufs i b :
  bc_buf Small.after_bread !! i = Some b ->
  (refcnt b = 0%Z /\ lock b = None /\ blockno b = 0%Z) \/
  (refcnt b = 1%Z /\ dev b = 1%Z /\ blockno b = 11%Z).
Proof.
  intros H. destruct i as [|[|[|[|i]]]]; vm_compute in H;
    try discriminate H; injection H as <-; auto.
Qed.

Lemma every_buffer_on_one_list_witness :
  reachable 2 4 Small.hash Small.s1 /\
  (forall i, i < 4 -> one_bucket Small.s1 i).
Proof.
  split; [exact small_reachable|].
  exact (proj1 (every_buffer_on_one_list 2 4 Small.hash small_hash_lt
                  Small.s1 small_reachable)).
Defined.

Lemma buffer_on_list_of_its_block_witness :
  reachable 2 4 Small.hash Small.s1 /\
  (forall k l i b, bucket Small.s1 k = Some l -> i ∈ l ->
     bc_buf Small.s1 !! i = Some b -> Small.hash (blockno b) = k).
Proof.
  split; [exact small_reachable|].
  exact (proj1 (proj2 (buffer_on_list_of_its_block 2 4 Small.hash
                         small_hash_lt Small.s1 small_reachable))).
Defined.

Lemma one_buffer_per_block_witness :
  reachable_legal 2 4 Small.hash Small.s1 /\
  (forall i j bi bj,
     bc_buf Small.s1 !! i = Some bi -> bc_buf Small.s1 !! j = Some bj ->
     refcnt bi <> 0%Z -> refcnt bj <> 0%Z ->
     dev bi = dev bj -> blockno bi = blockno bj -> i = j).
Proof.
  split; [exact small_reachable_legal|].
  exact (proj1 (one_buffer_per_block 2 4 Small.hash small_hash_lt
                  Small.s1 small_reachable_legal)).
Defined.

Lemma bread_reads_when_invalid_witness :
  reachable 2 4 Small.hash Small.s0 /\
  bread 2 Small.hash 7 1 11 Small.s0 = Done 3 Small.after_bread /\
  exists s2 s3,
    brelse 7 3 Small.after_bread = Done tt s2 /\
    bread 2 Small.hash 8 1 11 s2 = Done 3 s3 /\
    io_log s3 = io_log s2.
Proof.
  split; [exact small_reachable_s0|]. split; [reflexivity|].
  destruct (proj2 (bread_reads_when_invalid 2 4 Small.hash small_hash_lt
                     Small.s0 7 1 11 small_reachable_s0)
              3 Small.after_bread eq_refl)
    as (bb1 & s2 & _ & _ & _ & _ & _ & Hrel & _ & Hagain).
  destruct (Hagain 8%Z) as (s3 & Hread & Hio).
  exists s2, s3. by split_and!.
Defined.

Lemma remove_spec_witness :
  bc_buf Small.s0 !! 2 = Some Small.buf2 /\
  bucket Small.s0 (Small.hash (blockno Small.buf2)) = Some [3; 2; 1; 0] /\
  exists l1 l2 s1, [3; 2; 1; 0] = l1 ++ 2 :: l2 /\
    remove Small.hash 2 Small.s0 = Done tt s1 /\
    bucket s1 (Small.hash (blockno Small.buf2)) = Some (l1 ++ l2).
Proof.
  split; [reflexivity|]. split; [reflexivity|].
  destruct (proj2 (remove_spec Small.hash Small.s0 2 Small.buf2 [3; 2; 1; 0]
                     eq_refl eq_refl))
    as (l1 & l2 & s1 & Hl & Hrem & Hb & _).
  - right. left.
  - exists l1, l2, s1. by split_and!.
Defined.

(** [remove] on a buffer that is not on the list of its bucket does not
    panic: it returns, and the state is as it was. *)
Lemma remove_absent_returns :
  bc_buf Small.s_off !! 3 = Some zero_buf /\
  bucket Small.s_off (Small.hash (blockno zero_buf)) = Some [2; 1; 0] /\
  (3 ∉ [2; 1; 0]) /\
  remove Small.hash 3 Small.s_off = Done tt Small.s_off /\
  (forall m, remove Small.hash 3 Small.s_off <> Panic m).
Proof.
  split_and!; try reflexivity.
  - intros H. repeat (apply elem_of_cons in H as [H|H]; [done|]).
    by apply elem_of_nil in H.
  - intros m H. vm_compute in H. discriminate H.
Qed.



Lemma bwrite_spec_witness :
  bc_buf Small.after_bread !! 3 = Some Small.buf3 /\
  exists s', bwrite 7 3 Small.after_bread = Done tt s' /\
    bc_buf s' = bc_buf Small.after_bread /\
    io_log s' = io_log Small.after_bread ++ [Io true 1 11].
Proof.
  split; [reflexivity|].
  destruct (proj2 (bwrite_spec 7 3 Small.after_bread Small.buf3 eq_refl)
              eq_refl)
    as (s' & Hw & Hb & _ & Hio & _).
  exists s'. by split_and!.
Defined.

Lemma brelse_spec_witness :
  bc_buf Small.after_bread !! 3 = Some Small.buf3 /\
  exists s', brelse 7 3 Small.after_bread = Done tt s' /\
    bc_buf s' !! 3 = Some (set_refcnt 0 (set_lock None Small.buf3)) /\
    (forall k, bucket s' k = bucket Small.after_bread k).
Proof.
  split; [reflexivity|].
  destruct (proj2 (brelse_spec 7 3 Small.after_bread Small.buf3 eq_refl)
              eq_refl)
    as (s' & Hr & Hb & _ & _ & _ & Hk & _).
  exists s'. by split_and!.
Defined.

Lemma bpin_bunpin_spec_witness :
  bc_buf Small.after_bread !! 3 = Some Small.buf3 /\
  exists s1 s2 s3,
    bpin 3 Small.after_bread = Done tt s1 /\
    brelse 7 3 s1 = Done tt s2 /\
    bc_buf s2 !! 3 = Some (set_refcnt 1 (set_lock None Small.buf3)) /\
    bunpin 3 s2 = Done tt s3 /\
    bc_buf s3 !! 3 = Some (set_refcnt 0 (set_lock None Small.buf3)).
Proof.
  split; [reflexivity|].
  destruct (proj2 (proj2 (bpin_bunpin_spec 7 3 Small.after_bread Small.buf3
                            eq_refl)) eq_refl eq_refl)
    as (s1 & s2 & s3 & H1 & _ & H2 & H3 & H4 & H5 & _).
  exists s1, s2, s3. by split_and!.
Defined.

Lemma binit_all_in_first_bucket_witness :
  (forall x, Small.hash x < 2) /\
  exists s0, binit 2 4 Small.hash (boot 2 4 Small.dsk) = Done tt s0 /\
    bucket s0 (Small.hash 0) = Some [3; 2; 1; 0].
Proof.
  split; [exact small_hash_lt|].
  destruct (binit_all_in_first_bucket 2 4 Small.hash small_hash_lt Small.dsk)
    as (s0 & Hrun & Hb & _).
  exists s0. by split.
Defined.

(** ** The further properties on the small configuration *)

Lemma small_not_in (i : nat) (l : list nat) :
  bool_decide (i ∈ l) = false -> i ∉ l.
Proof. intros H Hin. by rewrite bool_decide_eq_true_2 in H. Qed.

Lemma small_reachable_full : reachable 2 4 Small.hash Small.s_full.
Proof.
  exists Small.dsk, Small.s0, Small.full_trace.
  split; vm_compute; reflexivity.
Qed.

Lemma small_hash3_lt x : Small.hash3 x < 3.
Proof. apply hash_mod_lt. lia. Qed.

Lemma small_reachable_t1 : reachable 3 2 Small.hash3 Small.t1.
Proof.
  exists Small.dsk, Small.t0, Small.trace3. split; vm_compute; reflexivity.
Qed.

Lemma put_pushes_front_witness :
  bucket Small.s_off (Small.hash 0) = Some [2; 1; 0] /\
  bc_buf Small.s_off !! 3 = Some zero_buf /\
  (3 ∉ [2; 1; 0]) /\
  exists s', put Small.hash 0 3 Small.s_off = Done tt s' /\
    bucket s' (Small.hash 0) = Some [3; 2; 1; 0].
Proof.
  assert (Hnot : 3 ∉ [2; 1; 0]) by (apply small_not_in; reflexivity).
  split; [reflexivity|]. split; [reflexivity|]. split; [exact Hnot|].
  destruct (put_pushes_front Small.hash Small.s_off 0 3 zero_buf [2; 1; 0]
              eq_refl eq_refl Hnot) as (s' & Hput & Hb & _).
  exists s'. by split.
Defined.

Lemma put_linked_cycles_witness :
  bucket Small.s0 (Small.hash 0) = Some [3; 2; 1; 0] /\
  (2 ∈ [3; 2; 1; 0]) /\
  Small.hash 12 = Small.hash 0 /\
  exists s', put Small.hash 0 2 Small.s0 = Done tt s' /\
    bucket s' (Small.hash 0) = None /\
    bget 2 Small.hash 7 1 12 s' = Diverge.
Proof.
  assert (Hin : 2 ∈ [3; 2; 1; 0]) by (right; left).
  split; [reflexivity|]. split; [exact Hin|]. split; [reflexivity|].
  apply (put_linked_cycles 2 Small.hash Small.s0 0 2 [3; 2; 1; 0] 7 1 12
           eq_refl Hin eq_refl).
  intros i Hi.
  repeat (apply elem_of_cons in Hi as [->|Hi]; [reflexivity|]).
  by apply elem_of_nil in Hi.
Defined.

Lemma put_remove_round_trip_witness :
  bucket Small.s_off (Small.hash 0) = Some [2; 1; 0] /\
  bc_buf Small.s_off !! 3 = Some zero_buf /\
  (3 ∉ [2; 1; 0]) /\
  Small.hash (blockno zero_buf) = Small.hash 0 /\
  exists s1, put Small.hash 0 3 Small.s_off = Done tt s1 /\
    remove Small.hash 3 s1 = Done tt (upd 3 (set_out None) Small.s_off).
Proof.
  assert (Hnot : 3 ∉ [2; 1; 0]) by (apply small_not_in; reflexivity).
  split; [reflexivity|]. split; [reflexivity|]. split; [exact Hnot|].
  split; [reflexivity|].
  destruct (put_remove_round_trip Small.hash Small.s_off 0 3 zero_buf
              [2; 1; 0] eq_refl eq_refl Hnot eq_refl) as (s1 & Hput & Hrem & _).
  exists s1. by split.
Defined.

Lemma debug_bucket_report_witness :
  bucket Small.after_bread (Small.hash 0) = Some [2; 1; 0] /\
  (Z.of_nat (length [2; 1; 0]) < 2 ^ 31)%Z /\
  exists bl,
    debug_bucket Small.hash 0 Small.after_bread
    = Done ((line_of <$> bl) ++ [Total 3]) Small.after_bread.
Proof.
  split; [reflexivity|]. split; [reflexivity|].
  destruct (debug_bucket_report Small.hash Small.after_bread 0 [2; 1; 0]
              eq_refl eq_refl) as (bl & _ & Hrun).
  by exists bl.
Defined.

Lemma buckets_partition_witness :
  reachable 2 4 Small.hash Small.s1 /\
  mjoin (lists 2 Small.s1) ≡ₚ seq 0 4.
Proof.
  split; [exact small_reachable|].
  exact (proj1 (proj2 (proj2 (buckets_partition 2 4 Small.hash small_hash_lt
                                Small.s1 small_reachable)))).
Defined.

Lemma binit_rebuilds_witness :
  length (bc_buf Small.after_bread) = 4 /\
  length (bc_head Small.after_bread) = 2 /\
  exists s', binit 2 4 Small.hash Small.after_bread = Done tt s' /\
    bucket s' (Small.hash 0) = Some [3; 2; 1; 0] /\
    ~ inv 2 4 Small.hash s'.
Proof.
  split; [reflexivity|]. split; [reflexivity|].
  destruct (binit_rebuilds 2 4 Small.hash small_hash_lt Small.after_bread
              eq_refl eq_refl) as (s' & Hrun & Hb & _ & _ & _ & _ & Hinv).
  exists s'. split; [exact Hrun|]. split; [exact Hb|].
  intros H. pose proof (proj1 Hinv H 3 Small.buf3 eq_refl) as H3.
  vm_compute in H3. discriminate H3.
Defined.

Lemma bget_keeps_in_use_witness :
  reachable 2 4 Small.hash Small.after_bread /\
  settle (bget 2 Small.hash 8 1 12 Small.after_bread)
    = Some Small.after_bget /\
  bc_buf Small.after_bread !! 3 = Some Small.buf3 /\
  refcnt Small.buf3 <> 0%Z /\
  exists bi', bc_buf Small.after_bget !! 3 = Some bi' /\
    dev bi' = 1%Z /\ blockno bi' = 11%Z.
Proof.
  assert (Hr : refcnt Small.buf3 <> 0%Z) by (simpl; lia).
  split; [exact small_reachable_after_bread|]. split; [reflexivity|].
  split; [reflexivity|]. split; [exact Hr|].
  destruct (bget_keeps_in_use 2 4 Small.hash small_hash_lt Small.after_bread
              8 1 12 Small.after_bget small_reachable_after_bread eq_refl
              3 Small.buf3 eq_refl Hr) as (bi' & Hb & Hd & Hn & _).
  exists bi'. by split_and!.
Defined.

Lemma bread_miss_reads_disk_witness :
  reachable 2 4 Small.hash Small.s0 /\
  bucket Small.s0 (Small.hash 11) = Some [] /\
  pick (cached 1 11) (bc_buf Small.s0) [] = None /\
  bread 2 Small.hash 7 1 11 Small.s0 = Done 3 Small.after_bread /\
  exists bb', bc_buf Small.after_bread !! 3 = Some bb' /\
    data bb' = Small.dsk 1 11 /\
    io_log Small.after_bread = [Io false 1 11].
Proof.
  split; [exact small_reachable_s0|]. split; [reflexivity|].
  split; [reflexivity|]. split; [reflexivity|].
  destruct (bread_miss_reads_disk 2 4 Small.hash small_hash_lt Small.s0
              7 1 11 [] 3 Small.after_bread small_reachable_s0 eq_refl
              eq_refl eq_refl)
    as (bb & bb' & _ & _ & Hb & _ & _ & _ & _ & _ & Hdata & Hio & _).
  exists bb'. by split_and!.
Defined.

Lemma bget_panics_only_when_exhausted_witness :
  reachable 2 4 Small.hash Small.s_full /\
  probe_ok 2 Small.hash 14 /\
  bget 2 Small.hash 8 1 14 Small.s_full = Panic msg_no_buffers /\
  forall i b, bc_buf Small.s_full !! i = Some b -> refcnt b <> 0%Z.
Proof.
  assert (Hp : probe_ok 2 Small.hash 14)
    by (apply hash_mod_probe_ok; simpl; lia).
  split; [exact small_reachable_full|]. split; [exact Hp|].
  split; [reflexivity|]. intros i b Hb.
  exact (proj1 (proj2 (bget_panics_only_when_exhausted 2 4 Small.hash
                         small_hash_lt Small.s_full 8 1 14 msg_no_buffers
                         small_reachable_full Hp eq_refl) i b Hb)).
Defined.

Lemma bread_brelse_round_trip_witness :
  bucket Small.after_brelse (Small.hash 11) = Some [3] /\
  pick (cached 1 11) (bc_buf Small.after_brelse) [3] = Some 3 /\
  bc_buf Small.after_brelse !! 3 = Some Small.buf3_free /\
  lock Small.buf3_free = None /\
  valid Small.buf3_free <> 0%Z /\
  (0 <= refcnt Small.buf3_free < 2 ^ 32)%Z /\
  exists s1, bread 2 Small.hash 8 1 11 Small.after_brelse = Done 3 s1 /\
    brelse 8 3 s1 = Done tt Small.after_brelse.
Proof.
  assert (Hv : valid Small.buf3_free <> 0%Z) by (simpl; lia).
  assert (Hr : (0 <= refcnt Small.buf3_free < 2 ^ 32)%Z) by (simpl; lia).
  split; [reflexivity|]. split; [reflexivity|]. split; [reflexivity|].
  split; [reflexivity|]. split; [exact Hv|]. split; [exact Hr|].
  destruct (bread_brelse_round_trip 2 Small.hash Small.after_brelse 8 1 11
              [3] 3 Small.buf3_free eq_refl eq_refl eq_refl eq_refl Hv Hr)
    as (s1 & Hread & _ & Hrel).
  exists s1. by split.
Defined.

Lemma bpin_bunpin_round_trip_witness :
  bc_buf Small.after_bread !! 3 = Some Small.buf3 /\
  (0 <= refcnt Small.buf3 < 2 ^ 32)%Z /\
  exists s1, bpin 3 Small.after_bread = Done tt s1 /\
    bunpin 3 s1 = Done tt Small.after_bread.
Proof.
  assert (Hr : (0 <= refcnt Small.buf3 < 2 ^ 32)%Z) by (simpl; lia).
  split; [reflexivity|]. split; [exact Hr|].
  exact (proj1 (bpin_bunpin_round_trip Small.after_bread 3 Small.buf3
                  eq_refl Hr)).
Defined.

Lemma traversals_safe_witness :
  reachable 2 4 Small.hash Small.s1 /\
  forall pid d n, bread 2 Small.hash pid d n Small.s1 <> Diverge.
Proof.
  split; [exact small_reachable|]. intros pid d n.
  exact (proj2 (proj2 (proj2 (proj1 (traversals_safe 2 4 Small.hash
                                       small_hash_lt Small.s1
                                       small_reachable) pid d n)))).
Defined.

Lemma bget_takes_first_unused_witness :
  reachable 2 4 Small.hash Small.s0 /\
  bucket Small.s0 (Small.hash 11) = Some [] /\
  pick (cached 1 11) (bc_buf Small.s0) [] = None /\
  bget 2 Small.hash 7 1 11 Small.s0 = Done 3 Small.got /\
  exists j lj, 1 <= j < 2 /\
    bucket Small.s0 (Small.hash (wrap (11 + Z.of_nat j))) = Some lj /\
    pick unused (bc_buf Small.s0) lj = Some 3.
Proof.
  split; [exact small_reachable_s0|]. split; [reflexivity|].
  split; [reflexivity|]. split; [reflexivity|].
  destruct (bget_takes_first_unused 2 4 Small.hash small_hash_lt Small.s0
              7 1 11 [] 3 Small.got small_reachable_s0 eq_refl eq_refl
              (or_introl eq_refl))
    as [Hown|(_ & j & lj & Hj & Hlj & Hpick & _)].
  - discriminate Hown.
  - exists j, lj. split; [exact Hj|]. by split.
Defined.

Lemma bget_probe_collision_panics_witness :
  reachable 3 2 Small.hash3 Small.t1 /\
  bucket Small.t1 (Small.hash3 4294967295) = Some [0] /\
  pick (cached 1 4294967295) (bc_buf Small.t1) [0] = None /\
  pick unused (bc_buf Small.t1) [0] = None /\
  Small.hash3 (wrap (4294967295 + Z.of_nat 1)) = Small.hash3 4294967295 /\
  holds unused (bc_buf Small.t1) 1 = true /\
  bget 3 Small.hash3 8 1 4294967295 Small.t1 = Panic msg_no_buffer.
Proof.
  split; [exact small_reachable_t1|]. split; [reflexivity|].
  split; [reflexivity|]. split; [reflexivity|]. split; [reflexivity|].
  split; [reflexivity|].
  apply (bget_probe_collision_panics 3 2 Small.hash3 small_hash3_lt Small.t1
           8 1 4294967295 [0] 1 small_reachable_t1 eq_refl eq_refl eq_refl).
  - lia.
  - reflexivity.
  - intros j' l' Hj'. lia.
Defined.

Lemma bget_own_bucket_keeps_lists_witness :
  bucket Small.after_brelse (Small.hash 11) = Some [3] /\
  pick (cached 1 11) (bc_buf Small.after_brelse) [3] <> None /\
  exists s', settle (bget 2 Small.hash 8 1 11 Small.after_brelse) = Some s' /\
    bc_head s' = bc_head Small.after_brelse /\
    forall k, bucket s' k = bucket Small.after_brelse k.
Proof.
  assert (Hhit : pick (cached 1 11) (bc_buf Small.after_brelse) [3] <> None)
    by (intros H; vm_compute in H; discriminate H).
  split; [reflexivity|]. split; [exact Hhit|].
  assert (Hrun : settle (bget 2 Small.hash 8 1 11 Small.after_brelse)
                 = Some (upd 3 (set_lock (Some 8%Z))
                           (upd 3 incr Small.after_brelse)))
    by (vm_compute; reflexivity).
  exists (upd 3 (set_lock (Some 8%Z)) (upd 3 incr Small.after_brelse)).
  split; [exact Hrun|].
  destruct (bget_own_bucket_keeps_lists 2 Small.hash Small.after_brelse
              8 1 11 [3] _ eq_refl (or_introl Hhit) Hrun)
    as (Hh & _ & Hb).
  by split.
Defined.
